(** * GSC image-provisioning helpers: a shallow embedding and its properties

    The Python module under verification inspects a container image
    configuration, derives the launch descriptor and the environment block of
    the enclave manifest, merges manifest fragments and parses the Red Hat
    distro identifier.  Every function below is a transcription of the Python
    function of the same name; Python's effects are made explicit:

    - [print] appends a line to a [stdout] log,
    - [sys.exit(n)] and raised exceptions are values of [outcome],
    - in-place mutation is state passing (and, for the manifest merger, a
      store of objects addressed by references).

    Python [str] values are modelled by [string]; the separators the code
    looks for ([/], [=], the backslash, the double quote, the line feed) are
    ASCII, so the byte-wise reading agrees with the code-point-wise one on
    UTF-8 text. *)

From Stdlib Require Import ZArith Ascii String.
From stdpp Require Import base option list strings gmap pretty.

Local Open Scope string_scope.
Local Open Scope Z_scope.
Local Open Scope list_scope.

#[local] Arguments String.append !_ _ / : simpl nomatch.
#[local] Arguments Ascii.eqb : simpl never.
#[local] Arguments String.eqb : simpl never.

(** ** Python runtime notions *)

Module Py.

(** The exceptions that the modelled code can meet. *)
Inductive exn :=
| IndexError
| TypeError
| ValueError (msg : string)
| RuntimeError (msg : string)
| RecursionError
| ImageNotFound
| APIError
| KeyError
| OtherError (name : string).

(** How a call ends: a normal return, a raised exception, or [sys.exit]. *)
Inductive outcome (A : Type) :=
| Return (a : A)
| Raise (e : exn)
| SysExit (code : Z).
Arguments Return {A} a.
Arguments Raise {A} e.
Arguments SysExit {A} code.

(** A run: the lines printed, in order, and the way the call ended. *)
Record run (A : Type) := Run { stdout : list string; result : outcome A }.
Arguments Run {A} stdout result.
Arguments stdout {A} r.
Arguments result {A} r.

Definition slash : ascii := "/"%char.
Definition backslash : ascii := "\"%char.
Definition dquote : ascii := "034"%char.
Definition newline : ascii := "010"%char.
Definition equals : ascii := "="%char.

Definition str1 (c : ascii) : string := String c "".

(** [s.startswith(p)] *)
Fixpoint startswith (p s : string) : bool :=
  match p, s with
  | EmptyString, _ => true
  | String a p', String b s' => if Ascii.eqb a b then startswith p' s' else false
  | String _ _, EmptyString => false
  end.

(** [sub in s] on strings: substring search. *)
Fixpoint str_in (sub s : string) : bool :=
  startswith sub s ||
  match s with
  | EmptyString => false
  | String _ s' => str_in sub s'
  end.

(** [s[-1]], which raises [IndexError] on the empty string. *)
Fixpoint last_char (s : string) : option ascii :=
  match s with
  | EmptyString => None
  | String c EmptyString => Some c
  | String _ s' => last_char s'
  end.

(** [x or []] and [x or ''] for a value that may be [None]. *)
Definition or_list {A} (x : option (list A)) : list A :=
  match x with
  | Some (a :: l) => a :: l
  | _ => []
  end.

Definition or_str (x : option string) : string :=
  match x with
  | Some (String c s) => String c s
  | _ => ""
  end.

(** [l[i:j]] for indices [0 <= i], [0 <= j]. *)
Definition slice {A} (i j : nat) (l : list A) : list A := take (j - i) (drop i l).

(** [posixpath.basename]: what follows the last [/]. *)
Fixpoint basename_from (acc s : string) : string :=
  match s with
  | EmptyString => acc
  | String c s' =>
      if Ascii.eqb c slash then basename_from s' s' else basename_from acc s'
  end.
Definition basename (p : string) : string := basename_from p p.

(** [s.split(sep, maxsplit=1)] for a one-character separator: one piece
    when [sep] does not occur, otherwise the text before the first
    occurrence and the text after it. *)
Fixpoint split1 (sep : ascii) (s : string) : list string :=
  match s with
  | EmptyString => [""]
  | String c s' =>
      if Ascii.eqb c sep then [""; s']
      else match split1 sep s' with
           | [] => [str1 c]
           | hd :: tl => String c hd :: tl
           end
  end.

(** [l[i]] with Python's [IndexError]. *)
Definition index {A} (l : list A) (i : nat) : outcome A :=
  match l !! i with
  | Some a => Return a
  | None => Raise IndexError
  end.

(** [s.translate(table)] where [table] maps a character to its
    replacement text; unmapped characters are kept. *)
Fixpoint translate (table : ascii -> option string) (s : string) : string :=
  match s with
  | EmptyString => ""
  | String c s' =>
      match table c with
      | Some r => r +:+ translate table s'
      | None => String c (translate table s')
      end
  end.

End Py.

Import Py.

(** ** The image configuration and the image inspector *)

(** The configuration blob of an image: every attribute may be [None]. *)
Record image_config := ImageConfig {
  Entrypoint : option (list string);
  Cmd : option (list string);
  WorkingDir : option string;
  Env : option (list string);
  User : option string
}.

Section Inspector.

(** The image objects of the container service are opaque here. *)
Variable Image : Type.

(** [docker_socket.images.get]: the service either yields an image or
    raises. *)
Record docker_socket := DockerSocket { images_get : string -> outcome Image }.

Definition get_docker_image (sock : docker_socket) (image_name : string)
  : outcome (option Image) :=
  match images_get sock image_name with
  | Return docker_image => Return (Some docker_image)
  | Raise ImageNotFound => Return None
  | Raise APIError => Return None
  | Raise e => Raise e
  | SysExit c => SysExit c
  end.

End Inspector.

Arguments DockerSocket {Image} images_get.
Arguments images_get {Image} d.
Arguments get_docker_image {Image} sock image_name.

(** ** The config synthesizer: binary descriptor *)

(** [binary_arguments] and [cmd] are a list of strings, or the empty string
    [''] when there is nothing to pass. *)
Inductive args :=
| ArgList (l : list string)
| ArgStr (s : string).

(** The elements a template iterates over: iterating [''] yields nothing. *)
Definition args_items (a : args) : list string :=
  match a with
  | ArgList l => l
  | ArgStr s => (fix chars s := match s with
                                | EmptyString => []
                                | String c s' => str1 c :: chars s'
                                end) s
  end.

(** The mapping passed to [env.globals.update]. *)
Record binary_info := BinaryInfo {
  binary : string;
  binary_arguments : args;
  binary_basename : string;
  cmd : args;
  working_dir : string
}.

(** "Canonize working dir". *)
Definition canonize_working_dir (working_dir : string) : string :=
  if String.eqb working_dir "" then "/"
  else match last_char working_dir with
       | Some c => if Ascii.eqb c slash then working_dir else working_dir +:+ "/"
       | None => working_dir
       end.

Definition no_entrypoint_message : string :=
  "Could not find the entrypoint binary to the application image.".

(** The function returns nothing; its effects are the update of the template
    globals (the [binary_info] returned here) and, because
    [config['Entrypoint'] or []] is the configuration's own list whenever that
    list is non-empty, the extension of that list by [cmd] (the configuration
    returned here). *)
Definition extract_binary_info_from_image_config (config : image_config)
  : run (image_config * binary_info) :=
  let entrypoint := or_list (Entrypoint config) in
  let num_starting_entrypoint_items := length entrypoint in
  let cmd := or_list (Cmd config) in
  let working_dir := or_str (WorkingDir config) in
  let working_dir := canonize_working_dir working_dir in
  let config' :=
    match entrypoint with
    | [] => config
    | _ :: _ =>
        ImageConfig (Some (entrypoint ++ cmd)) (Cmd config) (WorkingDir config)
                    (Env config) (User config)
    end in
  let entrypoint := entrypoint ++ cmd in
  match entrypoint with
  | [] => Run [no_entrypoint_message] (SysExit 1)
  | binary :: _ =>
      let binary :=
        if negb (startswith "/" binary) && str_in "/" binary
        then working_dir +:+ binary else binary in
      let '(last_bin_arg, binary_arguments) :=
        if (1 <? num_starting_entrypoint_items)%nat
        then (num_starting_entrypoint_items,
              ArgList (slice 1 num_starting_entrypoint_items entrypoint))
        else (0%nat, ArgStr "") in
      let cmd :=
        if (last_bin_arg + 1 <? length entrypoint)%nat
        then ArgList (drop (last_bin_arg + 1) entrypoint)
        else ArgStr "" in
      Run [] (Return (config',
                      BinaryInfo binary binary_arguments (basename binary) cmd working_dir))
  end.

(** [extract_user_from_image_config]: the value stored under [app_user]. *)
Definition extract_user_from_image_config (config : image_config) : string :=
  match or_str (User config) with
  | "" => "root"
  | user => user
  end.

(** ** The [print]/[exit]/[raise] monad *)

Definition bind {A B} (k : A -> run B) (m : run A) : run B :=
  match result m with
  | Return a => Run (stdout m ++ stdout (k a)) (result (k a))
  | Raise e => Run (stdout m) (Raise e)
  | SysExit c => Run (stdout m) (SysExit c)
  end.

#[global] Instance run_ret : MRet run := fun A a => Run [] (Return a).
#[global] Instance run_bind : MBind run := fun A B k m => bind k m.

Definition print (line : string) : run unit := Run [line] (Return tt).
Definition lift {A} (o : outcome A) : run A := Run [] o.
Definition raise {A} (e : exn) : run A := Run [] (Raise e).

(** ** The config synthesizer: environment block *)

(** [str.maketrans({'\\': r'\\', '"': r'\"'})] *)
Definition escape_table (c : ascii) : option string :=
  if Ascii.eqb c backslash then Some (String backslash (str1 backslash))
  else if Ascii.eqb c dquote then Some (String backslash (str1 dquote))
  else None.

Definition skip_message (name : string) : string :=
  "Skipping environment variable `" +:+ name +:+ "`: its value contains newlines.".

Definition env_line (env_var_name env_var_value : string) : string :=
  "loader.env." +:+ env_var_name +:+ " = " +:+ str1 dquote +:+ env_var_value
  +:+ str1 dquote +:+ str1 newline.

(** The [for env_var in env_list] loop, with the accumulator
    [base_image_environment]. *)
Fixpoint extract_environment_loop (env_list : list string)
  (base_image_environment : string) : run string :=
  match env_list with
  | [] => mret base_image_environment
  | env_var :: rest =>
      if str_in (str1 newline) env_var then
        name ← lift (index (split1 equals env_var) 0);
        print (skip_message name);;
        extract_environment_loop rest base_image_environment
      else
        let escaped_env_var := translate escape_table env_var in
        env_var_name ← lift (index (split1 equals escaped_env_var) 0);
        env_var_value ← lift (index (split1 equals escaped_env_var) 1);
        extract_environment_loop rest
          (base_image_environment +:+ env_line env_var_name env_var_value)
  end.

Definition extract_environment_from_image_config (config : image_config) : run string :=
  let env_list := or_list (Env config) in
  extract_environment_loop env_list "".

(** ** Regular expressions, as far as the module uses them *)

Module Re.

Inductive regex :=
| Lit (s : string)            (* literal text *)
| Digit                       (* \d *)
| Plus (r : regex)            (* r+, greedy *)
| Opt (r : regex)             (* r?, greedy *)
| Group (n : nat) (r : regex) (* the n-th capturing group *)
| Cat (r1 r2 : regex)
| Bol                         (* ^ *)
| Eol.                        (* $ *)

(** The text captured by each group that took part in the match. *)
Definition groups := list (nat * string).

Definition group (n : nat) (g : groups) : option string :=
  snd <$> List.find (fun p => Nat.eqb (fst p) n) g.

(** [\d] on ASCII text: the digits [0] to [9]. *)
Definition is_digit (c : ascii) : bool :=
  (48 <=? nat_of_ascii c)%nat && (nat_of_ascii c <=? 57)%nat.

Fixpoint strip_prefix (p s : string) : option string :=
  match p, s with
  | EmptyString, _ => Some s
  | String a p', String b s' => if Ascii.eqb a b then strip_prefix p' s' else None
  | String _ _, EmptyString => None
  end.

(** What a matcher of a pattern, and what the continuation matching the rest
    of the pattern, look like: [pos] is the offset of [s] in the subject. *)
Definition cont := nat -> string -> groups -> option groups.
Definition matcher := nat -> string -> groups -> cont -> option groups.

(** Greedy repetition, one or more times, of the pattern matched by [m]: after
    each repetition try one more, and fall back to the continuation when no
    longer run leads to a match.  [n] bounds the number of repetitions; a
    repetition that consumes nothing is not repeated. *)
Fixpoint plus_iter (m : matcher) (k : cont) (n : nat) (pos : nat) (s : string)
  (g : groups) : option groups :=
  match n with
  | O => None
  | S n' =>
      m pos s g (fun pos' s' g' =>
        match (if (pos' =? pos)%nat then None else plus_iter m k n' pos' s' g') with
        | Some res => Some res
        | None => k pos' s' g'
        end)
  end.

(** A backtracking matcher in continuation style. *)
Fixpoint rmatch (r : regex) (pos : nat) (s : string) (g : groups) (k : cont)
  : option groups :=
  match r with
  | Lit p =>
      match strip_prefix p s with
      | Some s' => k (pos + String.length p)%nat s' g
      | None => None
      end
  | Digit =>
      match s with
      | String c s' => if is_digit c then k (S pos) s' g else None
      | EmptyString => None
      end
  | Plus r' => plus_iter (rmatch r') k (S (String.length s)) pos s g
  | Opt r' =>
      match rmatch r' pos s g k with
      | Some res => Some res
      | None => k pos s g
      end
  | Group n r' =>
      rmatch r' pos s g (fun pos' s' g' =>
        k pos' s' ((n, substring 0 (pos' - pos) s) :: g'))
  | Cat r1 r2 => rmatch r1 pos s g (fun pos' s' g' => rmatch r2 pos' s' g' k)
  | Bol => if (pos =? 0)%nat then k pos s g else None
  | Eol => if String.eqb s "" || String.eqb s (str1 newline) then k pos s g else None
  end.

(** [re.search]: the first offset at which the pattern matches. *)
Fixpoint search_from (r : regex) (pos : nat) (s : string) : option groups :=
  match rmatch r pos s [] (fun _ _ g => Some g) with
  | Some g => Some g
  | None =>
      match s with
      | EmptyString => None
      | String _ s' => search_from r (S pos) s'
      end
  end.

Definition search (r : regex) (s : string) : option groups := search_from r 0 s.

End Re.

(** ** The Red Hat credential stager: dispatch and identifier parsing *)

(** [r'^redhat/ubi(\d+)(-minimal)?$'] *)
Definition redhat_pattern : Re.regex :=
  Re.Cat Re.Bol
    (Re.Cat (Re.Lit "redhat/ubi")
       (Re.Cat (Re.Group 1 (Re.Plus Re.Digit))
          (Re.Cat (Re.Opt (Re.Group 2 (Re.Lit "-minimal"))) Re.Eol))).

(** Where the function stands once the identifier has been looked at: it has
    returned at once, or it goes on to stage the host's credentials for the
    repository [repo_name]. *)
Inductive redhat_stage :=
| NotRedHat
| StageRepo (version_id repo_name : string).

(** The function up to the point where it opens the host's repository file;
    the staging of files that follows is outside this model. *)
Definition handle_redhat_repo_configs (distro : string) : outcome redhat_stage :=
  if negb (startswith "redhat/" distro) then Return NotRedHat
  else
    match Re.search redhat_pattern distro with
    | Some version_id_match =>
        let version_id :=
          match Re.group 1 version_id_match with
          | Some v => v
          | None => "None"
          end in
        let repo_name := "rhel-" +:+ version_id +:+ "-for-x86_64-baseos-rpms" in
        Return (StageRepo version_id repo_name)
    | None => Raise (ValueError ("Invalid Red Hat distro format: " +:+ distro))
    end.

(** ** Manifests

    A manifest is a mapping from string keys to values; a value is a scalar,
    a list of values or a nested mapping.  The scalars modelled are strings,
    integers and booleans (floating-point numbers and dates are left out).  A mapping is kept as the list of its items in
    insertion order, as a Python [dict] keeps them; a [dict] holds each key
    once. *)

#[warnings="-register-all"]
Inductive manifest_value :=
| MStr (s : string)
| MInt (z : Z)
| MBool (b : bool)
| MList (items : list manifest_value)
| MDict (items : list (string * manifest_value)).

Abbreviation manifest := (list (string * manifest_value)).

(** [d[key]] / [key in d] *)
Fixpoint dict_get {V} (key : string) (d : list (string * V)) : option V :=
  match d with
  | [] => None
  | (k, v) :: d' => if String.eqb k key then Some v else dict_get key d'
  end.

(** [d[key] = v]: the value of an existing key is replaced where it stands,
    a new key goes last. *)
Fixpoint dict_set {V} (key : string) (v : V) (d : list (string * V)) : list (string * V) :=
  match d with
  | [] => [(key, v)]
  | (k, x) :: d' => if String.eqb k key then (k, v) :: d' else (k, x) :: dict_set key v d'
  end.

(** [sep.join(l)] *)
Fixpoint join (sep : string) (l : list string) : string :=
  match l with
  | [] => ""
  | [x] => x
  | x :: l' => x +:+ sep +:+ join sep l'
  end.

(** The [if] that selects the three search-path variables of [loader.env]. *)
Definition concatenated_envvar (path : list string) (key : string) : bool :=
  String.eqb (join "." path) "loader.env" &&
  existsb (String.eqb key) ["LD_LIBRARY_PATH"; "PATH"; "LD_PRELOAD"].

Definition concatenating_warning (manifest1_name manifest2_name : string)
  (path : list string) (key : string) : string :=
  "Warning: Duplicate key `" +:+ join "." (path ++ [key]) +:+ "`. Concatenating"
  +:+ " values from `" +:+ manifest1_name +:+ "` and `" +:+ manifest2_name +:+ "`.".

Definition overriding_warning (manifest1_name manifest2_name : string)
  (path : list string) (key : string) : string :=
  "Warning: Duplicate key `" +:+ join "." (path ++ [key]) +:+ "`. Overriding"
  +:+ " value from `" +:+ manifest2_name +:+ "` by the one in `" +:+ manifest1_name +:+ "`.".

(** *** The merger on manifests taken as values

    This is the function as it acts on two manifests that share no object:
    the first component of the result is [manifest1] after the call, the
    second the warnings printed, in order. *)

Module Values.

Section Merge.

(** [str()] of a list or of a mapping, which only the interpreter defines. *)
Variable container_str : manifest_value -> string.
Variables manifest1_name manifest2_name : string.

(** [f'{v}'] *)
Definition py_str (v : manifest_value) : string :=
  match v with
  | MStr s => s
  | MInt z => pretty z
  | MBool true => "True"
  | MBool false => "False"
  | _ => container_str v
  end.

(** [v1 == v2] where the two are not both mappings and not both lists, the
    only place where the merger compares: scalars compare by value ([True]
    and [False] being the integers 1 and 0), anything else is unequal. *)
Definition py_eq (v1 v2 : manifest_value) : bool :=
  match v1, v2 with
  | MStr a, MStr b => String.eqb a b
  | MInt a, MInt b => (a =? b)%Z
  | MBool a, MBool b => Bool.eqb a b
  | MInt a, MBool b => (a =? (if b then 1 else 0))%Z
  | MBool a, MInt b => ((if a then 1 else 0) =? b)%Z
  | _, _ => false
  end.

(** The body of the loop for a [key] held by both manifests: the value of
    [manifest1[key]] afterwards and the warnings printed.  [path] is the path
    of the mapping that holds [key]. *)
Fixpoint merge_value (path : list string) (key : string)
  (value1 value2 : manifest_value) {struct value2} : manifest_value * list string :=
  match value1, value2 with
  | MDict d1, MDict d2 =>
      let '(d1', out) :=
        (fix for_key (manifest2 manifest1 : manifest) : manifest * list string :=
           match manifest2 with
           | [] => (manifest1, [])
           | (k, v2) :: rest =>
               let '(manifest1, out) :=
                 match dict_get k manifest1 with
                 | Some v1 =>
                     let '(v, out) := merge_value (path ++ [key]) k v1 v2 in
                     (dict_set k v manifest1, out)
                 | None => (dict_set k v2 manifest1, [])
                 end in
               let '(manifest1, out') := for_key rest manifest1 in
               (manifest1, out ++ out')
           end) d2 d1 in
      (MDict d1', out)
  | MList l1, MList l2 => (MList (l1 ++ l2), [])
  | _, _ =>
      if py_eq value1 value2 then (value1, [])
      else if concatenated_envvar path key
      then (MStr (py_str value1 +:+ ":" +:+ py_str value2),
            [concatenating_warning manifest1_name manifest2_name path key])
      else (value1, [overriding_warning manifest1_name manifest2_name path key])
  end.

(** One turn of [for key in manifest2]: [manifest1] afterwards and the
    warnings printed. *)
Definition merge_item (path : list string) (manifest1 : manifest)
  (key : string) (value2 : manifest_value) : manifest * list string :=
  match dict_get key manifest1 with
  | Some value1 =>
      let '(v, out) := merge_value path key value1 value2 in
      (dict_set key v manifest1, out)
  | None => (dict_set key value2 manifest1, [])
  end.

Fixpoint merge_manifests_in_order (manifest1 manifest2 : manifest)
  (path : list string) {struct manifest2} : manifest * list string :=
  match manifest2 with
  | [] => (manifest1, [])
  | (key, value2) :: rest =>
      let '(manifest1, out) := merge_item path manifest1 key value2 in
      let '(manifest1, out') := merge_manifests_in_order manifest1 rest path in
      (manifest1, out ++ out')
  end.

End Merge.

End Values.

(** *** The merger on a store of objects

    Lists and mappings are objects of a store and are held by reference, so
    that a write through one reference is seen through every other one. *)

Module Heap.

Abbreviation loc := positive.

Inductive val :=
| VStr (s : string)
| VInt (z : Z)
| VBool (b : bool)
| VRef (l : loc).

Inductive obj :=
| ODict (items : list (string * val))
| OList (items : list val).

Abbreviation store := (gmap loc obj).

(** What [isinstance] tells about a value. *)
Inductive kind :=
| KDict (l : loc)
| KList (l : loc) (items : list val)
| KOther.

Definition kind_of (st : store) (v : val) : kind :=
  match v with
  | VRef l =>
      match st !! l with
      | Some (ODict _) => KDict l
      | Some (OList items) => KList l items
      | None => KOther
      end
  | _ => KOther
  end.

Section Merge.

(** [str()] of a list or of a mapping, which only the interpreter defines.
    The two arguments of the merger are manifests, that is, references to
    mappings; a call on anything else is outside the domain of the function
    and ends here in [TypeError]. *)
Variable container_str : store -> loc -> string.
Variables manifest1_name manifest2_name : string.

(** [f'{v}'] *)
Definition py_str (st : store) (v : val) : string :=
  match v with
  | VStr s => s
  | VInt z => pretty z
  | VBool true => "True"
  | VBool false => "False"
  | VRef l => container_str st l
  end.

(** [v1 == v2] where the two are not both mappings and not both lists. *)
Definition py_eq (v1 v2 : val) : bool :=
  match v1, v2 with
  | VStr a, VStr b => String.eqb a b
  | VInt a, VInt b => (a =? b)%Z
  | VBool a, VBool b => Bool.eqb a b
  | VInt a, VBool b => (a =? (if b then 1 else 0))%Z
  | VBool a, VInt b => ((if a then 1 else 0) =? b)%Z
  | _, _ => false
  end.

(** [manifest1[key] = v] *)
Definition store_set (st : store) (manifest1 : loc) (key : string) (v : val) : run store :=
  match st !! manifest1 with
  | Some (ODict items1) => mret (<[manifest1 := ODict (dict_set key v items1)]> st)
  | _ => raise TypeError
  end.

(** The last two branches of the [if] chain: the values are equal, or they
    differ. *)
Definition merge_differing (st : store) (manifest1 : loc) (path : list string)
  (key : string) (value1 value2 : val) : run store :=
  if py_eq value1 value2 then mret st
  else if concatenated_envvar path key then
    st' ← store_set st manifest1 key
           (VStr (py_str st value1 +:+ ":" +:+ py_str st value2));
    print (concatenating_warning manifest1_name manifest2_name path key);;
    mret st'
  else
    print (overriding_warning manifest1_name manifest2_name path key);;
    mret st.

(** The body of the loop; [rec] is the function itself, for the recursive
    call. *)
Definition merge_key (rec : store -> loc -> loc -> list string -> run (store * loc))
  (st : store) (manifest1 manifest2 : loc) (path : list string) (key : string)
  : run store :=
  match st !! manifest1, st !! manifest2 with
  | Some (ODict items1), Some (ODict items2) =>
      match dict_get key items2 with
      | None => raise KeyError
      | Some value2 =>
          match dict_get key items1 with
          | Some value1 =>
              match kind_of st value1, kind_of st value2 with
              | KDict l1, KDict l2 =>
                  r ← rec st l1 l2 (path ++ [key]);
                  mret (fst r)
              | KList l1 a, KList l2 b =>
                  mret (<[l1 := OList (a ++ b)]> st)
              | _, _ => merge_differing st manifest1 path key value1 value2
              end
          | None => store_set st manifest1 key value2
          end
      end
  | _, _ => raise TypeError
  end.

(** [for key in manifest2]: the iterator walks the keys the mapping had when
    the loop began and, each time it is asked for the next key, raises if the
    mapping has changed size since. *)
Fixpoint merge_keys (rec : store -> loc -> loc -> list string -> run (store * loc))
  (size : nat) (keys : list string)
  (st : store) (manifest1 manifest2 : loc) (path : list string) : run store :=
  match st !! manifest2 with
  | Some (ODict items2) =>
      if negb (length items2 =? size)%nat
      then raise (RuntimeError "dictionary changed size during iteration")
      else
        match keys with
        | [] => mret st
        | key :: rest =>
            st' ← merge_key rec st manifest1 manifest2 path key;
            merge_keys rec size rest st' manifest1 manifest2 path
        end
  | _ => raise TypeError
  end.

(** [fuel] bounds the depth of the recursion; the function returns the store
    after the call and its first argument. *)
Fixpoint merge_manifests_in_order (fuel : nat) (st : store)
  (manifest1 manifest2 : loc) (path : list string) : run (store * loc) :=
  match fuel with
  | O => raise RecursionError
  | S fuel' =>
      match st !! manifest2 with
      | Some (ODict items2) =>
          st' ← merge_keys (merge_manifests_in_order fuel') (length items2)
                  (items2.*1) st manifest1 manifest2 path;
          mret (st', manifest1)
      | _ => raise TypeError
      end
  end.

End Merge.

(** The manifest that a value of the store stands for, read to depth [n]. *)
Fixpoint read (n : nat) (st : store) (v : val) : option manifest_value :=
  match v with
  | VStr s => Some (MStr s)
  | VInt z => Some (MInt z)
  | VBool b => Some (MBool b)
  | VRef l =>
      match n with
      | O => None
      | S n' =>
          match st !! l with
          | Some (OList items) => MList <$> mapM (read n' st) items
          | Some (ODict items) =>
              MDict <$> mapM (fun kv => pair (fst kv) <$> read n' st (snd kv)) items
          | None => None
          end
      end
  end.

(** The objects met when reading a value to depth [n], every visit counted. *)
Fixpoint reach (n : nat) (st : store) (v : val) : list loc :=
  match v with
  | VRef l =>
      match n with
      | O => []
      | S n' =>
          l :: match st !! l with
               | Some (OList items) => items ≫= reach n' st
               | Some (ODict items) => items ≫= (fun kv => reach n' st (snd kv))
               | None => []
               end
      end
  | _ => []
  end.

(** Every mapping of the store holds each key once. *)
Definition dict_ok (o : obj) : Prop :=
  match o with
  | ODict items => NoDup (items.*1)
  | OList _ => True
  end.

Definition store_ok (st : store) : Prop := map_Forall (fun _ o => dict_ok o) st.

Definition is_dict (st : store) (l : loc) : Prop :=
  exists items, st !! l = Some (ODict items).

(** Two manifests of the store are separate when the first is a tree (no
    object of it is met twice) and no object of the first belongs to the
    second. *)
Definition separate (n : nat) (st : store) (manifest1 manifest2 : loc) : Prop :=
  NoDup (reach n st (VRef manifest1)) /\
  (forall l, l ∈ reach n st (VRef manifest1) -> l ∉ reach n st (VRef manifest2)).

(** What holds of the store [st] each time the loop of a call on the store
    [st0] asks for the next key, [keys] being the keys still to come and
    [items1_0] the items that [manifest1] had on entry: only objects of
    [manifest1] have changed, and the values that [manifest1] holds under the
    keys to come are as on entry, with all that they reach. *)
Definition loop_inv (n : nat) (st0 : store) (manifest1 : loc)
  (items1_0 : list (string * val)) (keys : list string) (st : store) : Prop :=
  store_ok st /\
  (forall l, l ∉ reach (S n) st0 (VRef manifest1) -> st !! l = st0 !! l) /\
  (exists items1, st !! manifest1 = Some (ODict items1) /\
     forall k, k ∈ keys -> dict_get k items1 = dict_get k items1_0) /\
  (forall k v l, k ∈ keys -> dict_get k items1_0 = Some v ->
     l ∈ reach n st0 v -> st !! l = st0 !! l).

(** What a call on separate manifests does: it returns its first argument
    and changes no object outside the first manifest. *)
Definition frame_of_call (container_str : store -> loc -> string)
  (manifest1_name manifest2_name : string) (n fuel : nat) : Prop :=
  forall (st : store) (m1 m2 : loc) (path : list string),
    store_ok st -> is_dict st m1 -> is_dict st m2 ->
    is_Some (read n st (VRef m1)) -> separate n st m1 m2 ->
    exists st' out,
      merge_manifests_in_order container_str manifest1_name manifest2_name
        fuel st m1 m2 path = Run out (Return (st', m1)) /\
      store_ok st' /\
      (forall l, l ∉ reach n st (VRef m1) -> st' !! l = st !! l).

(** A store with an empty first manifest and a second manifest that holds a
    list. *)
Definition two_manifests : store :=
  <[1%positive := ODict []]>
    (<[2%positive := ODict [("a", VRef 3)]]>
       (<[3%positive := OList [VInt 1]]> ∅)).

(** A store with two separate manifests: nested mappings, a list and
    scalars. *)
Definition separate_manifests : store :=
  <[1%positive := ODict [("loader", VRef 2); ("debug", VBool true)]]>
    (<[2%positive := ODict [("PATH", VStr "/x")]]>
       (<[3%positive := ODict [("loader", VRef 4); ("libs", VRef 5)]]>
          (<[4%positive := ODict [("PATH", VStr "/y"); ("HOME", VStr "/")]]>
             (<[5%positive := OList [VStr "a"]]> ∅)))).

End Heap.

(** ** Vocabulary of the statements *)

(** A path is absolute when it begins with the separator. *)
Definition is_absolute (p : string) : Prop := exists rest, p = String slash rest.

(** The character [c] occurs in [s]. *)
Definition occurs (c : ascii) (s : string) : Prop :=
  exists before after, s = before +:+ String c after.

Definition ends_with_slash (p : string) : Prop := exists before, p = before +:+ "/".

(** An attribute of the configuration is empty: absent, or the empty list. *)
Definition empty_attr {A} (x : option (list A)) : Prop := x = None \/ x = Some [].

(** A scalar of a manifest. *)
Definition is_scalar (v : manifest_value) : Prop :=
  match v with
  | MStr _ | MInt _ | MBool _ => True
  | MList _ | MDict _ => False
  end.

(** The condition under which the merger concatenates. *)
Definition search_path_variable (path : list string) (key : string) : Prop :=
  join "." path = "loader.env" /\ key ∈ ["LD_LIBRARY_PATH"; "PATH"; "LD_PRELOAD"].

(** The text [name=value] of an environment entry. *)
Definition env_entry (nv : string * string) : string :=
  fst nv +:+ String equals (snd nv).

(** The value of an environment entry as the manifest line carries it: a
    backslash before every backslash and every double quote, every other
    character as it is. *)
Fixpoint escaped (s : string) : string :=
  match s with
  | EmptyString => ""
  | String c s' =>
      if Ascii.eqb c backslash then String backslash (String backslash (escaped s'))
      else if Ascii.eqb c dquote then String backslash (String dquote (escaped s'))
      else String c (escaped s')
  end.

Definition has_newline (s : string) : bool := str_in (str1 newline) s.

(** An entry on which the loop fails: no line break and no [=]. *)
Definition malformed (env_var : string) : bool :=
  negb (has_newline env_var) && negb (str_in (str1 equals) env_var).

(** The texts of a list, one after the other. *)
Definition concat_str (l : list string) : string := foldr String.append "" l.

(** The text does not begin with a digit. *)
Definition no_leading_digit (s : string) : Prop :=
  match s with
  | EmptyString => True
  | String c _ => Re.is_digit c = false
  end.

(** A string of decimal digits. *)
Fixpoint all_digits (s : string) : bool :=
  match s with
  | EmptyString => true
  | String c s' => Re.is_digit c && all_digits s'
  end.

(** A service that knows no image at all. *)
Definition empty_registry : docker_socket unit :=
  DockerSocket (fun _ => Raise ImageNotFound).

(** *** Vocabulary for the two readings of the merger *)

(** The items of a mapping of the store against the items of a manifest:
    same keys in the same order, and the values related by [P]. *)
Definition entries_ok (P : string -> Heap.val -> manifest_value -> Prop)
  (items : list (string * Heap.val)) (d : manifest) : Prop :=
  Forall2 (fun kv kt => kv.1 = kt.1 /\ P kv.1 kv.2 kt.2) items d.

(** During the loop of a call entered on the store [st0], the value [v] held
    under the key [k] stands for [t], and every object it reaches belongs to
    the second manifest or to what [manifest1[k]] reached on entry. *)
Definition child_ok (n : nat) (st0 : Heap.store) (manifest2 : Heap.loc)
  (items1_0 : list (string * Heap.val)) (st : Heap.store)
  (k : string) (v : Heap.val) (t : manifest_value) : Prop :=
  Heap.read n st v = Some t /\
  forall l, l ∈ Heap.reach n st v ->
    l ∈ Heap.reach (S n) st0 (Heap.VRef manifest2) \/
    exists v0, dict_get k items1_0 = Some v0 /\ l ∈ Heap.reach n st0 v0.

(** The call on the store computes what the merger on values computes: same
    warnings, and the first manifest reads afterwards as the merged value. *)
Definition refines_call (heap_str : Heap.store -> Heap.loc -> string)
  (value_str : manifest_value -> string) (manifest1_name manifest2_name : string)
  (n fuel : nat) : Prop :=
  forall (st : Heap.store) (m1 m2 : Heap.loc) (path : list string) (d1 d2 : manifest),
    Heap.store_ok st ->
    Heap.read n st (Heap.VRef m1) = Some (MDict d1) ->
    Heap.read n st (Heap.VRef m2) = Some (MDict d2) ->
    Heap.separate n st m1 m2 ->
    exists st',
      Heap.merge_manifests_in_order heap_str manifest1_name manifest2_name
        fuel st m1 m2 path =
        Run (Values.merge_manifests_in_order value_str manifest1_name manifest2_name
               d1 d2 path).2 (Return (st', m1)) /\
      Heap.read n st' (Heap.VRef m1) =
        Some (MDict (Values.merge_manifests_in_order value_str manifest1_name manifest2_name
                       d1 d2 path).1) /\
      (forall l, l ∈ Heap.reach n st' (Heap.VRef m1) ->
         l ∈ Heap.reach n st (Heap.VRef m1) \/ l ∈ Heap.reach n st (Heap.VRef m2)).

(** ** Naming conventions *)

Definition gsc_image_name (original_image_name : string) : string :=
  "gsc-" +:+ original_image_name.

Definition gsc_unsigned_image_name (original_image_name : string) : string :=
  "gsc-" +:+ original_image_name +:+ "-unsigned".

(** ** Truth values of configuration strings

    The text functions below are Python's on ASCII text; the statements about
    [test_trueish] are made for ASCII values. *)

Definition is_ascii_char (c : ascii) : bool := (nat_of_ascii c <? 128)%nat.

Fixpoint is_ascii (s : string) : bool :=
  match s with
  | EmptyString => true
  | String c s' => is_ascii_char c && is_ascii s'
  end.

Definition is_upper (c : ascii) : bool :=
  (65 <=? nat_of_ascii c)%nat && (nat_of_ascii c <=? 90)%nat.

Definition lower_char (c : ascii) : ascii :=
  if is_upper c then ascii_of_nat (nat_of_ascii c + 32) else c.

(** [s.casefold()] *)
Fixpoint casefold (s : string) : string :=
  match s with
  | EmptyString => ""
  | String c s' => String (lower_char c) (casefold s')
  end.

(** [s.isdigit()]: at least one character, and digits only. *)
Definition isdigit (s : string) : bool :=
  match s with
  | EmptyString => false
  | String _ _ => all_digits s
  end.

Definition digit_value (c : ascii) : Z := Z.of_nat (nat_of_ascii c - 48).

(** [int(s)] for a string of digits, from the left.  The interpreter refuses
    such a string beyond its digit limit (4300 by default); the statements
    about [py_int] are made within it. *)
Fixpoint int_of_digits (acc : Z) (s : string) : Z :=
  match s with
  | EmptyString => acc
  | String c s' => int_of_digits (10 * acc + digit_value c) s'
  end.

Definition py_int (s : string) : Z := int_of_digits 0 s.

(** [x in (a, b, c)] on strings. *)
Definition str_among (x : string) (l : list string) : bool := existsb (String.eqb x) l.

Section Trueish.

(** [repr()] of a string, which only the interpreter defines. *)
Variable py_repr : string -> string.

Definition test_trueish (value : option string) : outcome bool :=
  match value with
  | None => Return false
  | Some EmptyString => Return false
  | Some value =>
      let value := casefold value in
      if str_among value ["false"; "off"; "no"] then Return false
      else if str_among value ["true"; "on"; "yes"] then Return true
      else if isdigit value then Return (negb (py_int value =? 0)%Z)
      else Raise (ValueError ("Invalid value for trueish: " +:+ py_repr value))
  end.

End Trueish.

(** ** Command-line arguments *)

Definition sys_exit {A} (code : Z) : run A := Run [] (SysExit code).

(** [key, value = item.split('=', maxsplit=1)], which raises when the split
    does not give two pieces. *)
Definition unpack2 (pieces : list string) : outcome (string * string) :=
  match pieces with
  | [key; value] => Return (key, value)
  | _ => Raise (ValueError "not enough values to unpack (expected 2)")
  end.

(** The loop of [extract_build_args] over [args.build_arg]; [environ] is
    [os.environ] and [buildargs_dict] the mapping built so far. *)
Fixpoint extract_build_args_loop (environ : gmap string string) (build_arg : list string)
  (buildargs_dict : list (string * string)) : run (list (string * string)) :=
  match build_arg with
  | [] => mret buildargs_dict
  | item :: rest =>
      if str_in "=" item then
        kv ← lift (unpack2 (split1 equals item));
        extract_build_args_loop environ rest (dict_set kv.1 kv.2 buildargs_dict)
      else
        match environ !! item with
        | Some value =>
            extract_build_args_loop environ rest (dict_set item value buildargs_dict)
        | None =>
            print ("Could not set build arg `" +:+ item +:+ "` from environment.");;
            sys_exit 1
        end
  end.

Definition extract_build_args (environ : gmap string string) (build_arg : list string)
  : run (list (string * string)) :=
  extract_build_args_loop environ build_arg [].

(** The loop of [extract_define_args] over [args.define]. *)
Fixpoint extract_define_args_loop (define : list string)
  (defineargs_dict : list (string * string)) : run (list (string * string)) :=
  match define with
  | [] => mret defineargs_dict
  | item :: rest =>
      if str_in "=" item then
        kv ← lift (unpack2 (split1 equals item));
        extract_define_args_loop rest (dict_set kv.1 kv.2 defineargs_dict)
      else
        print ("Invalid value for argument `" +:+ item +:+ "`, expected `--define "
               +:+ item +:+ "=<value>`");;
        sys_exit 1
  end.

Definition extract_define_args (define : list string) : run (list (string * string)) :=
  extract_define_args_loop define [].

(** ** The SUSE credential stager: dispatch *)

Inductive suse_stage :=
| NotSuse
| CopyCredentials.

Definition suse_credentials_message : string :=
  "Cannot find your SUSE Customer Center credentials file at "
  +:+ "/etc/zypp/credentials.d/SCCcredentials. Please register and subscribe your SUSE "
  +:+ "system to the SUSE Customer Center.".

(** The function up to the copy of the credentials file into the build
    directory; [credentials_exist] is what [os.path.exists] answers for the
    host's credentials file. *)
Definition handle_suse_repo_configs (credentials_exist : bool) (distro : string)
  : run suse_stage :=
  if negb (startswith "registry.suse.com/suse/sle" distro) then mret NotSuse
  else if negb credentials_exist then
    print suse_credentials_message;;
    sys_exit 1
  else mret CopyCredentials.

(** *** Vocabulary for the escaped values *)

(** The text is made of pairs "backslash, then backslash or double quote" and
    of characters other than these two: no double quote stands by itself and
    no backslash is left alone. *)
Fixpoint well_escaped (s : string) : bool :=
  match s with
  | EmptyString => true
  | String c s' =>
      if Ascii.eqb c backslash then
        match s' with
        | String d s'' =>
            (Ascii.eqb d backslash || Ascii.eqb d dquote) && well_escaped s''
        | EmptyString => false
        end
      else if Ascii.eqb c dquote then false
      else well_escaped s'
  end.

(** Reading an escaped text back: the character behind a backslash is taken
    as it is. *)
Fixpoint unescaped (s : string) : string :=
  match s with
  | EmptyString => ""
  | String c s' =>
      if Ascii.eqb c backslash then
        match s' with
        | String d s'' => String d (unescaped s'')
        | EmptyString => ""
        end
      else String c (unescaped s')
  end.

(** The number of occurrences of a character. *)
Fixpoint count_char (c : ascii) (s : string) : nat :=
  match s with
  | EmptyString => 0
  | String x s' => (if Ascii.eqb x c then 1 else 0) + count_char c s'
  end.

(** The two values are mappings, or lists, on one side only. *)
Definition kinds_differ (v1 v2 : manifest_value) : Prop :=
  match v1, v2 with
  | MDict _, MDict _ | MList _, MList _ => False
  | MDict _, _ | _, MDict _ | MList _, _ | _, MList _ => True
  | _, _ => False
  end.

(** *** Vocabulary for the command-line values *)

(** Zeros only. *)
Fixpoint all_zeros (s : string) : bool :=
  match s with
  | EmptyString => true
  | String c s' => Ascii.eqb c "0"%char && all_zeros s'
  end.

Definition is_lower (c : ascii) : bool :=
  (97 <=? nat_of_ascii c)%nat && (nat_of_ascii c <=? 122)%nat.

Definition upper_char (c : ascii) : ascii :=
  if is_lower c then ascii_of_nat (nat_of_ascii c - 32) else c.

(** [s.upper()] on ASCII text. *)
Fixpoint str_upper (s : string) : string :=
  match s with
  | EmptyString => ""
  | String c s' => String (upper_char c) (str_upper s')
  end.

(** The key that an argument [key=value], or a bare [key], names. *)
Definition arg_key (item : string) : string :=
  match split1 equals item with
  | key :: _ => key
  | [] => item
  end.

(** * Properties *)

(** ** Strings *)

Lemma append_empty_r (s : string) : s +:+ "" = s.
Proof. induction s as [|c s IH]; simpl; [reflexivity | now rewrite IH]. Qed.

Lemma append_assoc (a b c : string) : (a +:+ b) +:+ c = a +:+ (b +:+ c).
Proof. induction a as [|x a IH]; simpl; [reflexivity | now rewrite IH]. Qed.

Lemma length_append (a b : string) :
  String.length (a +:+ b) = (String.length a + String.length b)%nat.
Proof. induction a as [|x a IH]; simpl; [reflexivity | now rewrite IH]. Qed.

Lemma startswith_slash_spec (s : string) :
  startswith "/" s = true <-> is_absolute s.
Proof.
  unfold is_absolute. destruct s as [|c s]; simpl.
  - split; [discriminate | intros [r Hr]; discriminate].
  - destruct (Ascii.eqb_spec "/"%char c) as [<-|Hne].
    + split; [eauto | reflexivity].
    + split; [discriminate | intros [r Hr]]. injection Hr as Hc _.
      now contradiction Hne.
Qed.

Lemma str_in_char_spec (c : ascii) (s : string) :
  str_in (str1 c) s = true <-> occurs c s.
Proof.
  unfold occurs. induction s as [|x s IH]; simpl.
  - split; [discriminate | intros (b & a & H)]. destruct b; discriminate.
  - destruct (Ascii.eqb_spec c x) as [<-|Hne]; simpl.
    + split; [intros _; exists "", s; reflexivity | reflexivity].
    + rewrite IH. split.
      * intros (b & a & ->). exists (String x b), a. reflexivity.
      * intros (b & a & H). destruct b as [|y b]; simpl in H.
        -- injection H as Hc _. now contradiction Hne.
        -- injection H as _ Hs. eauto.
Qed.

Lemma str_in_char_false (c : ascii) (s : string) :
  str_in (str1 c) s = false <-> ~ occurs c s.
Proof.
  rewrite <- str_in_char_spec. destruct (str_in (str1 c) s); split; congruence.
Qed.

Lemma last_char_append_slash (s : string) : last_char (s +:+ "/") = Some slash.
Proof.
  induction s as [|c s IH]; simpl; [reflexivity |].
  destruct (s +:+ "/") eqn:E; [destruct s; discriminate | exact IH].
Qed.

Lemma last_char_slash (s : string) :
  last_char s = Some slash -> ends_with_slash s.
Proof.
  unfold ends_with_slash. induction s as [|c s IH]; simpl; [discriminate |].
  destruct s as [|d s].
  - intros [= ->]. exists "". reflexivity.
  - intros H. destruct (IH H) as [b Hb]. exists (String c b). rewrite Hb. reflexivity.
Qed.

Lemma last_char_None (s : string) : last_char s = None -> s = "".
Proof.
  induction s as [|c s IH]; [reflexivity |]. simpl.
  destruct s as [|d s]; [discriminate |]. intros H. specialize (IH H). discriminate.
Qed.

Lemma canonize_working_dir_cases (w : string) :
  (w = "" /\ canonize_working_dir w = "/") \/
  (ends_with_slash w /\ canonize_working_dir w = w) \/
  (w <> "" /\ ~ ends_with_slash w /\ canonize_working_dir w = w +:+ "/").
Proof.
  unfold canonize_working_dir. destruct (String.eqb_spec w "") as [->|Hne]; [now left | right].
  destruct (last_char w) as [c|] eqn:E.
  - destruct (Ascii.eqb_spec c slash) as [->|Hc].
    + left. split; [now apply last_char_slash | reflexivity].
    + right. repeat split; try assumption. intros [b ->].
      rewrite last_char_append_slash in E. congruence.
  - apply last_char_None in E. contradiction.
Qed.

Lemma canonize_working_dir_slash (w : string) :
  ends_with_slash (canonize_working_dir w).
Proof.
  destruct (canonize_working_dir_cases w) as [[_ ->]|[[H ->]|(_ & _ & ->)]].
  - exists "". reflexivity.
  - exact H.
  - exists w. reflexivity.
Qed.

(** ** The binary descriptor *)

(** The descriptor is produced exactly when [entrypoint ++ cmd] is not
    empty. *)
Lemma extract_binary_info_returns (config : image_config) (first : string)
  (rest : list string) :
  or_list (Entrypoint config) ++ or_list (Cmd config) = first :: rest ->
  exists config' info,
    extract_binary_info_from_image_config config = Run [] (Return (config', info)).
Proof.
  intros H. unfold extract_binary_info_from_image_config. rewrite H.
  destruct (1 <? length (or_list (Entrypoint config)))%nat;
    cbv zeta; eexists _, _; reflexivity.
Qed.

(** The [cmd] entry of the descriptor, as the code computes it. *)
Lemma cmd_field (config config' : image_config) (info : binary_info) :
  result (extract_binary_info_from_image_config config) = Return (config', info) ->
  let e := or_list (Entrypoint config) in
  let c := or_list (Cmd config) in
  let last_bin_arg := if (1 <? length e)%nat then length e else 0%nat in
  cmd info = if (last_bin_arg + 1 <? length (e ++ c))%nat
             then ArgList (drop (last_bin_arg + 1) (e ++ c))
             else ArgStr "".
Proof.
  unfold extract_binary_info_from_image_config.
  destruct (or_list (Entrypoint config) ++ or_list (Cmd config)) as [|first rest] eqn:E;
    [discriminate |].
  destruct (1 <? length (or_list (Entrypoint config)))%nat; cbv zeta;
    intros [= _ <-]; reflexivity.
Qed.

(** What the code leaves in [cmd], case by case on the length of the
    original entrypoint: all of the image's [Cmd] when the entrypoint has one
    element, and [Cmd] without its first element otherwise. *)
Lemma cmd_items_cases (config config' : image_config) (info : binary_info) :
  result (extract_binary_info_from_image_config config) = Return (config', info) ->
  args_items (cmd info) =
    if (length (or_list (Entrypoint config)) =? 1)%nat
    then or_list (Cmd config)
    else drop 1 (or_list (Cmd config)).
Proof.
  intros H. rewrite (cmd_field _ _ _ H). clear H.
  generalize (or_list (Entrypoint config)) (or_list (Cmd config)).
  intros e c. destruct e as [|x [|y e]].
  - destruct c as [|a [|b c]]; reflexivity.
  - destruct c as [|a c]; reflexivity.
  - change (1 <? length (x :: y :: e))%nat with true. cbv iota.
    change (length (x :: y :: e) =? 1)%nat with false. cbv iota.
    rewrite length_app.
    destruct (length (x :: y :: e) + 1 <? length (x :: y :: e) + length c)%nat eqn:E.
    + rewrite <- drop_drop, drop_app_length. reflexivity.
    + apply Nat.ltb_ge in E. destruct c as [|a [|b c]]; simpl in *; try reflexivity. lia.
Qed.

(** C1, at the input [Entrypoint = ["/bin/app", "--flag"]],
    [Cmd = ["x", "y"]]: the code takes ["--flag"] as the fixed arguments and
    leaves only ["y"] in [cmd]; the first argument contributed by [Cmd],
    ["x"], is in neither. *)
Theorem cmd_remainder_skips_first_cmd_argument :
  let config :=
    ImageConfig (Some ["/bin/app"; "--flag"]) (Some ["x"; "y"]) None None None in
  exists config' info,
    extract_binary_info_from_image_config config = Run [] (Return (config', info)) /\
    binary info = "/bin/app" /\
    binary_arguments info = ArgList ["--flag"] /\
    cmd info = ArgList ["y"] /\
    args_items (cmd info) <> or_list (Cmd config).
Proof.
  eexists _, _. split; [reflexivity |]. repeat split. discriminate.
Qed.

(** The two particular cases named with C1 hold on the code. *)
Lemma cmd_items_entrypoint_only (config config' : image_config) (info : binary_info) :
  result (extract_binary_info_from_image_config config) = Return (config', info) ->
  or_list (Cmd config) = [] ->
  args_items (cmd info) = [].
Proof.
  intros H Hc. rewrite (cmd_items_cases _ _ _ H), Hc. now destruct (_ =? _)%nat.
Qed.

Lemma cmd_items_cmd_only (config config' : image_config) (info : binary_info) :
  result (extract_binary_info_from_image_config config) = Return (config', info) ->
  or_list (Entrypoint config) = [] ->
  args_items (cmd info) = drop 1 (or_list (Cmd config)).
Proof.
  intros H He. rewrite (cmd_items_cases _ _ _ H), He. reflexivity.
Qed.

(** C2, as amended: the binary is the first element of [entrypoint ++ cmd],
    kept as it is when it is absolute or has no separator, and otherwise
    prefixed, by plain concatenation, with the canonical working directory,
    which is [/] for an empty working directory and always ends with the
    separator.  With an empty working directory, [./app] becomes [/./app] and
    [app] stays [app]. *)
Theorem binary_path_resolution (config config' : image_config) (info : binary_info) :
  result (extract_binary_info_from_image_config config) = Return (config', info) ->
  exists first rest,
    or_list (Entrypoint config) ++ or_list (Cmd config) = first :: rest /\
    working_dir info = canonize_working_dir (or_str (WorkingDir config)) /\
    ends_with_slash (working_dir info) /\
    (or_str (WorkingDir config) = "" -> working_dir info = "/") /\
    (is_absolute first \/ ~ occurs slash first -> binary info = first) /\
    (~ is_absolute first -> occurs slash first ->
     binary info = working_dir info +:+ first) /\
    (or_str (WorkingDir config) = "" -> first = "./app" -> binary info = "/./app") /\
    (first = "app" -> binary info = "app").
Proof.
  unfold extract_binary_info_from_image_config.
  destruct (or_list (Entrypoint config) ++ or_list (Cmd config)) as [|first rest] eqn:E;
    [discriminate |].
  destruct (1 <? length (or_list (Entrypoint config)))%nat; cbv zeta;
    intros [= _ <-]; simpl; exists first, rest.
  all: assert (Hbin : forall P : Prop,
         (is_absolute first \/ ~ occurs slash first ->
          (if negb (startswith "/" first) && str_in "/" first
           then canonize_working_dir (or_str (WorkingDir config)) +:+ first
           else first) = first) /\
         (~ is_absolute first -> occurs slash first ->
          (if negb (startswith "/" first) && str_in "/" first
           then canonize_working_dir (or_str (WorkingDir config)) +:+ first
           else first) = canonize_working_dir (or_str (WorkingDir config)) +:+ first)).
  1,3: intros _; split.
  1,3: intros [Ha|Hs];
       [ apply startswith_slash_spec in Ha; now rewrite Ha
       | apply (str_in_char_false slash) in Hs; change (str1 slash) with "/" in Hs;
         rewrite Hs; now rewrite andb_false_r ].
  1,2: intros Ha Hs; apply (str_in_char_spec slash) in Hs;
       change (str1 slash) with "/" in Hs; rewrite Hs;
       destruct (startswith "/" first) eqn:Es;
       [ apply startswith_slash_spec in Es; contradiction | reflexivity ].
  all: destruct (Hbin True) as [H1 H2].
  all: repeat split; try assumption; try reflexivity.
  all: try apply canonize_working_dir_slash.
  all: try (intros ->; reflexivity).
  all: intros -> ->; reflexivity.
Qed.

(** A configuration on which C2's general part applies: a relative binary
    with a separator, under a working directory without trailing slash. *)
Lemma binary_path_resolution_witness :
  exists first rest,
    [ "bin/run" ] ++ [ "--fast" ] = first :: rest /\
    "/srv/" = canonize_working_dir "/srv" /\
    ends_with_slash "/srv/" /\
    (or_str (Some "/srv") = "" -> "/srv/" = "/") /\
    (is_absolute first \/ ~ occurs slash first -> "/srv/bin/run" = first) /\
    (~ is_absolute first -> occurs slash first -> "/srv/bin/run" = "/srv/" +:+ first) /\
    (or_str (Some "/srv") = "" -> first = "./app" -> "/srv/bin/run" = "/./app") /\
    (first = "app" -> "/srv/bin/run" = "app").
Proof.
  exact (binary_path_resolution
           (ImageConfig (Some ["bin/run"]) (Some ["--fast"]) (Some "/srv") None None)
           (ImageConfig (Some ["bin/run"; "--fast"]) (Some ["--fast"]) (Some "/srv") None None)
           (BinaryInfo "/srv/bin/run" (ArgStr "") "run" (ArgList ["--fast"]) "/srv/")
           eq_refl).
Defined.

(** C2 as stated fails: with an empty working directory the binary [./app]
    becomes [/./app], not [/app]. *)
Lemma binary_dot_slash_not_normalised :
  let config := ImageConfig (Some ["./app"]) None (Some "") None None in
  exists config' info,
    extract_binary_info_from_image_config config = Run [] (Return (config', info)) /\
    binary info = "/./app" /\
    binary info <> "/app".
Proof.
  eexists _, _. split; [reflexivity |]. split; [reflexivity | discriminate].
Qed.

(** C4: when the entrypoint and the command are both empty, the call prints
    its message and exits with status 1; no descriptor is produced. *)
Theorem no_entrypoint_exits (config : image_config) :
  empty_attr (Entrypoint config) ->
  empty_attr (Cmd config) ->
  extract_binary_info_from_image_config config =
    Run ["Could not find the entrypoint binary to the application image."] (SysExit 1) /\
  (1 <> 0)%Z /\
  forall r, result (extract_binary_info_from_image_config config) <> Return r.
Proof.
  intros He Hc.
  assert (E : extract_binary_info_from_image_config config =
              Run [no_entrypoint_message] (SysExit 1)).
  { unfold extract_binary_info_from_image_config.
    destruct He as [-> | ->], Hc as [-> | ->]; reflexivity. }
  rewrite E. split; [reflexivity |]. split; [lia | intros r; discriminate].
Qed.

Lemma no_entrypoint_exits_witness :
  extract_binary_info_from_image_config (ImageConfig (Some []) None (Some "/srv") None None) =
    Run ["Could not find the entrypoint binary to the application image."] (SysExit 1) /\
  (1 <> 0)%Z /\
  forall r, result (extract_binary_info_from_image_config
                      (ImageConfig (Some []) None (Some "/srv") None None)) <> Return r.
Proof.
  apply (no_entrypoint_exits (ImageConfig (Some []) None (Some "/srv") None None)).
  - right. reflexivity.
  - left. reflexivity.
Defined.

(** ** The image inspector *)

(** C3, as amended: the image found is returned; when the service reports
    that the image is missing, or any other service error, the call returns
    [None] normally; neither of these two errors reaches the caller, and any
    other exception passes through. *)
Theorem get_docker_image_returns_none {Image : Type} (sock : docker_socket Image)
  (image_name : string) :
  (forall img, images_get sock image_name = Return img ->
               get_docker_image sock image_name = Return (Some img)) /\
  (images_get sock image_name = Raise ImageNotFound \/
   images_get sock image_name = Raise APIError ->
   get_docker_image sock image_name = Return None) /\
  get_docker_image sock image_name <> Raise ImageNotFound /\
  get_docker_image sock image_name <> Raise APIError /\
  (forall e, e <> ImageNotFound -> e <> APIError ->
             images_get sock image_name = Raise e ->
             get_docker_image sock image_name = Raise e).
Proof.
  unfold get_docker_image. repeat split.
  - intros img ->. reflexivity.
  - intros [-> | ->]; reflexivity.
  - destruct (images_get sock image_name) as [img|[]|c]; discriminate.
  - destruct (images_get sock image_name) as [img|[]|c]; discriminate.
  - intros e H1 H2 ->. destruct e; try reflexivity; contradiction.
Qed.

(** C3 as stated fails: for an absent image the call ends with a normal
    return, of [None], and with no error signal. *)
Lemma absent_image_is_a_normal_return :
  images_get empty_registry "alpine:3" = Raise ImageNotFound /\
  get_docker_image empty_registry "alpine:3" = Return None /\
  forall e, get_docker_image empty_registry "alpine:3" <> Raise e.
Proof. repeat split. intros e. discriminate. Qed.

(** ** The environment block *)

Lemma bind_return {A B} (a : A) (k : A -> run B) : (lift (Return a) ≫= k) = k a.
Proof. unfold mbind, run_bind, bind, lift. simpl. now destruct (k a). Qed.

Lemma bind_raise {A B} (e : exn) (k : A -> run B) :
  (lift (Raise e) ≫= k) = Run [] (Raise e).
Proof. reflexivity. Qed.

Lemma bind_print {B} (line : string) (k : unit -> run B) :
  (print line ≫= k) = Run (line :: stdout (k tt)) (result (k tt)).
Proof. reflexivity. Qed.

Lemma translate_escaped (s : string) : translate escape_table s = escaped s.
Proof.
  induction s as [|c s IH]; [reflexivity |]. simpl. rewrite IH. unfold escape_table.
  destruct (Ascii.eqb c backslash); [reflexivity |].
  destruct (Ascii.eqb c dquote); reflexivity.
Qed.

Lemma escaped_app (a b : string) : escaped (a +:+ b) = escaped a +:+ escaped b.
Proof.
  induction a as [|c a IH]; [reflexivity |]. simpl.
  destruct (Ascii.eqb c backslash); [simpl; now rewrite IH |].
  destruct (Ascii.eqb c dquote); simpl; now rewrite IH.
Qed.

(** Escaping neither adds nor removes a character other than the backslash
    and the double quote. *)
Lemma str_in_escaped (c : ascii) (s : string) :
  c <> backslash -> c <> dquote ->
  str_in (str1 c) (escaped s) = str_in (str1 c) s.
Proof.
  intros Hb Hq. induction s as [|x s IH]; [reflexivity |].
  assert (Hcb : Ascii.eqb c backslash = false) by now apply Ascii.eqb_neq.
  assert (Hcq : Ascii.eqb c dquote = false) by now apply Ascii.eqb_neq.
  simpl. destruct (Ascii.eqb_spec x backslash) as [->|Hxb].
  - simpl. rewrite Hcb. simpl. now rewrite IH.
  - destruct (Ascii.eqb_spec x dquote) as [->|Hxq].
    + simpl. rewrite Hcb, Hcq. simpl. now rewrite IH.
    + simpl. now rewrite IH.
Qed.

(** A text without backslash and double quote is its own escaped form. *)
Lemma escaped_plain (s : string) :
  ~ occurs backslash s -> ~ occurs dquote s -> escaped s = s.
Proof.
  induction s as [|c s IH]; [reflexivity |]. intros Hb Hq. simpl.
  destruct (Ascii.eqb_spec c backslash) as [->|Hcb].
  { exfalso. apply Hb. exists "", s. reflexivity. }
  destruct (Ascii.eqb_spec c dquote) as [->|Hcq].
  { exfalso. apply Hq. exists "", s. reflexivity. }
  rewrite IH; [reflexivity | |].
  - intros (b & a & ->). apply Hb. exists (String c b), a. reflexivity.
  - intros (b & a & ->). apply Hq. exists (String c b), a. reflexivity.
Qed.

Lemma split1_found (c : ascii) (name value : string) :
  ~ occurs c name -> split1 c (name +:+ String c value) = [name; value].
Proof.
  induction name as [|x name IH]; intros H; simpl.
  - now rewrite Ascii.eqb_refl.
  - destruct (Ascii.eqb_spec x c) as [->|Hne].
    + exfalso. apply H. exists "", name. reflexivity.
    + rewrite IH; [reflexivity |]. intros (b & a & ->). apply H.
      exists (String x b), a. reflexivity.
Qed.

Lemma split1_not_found (c : ascii) (s : string) :
  ~ occurs c s -> split1 c s = [s].
Proof.
  induction s as [|x s IH]; intros H; simpl; [reflexivity |].
  destruct (Ascii.eqb_spec x c) as [->|Hne].
  - exfalso. apply H. exists "", s. reflexivity.
  - rewrite IH; [reflexivity |]. intros (b & a & ->). apply H.
    exists (String x b), a. reflexivity.
Qed.

(** Every text in which [c] occurs splits at the first occurrence. *)
Lemma occurs_first (c : ascii) (s : string) :
  occurs c s -> exists name value, s = name +:+ String c value /\ ~ occurs c name.
Proof.
  induction s as [|x s IH]; intros (b & a & H).
  - destruct b; discriminate.
  - destruct (Ascii.eqb_spec x c) as [->|Hne].
    + exists "", s. split; [reflexivity |]. intros (b' & a' & H'). destruct b'; discriminate.
    + destruct b as [|y b]; simpl in H; injection H as Hx Hs; [congruence |].
      destruct IH as (name & value & -> & Hn); [now exists b, a |].
      exists (String x name), value. split; [reflexivity |].
      intros (b' & a' & H'). destruct b' as [|z b']; simpl in H'; injection H' as Hz Hs'.
      * congruence.
      * apply Hn. now exists b', a'.
Qed.

Lemma occurs_escaped (c : ascii) (s : string) :
  c <> backslash -> c <> dquote -> (occurs c (escaped s) <-> occurs c s).
Proof.
  intros Hb Hq. rewrite <- !str_in_char_spec. now rewrite str_in_escaped.
Qed.

(** One turn of the loop on an entry [name=value]. *)
Lemma extract_environment_loop_entry (name value : string) (rest : list string)
  (acc : string) :
  ~ occurs equals name ->
  extract_environment_loop (env_entry (name, value) :: rest) acc =
    if has_newline (env_entry (name, value))
    then Run (skip_message name :: stdout (extract_environment_loop rest acc))
             (result (extract_environment_loop rest acc))
    else extract_environment_loop rest
           (acc +:+ env_line (escaped name) (escaped value)).
Proof.
  intros Hn. unfold env_entry, has_newline. simpl fst. simpl snd.
  cbn [extract_environment_loop].
  destruct (str_in (str1 newline) (name +:+ String equals value)).
  - rewrite split1_found by assumption.
    change (index [name; value] 0) with (Return name).
    rewrite bind_return. apply bind_print.
  - rewrite translate_escaped, escaped_app.
    replace (escaped (String equals value)) with (String equals (escaped value))
      by reflexivity.
    rewrite split1_found by (now rewrite occurs_escaped).
    change (index [escaped name; escaped value] 0) with (Return (escaped name)).
    change (index [escaped name; escaped value] 1) with (Return (escaped value)).
    now rewrite !bind_return.
Qed.

Lemma extract_environment_loop_entries (entries : list (string * string)) (acc : string) :
  Forall (fun nv => ~ occurs equals (fst nv)) entries ->
  extract_environment_loop (env_entry <$> entries) acc =
    Run ((fun nv => skip_message (fst nv)) <$>
           List.filter (fun nv => has_newline (env_entry nv)) entries)
        (Return (acc +:+ concat_str
           ((fun nv => env_line (escaped (fst nv)) (escaped (snd nv))) <$>
              List.filter (fun nv => negb (has_newline (env_entry nv))) entries))).
Proof.
  intros H. revert acc. induction H as [|[name value] entries Hn _ IH]; intros acc.
  - simpl. now rewrite append_empty_r.
  - rewrite fmap_cons, extract_environment_loop_entry by exact Hn.
    simpl List.filter. destruct (has_newline (env_entry (name, value))); simpl negb; cbv iota.
    + rewrite IH. reflexivity.
    + rewrite IH. simpl. now rewrite append_assoc.
Qed.

(** C7: for an environment of [name=value] entries, the block holds one line
    per entry without line break, in the order of the entries, each line
    carrying the escaped name and the escaped value; every entry with a line
    break (in particular one whose value has a line break) is left out with a
    warning, and the entries after it are still treated. *)
Theorem environment_block (config : image_config) (entries : list (string * string)) :
  or_list (Env config) = env_entry <$> entries ->
  Forall (fun nv => ~ occurs equals (fst nv)) entries ->
  extract_environment_from_image_config config =
    Run ((fun nv => skip_message (fst nv)) <$>
           List.filter (fun nv => has_newline (env_entry nv)) entries)
        (Return (concat_str
           ((fun nv => "loader.env." +:+ escaped (fst nv) +:+ " = " +:+ str1 dquote
                       +:+ escaped (snd nv) +:+ str1 dquote +:+ str1 newline) <$>
              List.filter (fun nv => negb (has_newline (env_entry nv))) entries))) /\
  (forall nv, occurs newline (snd nv) -> has_newline (env_entry nv) = true) /\
  (forall s, ~ occurs backslash s -> ~ occurs dquote s -> escaped s = s) /\
  (forall a b, escaped (a +:+ b) = escaped a +:+ escaped b) /\
  escaped (str1 backslash) = String backslash (str1 backslash) /\
  escaped (str1 dquote) = String backslash (str1 dquote).
Proof.
  intros He Hn. split; [| split; [| split; [| split; [| split]]]].
  - unfold extract_environment_from_image_config. rewrite He.
    now rewrite extract_environment_loop_entries.
  - intros [name value] (b & a & H). simpl in H. subst value.
    unfold has_newline, env_entry. simpl fst. simpl snd.
    apply str_in_char_spec. exists (name +:+ String equals b), a.
    now rewrite append_assoc.
  - apply escaped_plain.
  - apply escaped_app.
  - reflexivity.
  - reflexivity.
Qed.

Lemma environment_block_witness :
  extract_environment_from_image_config
    (ImageConfig None None None
       (Some ["A=b\c"; "B=x" +:+ str1 newline +:+ "y"; "C=D=E" +:+ str1 dquote]) None) =
  Run ["Skipping environment variable `B`: its value contains newlines."]
      (Return ("loader.env.A = " +:+ str1 dquote +:+ "b\\c" +:+ str1 dquote +:+ str1 newline
               +:+ "loader.env.C = " +:+ str1 dquote +:+ "D=E\" +:+ str1 dquote
               +:+ str1 dquote +:+ str1 newline)).
Proof.
  refine (proj1 (environment_block
            (ImageConfig None None None
               (Some ["A=b\c"; "B=x" +:+ str1 newline +:+ "y"; "C=D=E" +:+ str1 dquote]) None)
            [("A", "b\c"); ("B", "x" +:+ str1 newline +:+ "y"); ("C", "D=E" +:+ str1 dquote)]
            eq_refl _)).
  repeat constructor; apply str_in_char_false; reflexivity.
Defined.

Lemma split1_nonempty (c : ascii) (s : string) : exists h t, split1 c s = h :: t.
Proof.
  induction s as [|x s IH]; simpl; [eauto |].
  destruct (Ascii.eqb x c); [eauto |]. destruct (split1 c s); eauto.
Qed.

(** How the loop ends: with [IndexError] when some entry has neither a line
    break nor a [=], with a block of lines otherwise. *)
Lemma extract_environment_loop_outcome (env_list : list string) (acc : string) :
  exists out text,
    extract_environment_loop env_list acc =
      Run out (if existsb malformed env_list then Raise IndexError else Return text).
Proof.
  revert acc. induction env_list as [|e rest IH]; intros acc.
  - exists [], acc. reflexivity.
  - cbn [extract_environment_loop existsb]. unfold malformed at 1, has_newline.
    destruct (str_in (str1 newline) e) eqn:En.
    + destruct (split1_nonempty equals e) as (h & t & ->).
      change (index (h :: t) 0) with (Return h). rewrite bind_return, bind_print.
      destruct (IH acc) as (out & text & ->). simpl. eauto.
    + simpl negb. rewrite andb_true_l, translate_escaped.
      destruct (str_in (str1 equals) e) eqn:Ee.
      * apply str_in_char_spec, occurs_first in Ee. destruct Ee as (name & value & -> & Hn).
        rewrite escaped_app.
        replace (escaped (String equals value)) with (String equals (escaped value))
          by reflexivity.
        rewrite split1_found by (now rewrite occurs_escaped).
        change (index [escaped name; escaped value] 0) with (Return (escaped name)).
        change (index [escaped name; escaped value] 1) with (Return (escaped value)).
        rewrite !bind_return. simpl. apply IH.
      * rewrite split1_not_found.
        2:{ rewrite occurs_escaped by discriminate. now apply str_in_char_false. }
        exists [], "". reflexivity.
Qed.

(** C10: when every entry of [Env] contains [=], the call returns the block;
    when some entry has no [=] (and no line break), reading the value part
    raises [IndexError]. *)
Theorem environment_requires_equals (config : image_config) :
  (Forall (occurs equals) (or_list (Env config)) ->
   exists out text,
     extract_environment_from_image_config config = Run out (Return text)) /\
  (forall env_var,
     env_var ∈ or_list (Env config) ->
     ~ occurs equals env_var -> ~ occurs newline env_var ->
     result (extract_environment_from_image_config config) = Raise IndexError).
Proof.
  unfold extract_environment_from_image_config.
  destruct (extract_environment_loop_outcome (or_list (Env config)) "")
    as (out & text & ->).
  split.
  - intros H. exists out, text.
    replace (existsb malformed (or_list (Env config))) with false; [reflexivity |].
    symmetry. apply not_true_is_false. intros Hex.
    apply existsb_exists in Hex. destruct Hex as (e & Hin & Hm).
    rewrite Forall_forall in H. apply list_elem_of_In, H, str_in_char_spec in Hin.
    unfold malformed in Hm. rewrite Hin, andb_false_r in Hm. discriminate.
  - intros e Hin He Hn. simpl.
    replace (existsb malformed (or_list (Env config))) with true; [reflexivity |].
    symmetry. apply existsb_exists. exists e. split; [now apply list_elem_of_In |].
    unfold malformed, has_newline. apply str_in_char_false in He, Hn.
    now rewrite He, Hn.
Qed.

Lemma environment_requires_equals_witness :
  (exists out text,
     extract_environment_from_image_config
       (ImageConfig None None None (Some ["HOME=/root"; "LANG=C"]) None) =
     Run out (Return text)) /\
  result (extract_environment_from_image_config
            (ImageConfig None None None (Some ["HOME=/root"; "DEBUG"]) None)) =
  Raise IndexError.
Proof.
  split.
  - apply (proj1 (environment_requires_equals
                    (ImageConfig None None None (Some ["HOME=/root"; "LANG=C"]) None))).
    repeat constructor; apply str_in_char_spec; reflexivity.
  - apply (proj2 (environment_requires_equals
                    (ImageConfig None None None (Some ["HOME=/root"; "DEBUG"]) None))
             "DEBUG").
    + apply list_elem_of_In. simpl. auto.
    + apply str_in_char_false. reflexivity.
    + apply str_in_char_false. reflexivity.
Defined.

(** ** The Red Hat distro identifier *)

Lemma startswith_app (p s : string) : startswith p (p +:+ s) = true.
Proof. induction p as [|c p IH]; [reflexivity |]. simpl. now rewrite Ascii.eqb_refl. Qed.

Lemma strip_prefix_app (p s : string) : Re.strip_prefix p (p +:+ s) = Some s.
Proof. induction p as [|c p IH]; [reflexivity |]. simpl. now rewrite Ascii.eqb_refl. Qed.

Lemma substring_app_prefix (a b : string) : substring 0 (String.length a) (a +:+ b) = a.
Proof.
  induction a as [|c a IH]; simpl.
  - destruct b; reflexivity.
  - now rewrite IH.
Qed.

Lemma plus_iter_digit (k : Re.cont) (n pos : nat) (c : ascii) (s : string)
  (g : Re.groups) :
  Re.is_digit c = true ->
  Re.plus_iter (Re.rmatch Re.Digit) k (S n) pos (String c s) g =
    match Re.plus_iter (Re.rmatch Re.Digit) k n (S pos) s g with
    | Some res => Some res
    | None => k (S pos) s g
    end.
Proof.
  intros Hc. cbn [Re.plus_iter Re.rmatch]. rewrite Hc.
  replace (S pos =? pos)%nat with false by (symmetry; apply Nat.eqb_neq; lia).
  reflexivity.
Qed.

Lemma plus_iter_no_digit (k : Re.cont) (n pos : nat) (s : string) (g : Re.groups) :
  no_leading_digit s -> Re.plus_iter (Re.rmatch Re.Digit) k n pos s g = None.
Proof.
  intros Hs. destruct n; [reflexivity |]. cbn [Re.plus_iter Re.rmatch].
  destruct s as [|c s]; [reflexivity |]. simpl in Hs. now rewrite Hs.
Qed.

(** Greedy [\d+] in front of a text that does not begin with a digit takes
    all the digits, provided that the rest of the pattern then matches. *)
Lemma plus_digits (ds tail : string) (k : Re.cont) (n pos : nat) (g res : Re.groups) :
  ds <> "" -> all_digits ds = true -> no_leading_digit tail ->
  (String.length ds <= n)%nat ->
  k (pos + String.length ds)%nat tail g = Some res ->
  Re.plus_iter (Re.rmatch Re.Digit) k n pos (ds +:+ tail) g = Some res.
Proof.
  revert n pos. induction ds as [|c ds IH]; intros n pos Hne Hd Ht Hn Hk; [congruence |].
  simpl in Hd, Hn. apply andb_true_iff in Hd. destruct Hd as [Hc Hd].
  destruct n as [|n]; [lia |].
  change (String c ds +:+ tail) with (String c (ds +:+ tail)).
  rewrite plus_iter_digit by assumption.
  destruct ds as [|d ds].
  - change ("" +:+ tail) with tail. rewrite plus_iter_no_digit by assumption.
    simpl in Hk. now replace (pos + 1)%nat with (S pos) in Hk by lia.
  - rewrite (IH n (S pos)); try assumption; [reflexivity | discriminate | lia |].
    rewrite <- Hk. f_equal. simpl. lia.
Qed.

(** The pattern on [redhat/ubi], digits, and a [tail] that is empty or
    [-minimal]. *)
Lemma rmatch_redhat (ds tail : string) (g : Re.groups) :
  ds <> "" -> all_digits ds = true -> no_leading_digit tail ->
  Re.rmatch (Re.Cat (Re.Opt (Re.Group 2 (Re.Lit "-minimal"))) Re.Eol)
    (10 + String.length ds) tail [(1%nat, ds)] (fun _ _ g => Some g) = Some g ->
  Re.rmatch redhat_pattern 0 ("redhat/ubi" +:+ ds +:+ tail) [] (fun _ _ g => Some g) = Some g.
Proof.
  intros Hne Hd Ht Hk. unfold redhat_pattern.
  cbn [Re.rmatch]. rewrite strip_prefix_app. cbn [Nat.eqb].
  apply plus_digits; try assumption; [rewrite length_append; lia |].
  cbn [Re.rmatch] in Hk. cbv beta.
  change (0 + String.length "redhat/ubi")%nat with 10%nat.
  replace (10 + String.length ds - 10)%nat with (String.length ds) by lia.
  rewrite substring_app_prefix. exact Hk.
Qed.

Lemma search_redhat_plain (ds : string) :
  ds <> "" -> all_digits ds = true ->
  Re.search redhat_pattern ("redhat/ubi" +:+ ds) = Some [(1%nat, ds)].
Proof.
  intros Hne Hd. unfold Re.search.
  pose proof (rmatch_redhat ds "" [(1%nat, ds)] Hne Hd I eq_refl) as E.
  rewrite append_empty_r in E.
  simpl String.append in *. cbn [Re.search_from]. now rewrite E.
Qed.

Lemma search_redhat_minimal (ds : string) :
  ds <> "" -> all_digits ds = true ->
  Re.search redhat_pattern ("redhat/ubi" +:+ ds +:+ "-minimal") =
    Some [(2%nat, "-minimal"); (1%nat, ds)].
Proof.
  intros Hne Hd. unfold Re.search.
  pose proof (rmatch_redhat ds "-minimal" [(2%nat, "-minimal"); (1%nat, ds)]
                Hne Hd eq_refl) as E.
  simpl String.append in *. cbn [Re.search_from]. rewrite E; [reflexivity |].
  cbn. now rewrite Nat.add_comm, Nat.add_sub.
Qed.

Lemma handle_redhat_ubi (ds tail : string) (g : Re.groups) :
  Re.search redhat_pattern ("redhat/ubi" +:+ ds +:+ tail) = Some g ->
  Re.group 1 g = Some ds ->
  handle_redhat_repo_configs ("redhat/ubi" +:+ ds +:+ tail) =
    Return (StageRepo ds ("rhel-" +:+ ds +:+ "-for-x86_64-baseos-rpms")).
Proof.
  intros Hs Hg. unfold handle_redhat_repo_configs. rewrite Hs, Hg.
  change ("redhat/ubi" +:+ ds +:+ tail) with ("redhat/" +:+ ("ubi" +:+ ds +:+ tail)).
  now rewrite startswith_app.
Qed.

(** C8: an identifier [redhat/ubi<digits>], with or without [-minimal],
    yields the digits as the version; [redhat/ubi9] and [redhat/ubi9-minimal]
    yield 9; [redhat/centos8] is rejected with the invalid-format error; an
    identifier that does not start with [redhat/] is not handled at all. *)
Theorem redhat_version_parsing :
  (forall ds, ds <> "" -> all_digits ds = true ->
     handle_redhat_repo_configs ("redhat/ubi" +:+ ds) =
       Return (StageRepo ds ("rhel-" +:+ ds +:+ "-for-x86_64-baseos-rpms")) /\
     handle_redhat_repo_configs ("redhat/ubi" +:+ ds +:+ "-minimal") =
       Return (StageRepo ds ("rhel-" +:+ ds +:+ "-for-x86_64-baseos-rpms"))) /\
  handle_redhat_repo_configs "redhat/ubi9" =
    Return (StageRepo "9" "rhel-9-for-x86_64-baseos-rpms") /\
  handle_redhat_repo_configs "redhat/ubi9-minimal" =
    Return (StageRepo "9" "rhel-9-for-x86_64-baseos-rpms") /\
  handle_redhat_repo_configs "redhat/centos8" =
    Raise (ValueError "Invalid Red Hat distro format: redhat/centos8") /\
  (forall distro, startswith "redhat/" distro = false ->
     handle_redhat_repo_configs distro = Return NotRedHat).
Proof.
  split; [| repeat split].
  - intros ds Hne Hd. split.
    + rewrite <- (append_empty_r ds) at 1.
      apply (handle_redhat_ubi ds "" [(1%nat, ds)]); [| reflexivity].
      rewrite append_empty_r. now apply search_redhat_plain.
    + apply (handle_redhat_ubi ds "-minimal" [(2%nat, "-minimal"); (1%nat, ds)]);
        [| reflexivity].
      now apply search_redhat_minimal.
  - intros distro H. unfold handle_redhat_repo_configs. now rewrite H.
Qed.

Lemma redhat_version_parsing_witness :
  handle_redhat_repo_configs "redhat/ubi10" =
    Return (StageRepo "10" "rhel-10-for-x86_64-baseos-rpms") /\
  handle_redhat_repo_configs "redhat/ubi10-minimal" =
    Return (StageRepo "10" "rhel-10-for-x86_64-baseos-rpms") /\
  handle_redhat_repo_configs "debian:12" = Return NotRedHat.
Proof.
  destruct redhat_version_parsing as (Hubi & _ & _ & _ & Hother).
  destruct (Hubi "10") as [H1 H2]; [discriminate | reflexivity |].
  split; [exact H1 | split; [exact H2 |]].
  apply Hother. reflexivity.
Defined.

(** ** The merger on values *)

Lemma dict_get_set_eq {V} (key : string) (v : V) (d : list (string * V)) :
  dict_get key (dict_set key v d) = Some v.
Proof.
  induction d as [|[k x] d IH]; simpl.
  - now rewrite String.eqb_refl.
  - destruct (String.eqb k key) eqn:E; simpl; rewrite E; [reflexivity | exact IH].
Qed.

Lemma dict_get_set_ne {V} (key key' : string) (v : V) (d : list (string * V)) :
  key <> key' -> dict_get key' (dict_set key v d) = dict_get key' d.
Proof.
  intros Hne. induction d as [|[k x] d IH]; simpl.
  - destruct (String.eqb_spec key key'); [contradiction | reflexivity].
  - destruct (String.eqb_spec k key) as [->|Hk]; simpl.
    + destruct (String.eqb_spec key key'); [contradiction | reflexivity].
    + destruct (String.eqb k key'); [reflexivity | exact IH].
Qed.

Lemma dict_get_None {V} (key : string) (d : list (string * V)) :
  dict_get key d = None <-> key ∉ d.*1.
Proof.
  induction d as [|[k x] d IH]; simpl.
  - split; [intros _; apply not_elem_of_nil | reflexivity].
  - rewrite not_elem_of_cons. destruct (String.eqb_spec k key) as [->|Hk].
    + split; [discriminate | intros [H _]; contradiction].
    + rewrite IH. split; [intros H; split; [congruence | exact H] | now intros [_ H]].
Qed.

Lemma concatenated_envvar_spec (path : list string) (key : string) :
  concatenated_envvar path key = true <-> search_path_variable path key.
Proof.
  unfold concatenated_envvar, search_path_variable.
  rewrite andb_true_iff, String.eqb_eq, existsb_exists.
  split; intros [Hp Hk]; (split; [exact Hp |]).
  - destruct Hk as (x & Hin & Hx). apply String.eqb_eq in Hx. subst x.
    now apply list_elem_of_In.
  - exists key. split; [now apply list_elem_of_In | apply String.eqb_refl].
Qed.

Section MergeValuesFacts.

Import Values.

Variable container_str : manifest_value -> string.
Variables manifest1_name manifest2_name : string.

Local Abbreviation merge :=
  (merge_manifests_in_order container_str manifest1_name manifest2_name).
Local Abbreviation merge_value' := (merge_value container_str manifest1_name manifest2_name).
Local Abbreviation merge_item' := (merge_item container_str manifest1_name manifest2_name).

(** The loop, one turn at a time. *)
Lemma merge_cons (manifest1 rest : manifest) (key : string) (value2 : manifest_value)
  (path : list string) :
  merge manifest1 ((key, value2) :: rest) path =
    ((merge (merge_item' path manifest1 key value2).1 rest path).1,
     (merge_item' path manifest1 key value2).2 ++
     (merge (merge_item' path manifest1 key value2).1 rest path).2).
Proof.
  simpl.
  destruct (merge_item _ _ _ _ _ _ _) as [m out]. simpl.
  now destruct (merge_manifests_in_order _ _ _ m rest path).
Qed.

(** For two mappings the loop body is the recursive call, on a path longer
    by the key. *)
Lemma merge_value_dict (path : list string) (key : string) (d1 d2 : manifest) :
  merge_value' path key (MDict d1) (MDict d2) =
    (MDict (merge d1 d2 (path ++ [key])).1, (merge d1 d2 (path ++ [key])).2).
Proof.
  simpl.
  match goal with |- (let '(_, _) := ?f d2 d1 in _) = _ =>
    assert (E : forall d2 d1, f d2 d1 =
      merge_manifests_in_order container_str manifest1_name manifest2_name d1 d2
        (path ++ [key])) end.
  { clear. intros d2. induction d2 as [|[k v2] rest IH]; intros d1; [reflexivity |].
    simpl. unfold merge_item. destruct (dict_get k d1) as [v1|].
    - destruct (merge_value _ _ _ _ _ v1 v2). now rewrite IH.
    - now rewrite IH. }
  rewrite E. now destruct (merge_manifests_in_order _ _ _ d1 d2 (path ++ [key])).
Qed.

Lemma merge_item_other (path : list string) (manifest1 : manifest)
  (key key' : string) (value2 : manifest_value) :
  key <> key' ->
  dict_get key' (merge_item' path manifest1 key value2).1 = dict_get key' manifest1.
Proof.
  intros Hne. unfold merge_item.
  destruct (dict_get key manifest1) as [v1|].
  - destruct (merge_value _ _ _ _ _ _ _). simpl. now apply dict_get_set_ne.
  - simpl. now apply dict_get_set_ne.
Qed.

(** A key that the second manifest does not hold keeps its value. *)
Lemma merge_other (manifest1 manifest2 : manifest) (path : list string) (key : string) :
  key ∉ manifest2.*1 ->
  dict_get key (merge manifest1 manifest2 path).1 = dict_get key manifest1.
Proof.
  revert manifest1. induction manifest2 as [|[k v2] rest IH]; intros manifest1 Hk.
  - reflexivity.
  - rewrite fmap_cons, not_elem_of_cons in Hk. destruct Hk as [Hne Hk].
    rewrite merge_cons. simpl. rewrite IH by assumption.
    apply merge_item_other. simpl in Hne. congruence.
Qed.

(** A key held by both manifests ends with the value that the loop body
    gives it, and the warnings of that turn are among those printed. *)
Lemma merge_both (manifest1 manifest2 : manifest) (path : list string) (key : string)
  (value1 value2 : manifest_value) :
  NoDup manifest2.*1 ->
  dict_get key manifest1 = Some value1 ->
  dict_get key manifest2 = Some value2 ->
  dict_get key (merge manifest1 manifest2 path).1 =
    Some (merge_value' path key value1 value2).1 /\
  (merge_value' path key value1 value2).2 ⊆ (merge manifest1 manifest2 path).2.
Proof.
  revert manifest1. induction manifest2 as [|[k v2] rest IH]; intros manifest1 Hnd H1 H2.
  - discriminate.
  - rewrite fmap_cons in Hnd. apply NoDup_cons in Hnd. destruct Hnd as [Hk Hnd].
    rewrite merge_cons. simpl in H2 |- *.
    destruct (String.eqb_spec k key) as [->|Hne].
    + injection H2 as ->. rewrite merge_other by exact Hk.
      unfold merge_item. rewrite H1.
      destruct (merge_value' path key value1 value2) as [v out]. simpl.
      split; [apply dict_get_set_eq | ].
      intros x Hx. apply elem_of_app. now left.
    + destruct (IH (merge_item' path manifest1 k v2).1 Hnd) as [Hg Hw].
      * now rewrite merge_item_other.
      * exact H2.
      * split; [exact Hg |]. intros x Hx. apply elem_of_app. right. now apply Hw.
Qed.

(** C5: where both manifests hold a key with scalar values that differ, the
    merged manifest keeps the value of the first one and the overriding
    warning is printed, unless the path is [loader.env] and the key one of the
    three search-path variables: then the value is the first value, a colon
    and the second value, and the concatenating warning is printed.  Merging
    [PATH = "/x"] with [PATH = "/y"] under [loader.env] gives ["/x:/y"]. *)
Theorem merge_scalar_conflict (manifest1 manifest2 : manifest) (path : list string)
  (key : string) (value1 value2 : manifest_value) :
  NoDup manifest2.*1 ->
  dict_get key manifest1 = Some value1 ->
  dict_get key manifest2 = Some value2 ->
  is_scalar value1 -> is_scalar value2 ->
  py_eq value1 value2 = false ->
  (search_path_variable path key ->
   dict_get key (merge manifest1 manifest2 path).1 =
     Some (MStr (py_str container_str value1 +:+ ":" +:+ py_str container_str value2)) /\
   concatenating_warning manifest1_name manifest2_name path key
     ∈ (merge manifest1 manifest2 path).2) /\
  (~ search_path_variable path key ->
   dict_get key (merge manifest1 manifest2 path).1 = Some value1 /\
   overriding_warning manifest1_name manifest2_name path key
     ∈ (merge manifest1 manifest2 path).2) /\
  merge [("loader", MDict [("env", MDict [("PATH", MStr "/x")])])]
        [("loader", MDict [("env", MDict [("PATH", MStr "/y")])])] [] =
    ([("loader", MDict [("env", MDict [("PATH", MStr "/x:/y")])])],
     [concatenating_warning manifest1_name manifest2_name ["loader"; "env"] "PATH"]).
Proof.
  intros Hnd H1 H2 Hs1 Hs2 Hne.
  destruct (merge_both manifest1 manifest2 path key value1 value2 Hnd H1 H2) as [Hg Hw].
  assert (Hv : merge_value' path key value1 value2 =
               if concatenated_envvar path key
               then (MStr (py_str container_str value1 +:+ ":" +:+ py_str container_str value2),
                     [concatenating_warning manifest1_name manifest2_name path key])
               else (value1, [overriding_warning manifest1_name manifest2_name path key])).
  { destruct value1, value2; try contradiction; simpl in Hne |- *;
      first [reflexivity | rewrite Hne; reflexivity]. }
  rewrite Hv in Hg, Hw. split; [| split].
  - intros Hc. apply concatenated_envvar_spec in Hc. rewrite Hc in Hg, Hw.
    split; [exact Hg | apply Hw, list_elem_of_singleton; reflexivity].
  - intros Hc. destruct (concatenated_envvar path key) eqn:E.
    + apply concatenated_envvar_spec in E. contradiction.
    + split; [exact Hg | apply Hw, list_elem_of_singleton; reflexivity].
  - reflexivity.
Qed.

(** C6: merging with the empty manifest changes nothing and prints nothing;
    a key that holds a list in both manifests ends with the elements of the
    first list followed by those of the second. *)
Theorem merge_empty_and_lists :
  (forall (M : manifest) (path : list string), merge M [] path = (M, [])) /\
  (forall (manifest1 manifest2 : manifest) (path : list string) (key : string)
          (items1 items2 : list manifest_value),
     NoDup manifest2.*1 ->
     dict_get key manifest1 = Some (MList items1) ->
     dict_get key manifest2 = Some (MList items2) ->
     dict_get key (merge manifest1 manifest2 path).1 = Some (MList (items1 ++ items2))) /\
  merge [("a", MList [MInt 1; MInt 2])] [("a", MList [MInt 3])] [] =
    ([("a", MList [MInt 1; MInt 2; MInt 3])], []).
Proof.
  split; [| split].
  - reflexivity.
  - intros manifest1 manifest2 path key items1 items2 Hnd H1 H2.
    now destruct (merge_both manifest1 manifest2 path key _ _ Hnd H1 H2) as [-> _].
  - reflexivity.
Qed.

End MergeValuesFacts.

Lemma merge_scalar_conflict_witness :
  dict_get "PATH"
    (Values.merge_manifests_in_order (fun _ => "") "user" "distro"
       [("HOME", MStr "/root"); ("PATH", MStr "/opt/bin")]
       [("PATH", MStr "/usr/bin"); ("LANG", MStr "C")] ["loader"; "env"]).1 =
    Some (MStr "/opt/bin:/usr/bin") /\
  dict_get "HOME"
    (Values.merge_manifests_in_order (fun _ => "") "user" "distro"
       [("HOME", MStr "/root"); ("PATH", MStr "/opt/bin")]
       [("HOME", MStr "/home"); ("LANG", MStr "C")] ["loader"; "env"]).1 =
    Some (MStr "/root").
Proof.
  split.
  - refine (proj1 (proj1 (merge_scalar_conflict (fun _ => "") "user" "distro"
      [("HOME", MStr "/root"); ("PATH", MStr "/opt/bin")]
      [("PATH", MStr "/usr/bin"); ("LANG", MStr "C")] ["loader"; "env"] "PATH"
      (MStr "/opt/bin") (MStr "/usr/bin") _ eq_refl eq_refl I I eq_refl) _)).
    + simpl. apply NoDup_cons. split; [| apply NoDup_singleton].
      rewrite list_elem_of_singleton. discriminate.
    + split; [reflexivity |]. apply list_elem_of_In. simpl. auto.
  - refine (proj1 (proj1 (proj2 (merge_scalar_conflict (fun _ => "") "user" "distro"
      [("HOME", MStr "/root"); ("PATH", MStr "/opt/bin")]
      [("HOME", MStr "/home"); ("LANG", MStr "C")] ["loader"; "env"] "HOME"
      (MStr "/root") (MStr "/home") _ eq_refl eq_refl I I eq_refl)) _)).
    + simpl. apply NoDup_cons. split; [| apply NoDup_singleton].
      rewrite list_elem_of_singleton. discriminate.
    + intros [_ H]. apply list_elem_of_In in H. simpl in H.
      destruct H as [H|[H|[H|[]]]]; discriminate.
Defined.

Lemma merge_empty_and_lists_witness :
  dict_get "trusted"
    (Values.merge_manifests_in_order (fun _ => "") "user" "distro"
       [("trusted", MList [MStr "a"])]
       [("debug", MBool false); ("trusted", MList [MStr "b"; MStr "c"])] []).1 =
    Some (MList [MStr "a"; MStr "b"; MStr "c"]).
Proof.
  refine (proj1 (proj2 (merge_empty_and_lists (fun _ => "") "user" "distro"))
            [("trusted", MList [MStr "a"])]
            [("debug", MBool false); ("trusted", MList [MStr "b"; MStr "c"])] []
            "trusted" [MStr "a"] [MStr "b"; MStr "c"] _ eq_refl eq_refl).
  simpl. apply NoDup_cons. split; [| apply NoDup_singleton].
  rewrite list_elem_of_singleton. discriminate.
Defined.

(** ** The merger on the store *)

Module HeapFacts.

Import Heap.

(** Reading a value depends only on the objects met on the way. *)
Lemma read_reach_agree (n : nat) (st st' : store) (v : val) :
  (forall l, l ∈ reach n st v -> st' !! l = st !! l) ->
  read n st' v = read n st v /\ reach n st' v = reach n st v.
Proof.
  revert v. induction n as [|n IH]; intros v H; destruct v as [s|z|b|l]; try done.
  simpl in H |- *. rewrite (H l) by apply list_elem_of_here.
  destruct (st !! l) as [[items|items]|] eqn:E; [| | done].
  - assert (Hi : forall kv, kv ∈ items ->
              read n st' kv.2 = read n st kv.2 /\ reach n st' kv.2 = reach n st kv.2).
    { intros kv Hkv. apply IH. intros l' Hl'. apply H. apply list_elem_of_further.
      apply list_elem_of_bind. eauto. }
    split.
    + f_equal. apply Forall_mapM_ext, Forall_forall. intros kv Hkv.
      now rewrite (proj1 (Hi kv Hkv)).
    + f_equal. clear -Hi. induction items as [|kv items IHi]; [done |].
      rewrite !bind_cons. rewrite (proj2 (Hi kv (list_elem_of_here _ _))).
      f_equal. apply IHi. intros kv' Hkv'. apply Hi. now apply list_elem_of_further.
  - assert (Hi : forall x, x ∈ items ->
              read n st' x = read n st x /\ reach n st' x = reach n st x).
    { intros x Hx. apply IH. intros l' Hl'. apply H. apply list_elem_of_further.
      apply list_elem_of_bind. eauto. }
    split.
    + f_equal. apply Forall_mapM_ext, Forall_forall. intros x Hx.
      now rewrite (proj1 (Hi x Hx)).
    + f_equal. clear -Hi. induction items as [|x items IHi]; [done |].
      rewrite !bind_cons. rewrite (proj2 (Hi x (list_elem_of_here _ _))).
      f_equal. apply IHi. intros x' Hx'. apply Hi. now apply list_elem_of_further.
Qed.

(** A reference that can be read to depth [n] is among the objects met. *)
Lemma reach_self (n : nat) (st : store) (l : loc) :
  is_Some (read n st (VRef l)) -> l ∈ reach n st (VRef l).
Proof.
  destruct n; simpl; [intros [x Hx]; discriminate | intros _; apply list_elem_of_here].
Qed.

Lemma dict_set_keys {V} (key : string) (v : V) (d : list (string * V)) :
  (dict_set key v d).*1 =
    match dict_get key d with
    | Some _ => d.*1
    | None => d.*1 ++ [key]
    end.
Proof.
  induction d as [|[k x] d IH]; [reflexivity |].
  cbn [dict_set dict_get]. destruct (String.eqb k key); [reflexivity |].
  rewrite !fmap_cons, IH. now destruct (dict_get key d).
Qed.

Lemma dict_set_NoDup {V} (key : string) (v : V) (d : list (string * V)) :
  NoDup d.*1 -> NoDup (dict_set key v d).*1.
Proof.
  intros H. rewrite dict_set_keys. destruct (dict_get key d) eqn:E; [exact H |].
  apply NoDup_app. split; [exact H | split; [| apply NoDup_singleton]].
  intros x Hx ->%list_elem_of_singleton. now apply dict_get_None in E.
Qed.

Lemma dict_get_elem {V} (key : string) (v : V) (d : list (string * V)) :
  dict_get key d = Some v -> (key, v) ∈ d.
Proof.
  induction d as [|[k x] d IH]; simpl; [discriminate |].
  destruct (String.eqb_spec k key) as [->|Hne].
  - intros [= ->]. apply list_elem_of_here.
  - intros H. apply list_elem_of_further. now apply IH.
Qed.

Lemma dict_get_is_Some {V} (key : string) (d : list (string * V)) :
  key ∈ d.*1 -> is_Some (dict_get key d).
Proof.
  intros H. destruct (dict_get key d) eqn:E; [eauto |].
  now apply dict_get_None in E.
Qed.

(** In a mapping whose children are reached without repetition, the children
    held under two different keys share no object. *)
Lemma children_disjoint {V} (f : V -> list loc) (d : list (string * V))
  (k k' : string) (v v' : V) (l : loc) :
  NoDup (d ≫= (fun kv => f kv.2)) ->
  dict_get k d = Some v -> dict_get k' d = Some v' -> k <> k' ->
  l ∈ f v -> l ∉ f v'.
Proof.
  intros Hnd Hk Hk' Hne Hl Hl'.
  induction d as [|[k0 v0] d IH]; [discriminate |].
  rewrite bind_cons in Hnd. apply NoDup_app in Hnd. destruct Hnd as (_ & Hd & Hnd).
  cbn [dict_get] in Hk, Hk'. simpl in Hd.
  destruct (String.eqb_spec k0 k) as [E|E], (String.eqb_spec k0 k') as [E'|E'].
  - congruence.
  - injection Hk as ->. apply (Hd l Hl). apply list_elem_of_bind. exists (k', v').
    split; [exact Hl' | now apply dict_get_elem].
  - injection Hk' as ->. apply (Hd l Hl'). apply list_elem_of_bind. exists (k, v).
    split; [exact Hl | now apply dict_get_elem].
  - now apply IH.
Qed.

Lemma NoDup_bind_elem {A B} (f : A -> list B) (l : list A) (x : A) :
  NoDup (l ≫= f) -> x ∈ l -> NoDup (f x).
Proof.
  induction l as [|y l IH]; intros Hnd Hx; [now apply elem_of_nil in Hx |].
  rewrite bind_cons in Hnd. apply NoDup_app in Hnd. destruct Hnd as (Hy & _ & Hl).
  apply elem_of_cons in Hx. destruct Hx as [->|Hx]; [exact Hy | now apply IH].
Qed.

Lemma store_ok_insert (st : store) (l : loc) (o : obj) :
  store_ok st -> dict_ok o -> store_ok (<[l := o]> st).
Proof. intros Hst Ho. now apply map_Forall_insert_2. Qed.

Lemma store_ok_empty : store_ok ∅.
Proof. intros l o H. rewrite lookup_empty in H. discriminate. Qed.

Lemma bind_run_return {A B} (out : list string) (a : A) (k : A -> run B) :
  (Run out (Return a) ≫= k) = Run (out ++ stdout (k a)) (result (k a)).
Proof. reflexivity. Qed.

(** *** Items of the store against items of a manifest *)

Lemma dict_set_same {V} (key : string) (v : V) (d : list (string * V)) :
  dict_get key d = Some v -> dict_set key v d = d.
Proof.
  induction d as [|[k x] d IH]; [discriminate |]. cbn [dict_get dict_set].
  destruct (String.eqb_spec k key) as [->|Hne].
  - now intros [= ->].
  - intros H. now rewrite IH.
Qed.

Lemma dict_get_elem_NoDup {V} (key : string) (v : V) (d : list (string * V)) :
  NoDup d.*1 -> (key, v) ∈ d -> dict_get key d = Some v.
Proof.
  induction d as [|[k x] d IH]; intros Hnd Hin; [now apply elem_of_nil in Hin |].
  rewrite fmap_cons in Hnd. apply NoDup_cons in Hnd. destruct Hnd as [Hk Hnd].
  cbn [dict_get]. apply elem_of_cons in Hin. destruct Hin as [[= <- <-]|Hin].
  - now rewrite String.eqb_refl.
  - destruct (String.eqb_spec k key) as [->|Hne]; [| now apply IH].
    exfalso. apply Hk. simpl. apply list_elem_of_fmap. now exists (key, v).
Qed.

Lemma entries_ok_keys (P : string -> val -> manifest_value -> Prop)
  (items : list (string * val)) (d : manifest) :
  entries_ok P items d -> items.*1 = d.*1.
Proof.
  induction 1 as [|kv kt items d [Hk _] _ IH]; [reflexivity |].
  now rewrite !fmap_cons, Hk, IH.
Qed.

Lemma entries_ok_get (P : string -> val -> manifest_value -> Prop)
  (items : list (string * val)) (d : manifest) (key : string) :
  entries_ok P items d ->
  match dict_get key items, dict_get key d with
  | Some v, Some t => P key v t
  | None, None => True
  | _, _ => False
  end.
Proof.
  induction 1 as [|[k v] [k' t] items d [Hk Hp] _ IH]; [exact I |].
  simpl in Hk, Hp. subst k'. cbn [dict_get].
  destruct (String.eqb_spec k key) as [->|Hne]; [exact Hp | exact IH].
Qed.

Lemma entries_ok_impl (P P' : string -> val -> manifest_value -> Prop)
  (items : list (string * val)) (d : manifest) :
  entries_ok P items d -> (forall k v t, P k v t -> P' k v t) -> entries_ok P' items d.
Proof.
  intros H Himp. eapply Forall2_impl; [exact H |].
  intros kv kt [Hk Hp]. split; [exact Hk | now apply Himp].
Qed.

Lemma entries_ok_impl_elem (P P' : string -> val -> manifest_value -> Prop)
  (items : list (string * val)) (d : manifest) :
  entries_ok P items d ->
  (forall k v t, (k, v) ∈ items -> P k v t -> P' k v t) ->
  entries_ok P' items d.
Proof.
  induction 1 as [|[k v] [k' t] items d [Hk Hp] _ IH]; intros Himp; [constructor |].
  constructor.
  - split; [exact Hk |]. apply Himp; [apply list_elem_of_here | exact Hp].
  - apply IH. intros k1 v1 t1 Hin. apply Himp. now apply list_elem_of_further.
Qed.

(** Setting a key on both sides. *)
Lemma entries_ok_set (P P' : string -> val -> manifest_value -> Prop)
  (items : list (string * val)) (d : manifest) (key : string) (v : val)
  (t : manifest_value) :
  NoDup items.*1 ->
  entries_ok P items d ->
  (forall k v t, k <> key -> P k v t -> P' k v t) ->
  P' key v t ->
  entries_ok P' (dict_set key v items) (dict_set key t d).
Proof.
  intros Hnd H Himp Hnew. induction H as [|[k x] [k' y] items d [Hk Hp] H IH].
  - constructor; [now split | constructor].
  - simpl in Hk, Hp. subst k'. rewrite fmap_cons in Hnd.
    apply NoDup_cons in Hnd. destruct Hnd as [Hnk Hnd]. cbn [dict_set].
    destruct (String.eqb_spec k key) as [->|Hne].
    + constructor; [now split |].
      apply (entries_ok_impl_elem P P' items d H).
      intros k1 v1 t1 Hin. apply Himp. intros ->. apply Hnk.
      apply list_elem_of_fmap. now exists (key, v1).
    + constructor; [split; [reflexivity | now apply Himp] | now apply IH].
Qed.

(** *** Values of the store against values of a manifest *)

Lemma read_ref (n : nat) (st : store) (l : loc) (t : manifest_value) :
  read n st (VRef l) = Some t ->
  (exists items d n', n = S n' /\ st !! l = Some (ODict items) /\ t = MDict d /\
     entries_ok (fun _ v t => read n' st v = Some t) items d) \/
  (exists a ts n', n = S n' /\ st !! l = Some (OList a) /\ t = MList ts /\
     Forall2 (fun v t => read n' st v = Some t) a ts).
Proof.
  destruct n as [|n]; [discriminate |]. simpl.
  destruct (st !! l) as [[items|a]|]; [| | discriminate]; intros H;
    apply fmap_Some in H; destruct H as (x & Hx & ->); apply mapM_Some_1 in Hx.
  - left. exists items, x, n. repeat split. eapply Forall2_impl; [exact Hx |].
    intros [k v] [k' t] H. simpl in H. apply fmap_Some in H.
    destruct H as (t' & Ht' & [= -> ->]). now split.
  - right. exists a, x, n. now repeat split.
Qed.

Lemma read_dict_entries (n : nat) (st : store) (l : loc)
  (items : list (string * val)) (d : manifest) :
  st !! l = Some (ODict items) ->
  entries_ok (fun _ v t => read n st v = Some t) items d ->
  read (S n) st (VRef l) = Some (MDict d).
Proof.
  intros Hl He. simpl. rewrite Hl. apply fmap_Some. exists d. split; [| reflexivity].
  apply mapM_Some_2. eapply Forall2_impl; [exact He |].
  intros [k v] [k' t] [Hk Hr]. simpl in Hk, Hr |- *. subst k'. now rewrite Hr.
Qed.

Lemma read_list_items (n : nat) (st : store) (l : loc) (a : list val)
  (ts : list manifest_value) :
  st !! l = Some (OList a) ->
  Forall2 (fun v t => read n st v = Some t) a ts ->
  read (S n) st (VRef l) = Some (MList ts).
Proof.
  intros Hl He. simpl. rewrite Hl. apply fmap_Some. exists ts. split; [| reflexivity].
  now apply mapM_Some_2.
Qed.

Lemma read_dict (n : nat) (st : store) (l : loc) (d : manifest) :
  read n st (VRef l) = Some (MDict d) -> is_dict st l.
Proof.
  destruct n; [discriminate |]. simpl. unfold is_dict.
  destruct (st !! l) as [[items|items]|]; [eauto | | discriminate].
  intros H. apply fmap_Some in H. destruct H as (x & _ & H). discriminate.
Qed.

(** The shape of what a value stands for. *)
Lemma read_shape (n : nat) (st : store) (v : val) (t : manifest_value) :
  read n st v = Some t ->
  match v with
  | VStr s => t = MStr s
  | VInt z => t = MInt z
  | VBool b => t = MBool b
  | VRef l => (exists d, t = MDict d) \/ (exists ts, t = MList ts)
  end.
Proof.
  destruct v as [s|z|b|l]; destruct n as [|n]; simpl; try congruence.
  destruct (st !! l) as [[items|a]|]; [| | discriminate]; intros H;
    apply fmap_Some in H; destruct H as (x & _ & ->); eauto.
Qed.

(** [==] gives the same on a value of the store and on what it stands
    for. *)
Lemma py_eq_read (n : nat) (st : store) (v1 v2 : val) (t1 t2 : manifest_value) :
  read n st v1 = Some t1 -> read n st v2 = Some t2 ->
  Heap.py_eq v1 v2 = Values.py_eq t1 t2.
Proof.
  intros H1 H2. apply read_shape in H1, H2.
  destruct v1 as [s1|z1|b1|l1], v2 as [s2|z2|b2|l2]; subst; try reflexivity;
    repeat match goal with
           | H : _ \/ _ |- _ => destruct H as [[? ->]|[? ->]]
           end; reflexivity.
Qed.

(** What [isinstance] tells about a value that stands for [t]. *)
Lemma kind_of_read (n : nat) (st : store) (v : val) (t : manifest_value) :
  read n st v = Some t ->
  match kind_of st v with
  | KDict l => v = VRef l /\ exists d, t = MDict d
  | KList l a =>
      v = VRef l /\ st !! l = Some (OList a) /\
      exists ts n', n = S n' /\ t = MList ts /\
                    Forall2 (fun v t => read n' st v = Some t) a ts
  | KOther => is_scalar t
  end.
Proof.
  intros H. destruct v as [s|z|b|l]; try (apply read_shape in H; subst; exact I).
  apply read_ref in H. unfold kind_of.
  destruct H as [(items & d & n' & -> & Hl & -> & _)|(a & ts & n' & -> & Hl & -> & Ha)];
    rewrite Hl; eauto 10.
Qed.

(** [l1.extend(l2)] on two lists of the store, the first of which is not
    reached from its own items nor from the second. *)
Lemma list_extend_read (n n' : nat) (st : store) (l1 l2 : loc) (a b : list val)
  (ts1 ts2 : list manifest_value) :
  n = S n' ->
  st !! l1 = Some (OList a) -> st !! l2 = Some (OList b) ->
  Forall2 (fun v t => read n' st v = Some t) a ts1 ->
  Forall2 (fun v t => read n' st v = Some t) b ts2 ->
  NoDup (reach n st (VRef l1)) ->
  l1 ∉ reach n st (VRef l2) ->
  read n (<[l1 := OList (a ++ b)]> st) (VRef l1) = Some (MList (ts1 ++ ts2)) /\
  (forall l, l ∈ reach n (<[l1 := OList (a ++ b)]> st) (VRef l1) ->
     l ∈ reach n st (VRef l1) \/ l ∈ reach n st (VRef l2)).
Proof.
  intros -> H1 H2 Ha Hb Hnd Hl2. simpl in Hnd, Hl2 |- *.
  rewrite H1 in Hnd. rewrite H2 in Hl2. rewrite H1, H2, lookup_insert_eq.
  apply NoDup_cons in Hnd. destruct Hnd as [Hl1 _].
  apply not_elem_of_cons in Hl2. destruct Hl2 as [_ Hl2].
  assert (Hx : forall x, x ∈ a ++ b ->
            read n' (<[l1 := OList (a ++ b)]> st) x = read n' st x /\
            reach n' (<[l1 := OList (a ++ b)]> st) x = reach n' st x).
  { intros x Hx. apply read_reach_agree. intros l Hl. apply lookup_insert_ne.
    intros <-. apply elem_of_app in Hx. destruct Hx as [Hx|Hx].
    - apply Hl1. apply list_elem_of_bind. eauto.
    - apply Hl2. apply list_elem_of_bind. eauto. }
  split.
  - apply fmap_Some. exists (ts1 ++ ts2). split; [| reflexivity].
    rewrite (Forall_mapM_ext _ (read n' st)).
    + apply mapM_Some_2. now apply Forall2_app.
    + apply Forall_forall. intros x Hin. now apply Hx.
  - intros l Hl. rewrite (Forall_bind_ext _ (reach n' st)) in Hl.
    2:{ apply Forall_forall. intros x Hin. now apply Hx. }
    rewrite bind_app in Hl. apply elem_of_cons in Hl. destruct Hl as [->|Hl].
    + left. apply list_elem_of_here.
    + apply elem_of_app in Hl. destruct Hl as [Hl|Hl].
      * left. now apply list_elem_of_further.
      * right. now apply list_elem_of_further.
Qed.

(** *** The frame of one call *)

Section Frame.

Variable container_str : store -> loc -> string.
Variables manifest1_name manifest2_name : string.

Local Abbreviation merge :=
  (merge_manifests_in_order container_str manifest1_name manifest2_name).

(** [str()] of a list or a mapping, on the store and on values: the text
    depends only on what the object stands for. *)
Variable value_str : manifest_value -> string.
Hypothesis Hstr :
  forall k st l t, read k st (VRef l) = Some t -> container_str st l = value_str t.

Local Abbreviation frame :=
  (frame_of_call container_str manifest1_name manifest2_name).
Local Abbreviation refines :=
  (refines_call container_str value_str manifest1_name manifest2_name).

Section Loop.

Variables (n fuel : nat).
Hypothesis IH : frame n fuel.

Variables (st0 : store) (m1 m2 : loc) (items1_0 items2 : list (string * val)).
Hypothesis Hm1 : st0 !! m1 = Some (ODict items1_0).
Hypothesis Hm2 : st0 !! m2 = Some (ODict items2).
Hypothesis Hread : is_Some (read (S n) st0 (VRef m1)).
Hypothesis Hsep : separate (S n) st0 m1 m2.

Local Abbreviation inv := (loop_inv n st0 m1 items1_0).

Lemma reach_m1 :
  reach (S n) st0 (VRef m1) = m1 :: (items1_0 ≫= (fun kv => reach n st0 kv.2)).
Proof. simpl. now rewrite Hm1. Qed.

Lemma child_in_m1 (k : string) (v : val) (l : loc) :
  dict_get k items1_0 = Some v -> l ∈ reach n st0 v -> l ∈ reach (S n) st0 (VRef m1).
Proof.
  intros Hk Hl. rewrite reach_m1. apply list_elem_of_further, list_elem_of_bind.
  exists (k, v). split; [exact Hl | now apply dict_get_elem].
Qed.

Lemma m1_not_in_child (k : string) (v : val) :
  dict_get k items1_0 = Some v -> m1 ∉ reach n st0 v.
Proof.
  intros Hk Hl. destruct Hsep as [Hnd _]. rewrite reach_m1 in Hnd.
  apply NoDup_cons in Hnd. destruct Hnd as [Hnd _]. apply Hnd.
  apply list_elem_of_bind. exists (k, v). split; [exact Hl | now apply dict_get_elem].
Qed.

Lemma child_read (k : string) (v : val) :
  dict_get k items1_0 = Some v -> is_Some (read n st0 v).
Proof.
  intros Hk. destruct Hread as [t Ht]. simpl in Ht. rewrite Hm1 in Ht.
  apply fmap_Some in Ht. destruct Ht as (d & Hd & _).
  apply mapM_Some_1 in Hd. apply dict_get_elem in Hk.
  apply list_elem_of_lookup in Hk. destruct Hk as [i Hi].
  destruct (Forall2_lookup_l _ _ _ _ _ Hd Hi) as (y & _ & Hy). simpl in Hy.
  apply fmap_Some in Hy. destruct Hy as (t' & Ht' & _). eauto.
Qed.

Lemma child_NoDup (k : string) (v : val) :
  dict_get k items1_0 = Some v -> NoDup (reach n st0 v).
Proof.
  intros Hk. destruct Hsep as [Hnd _]. rewrite reach_m1 in Hnd.
  apply NoDup_cons in Hnd. destruct Hnd as [_ Hnd].
  apply (NoDup_bind_elem (fun kv => reach n st0 kv.2) items1_0 (k, v) Hnd).
  now apply dict_get_elem.
Qed.

Lemma m2_outside : m2 ∉ reach (S n) st0 (VRef m1).
Proof.
  intros H. destruct Hsep as [_ Hd]. apply (Hd m2 H). simpl. apply list_elem_of_here.
Qed.

Lemma child2_outside (k : string) (v : val) (l : loc) :
  dict_get k items2 = Some v -> l ∈ reach n st0 v -> l ∉ reach (S n) st0 (VRef m1).
Proof.
  intros Hk Hl H. destruct Hsep as [_ Hd]. apply (Hd l H). simpl. rewrite Hm2.
  apply list_elem_of_further, list_elem_of_bind.
  exists (k, v). split; [exact Hl | now apply dict_get_elem].
Qed.

Lemma inv_start : store_ok st0 -> inv (items2.*1) st0.
Proof.
  intros Hok. split; [exact Hok |]. split; [reflexivity |].
  split; [exists items1_0; split; [exact Hm1 | reflexivity] | reflexivity].
Qed.

Lemma inv_m2 (keys : list string) (st : store) :
  inv keys st -> st !! m2 = Some (ODict items2).
Proof. intros (_ & Hf & _). rewrite (Hf m2 m2_outside). exact Hm2. Qed.

Lemma inv_next (key : string) (rest : list string) (st : store) :
  inv (key :: rest) st -> inv rest st.
Proof.
  intros (Hok & Hf & (items1 & Hi & Hk) & Hu). split; [exact Hok |]. split; [exact Hf |].
  split.
  - exists items1. split; [exact Hi |]. intros k Hin. apply Hk. now apply list_elem_of_further.
  - intros k v l Hin. apply Hu. now apply list_elem_of_further.
Qed.

(** [manifest1[key] = v] keeps the invariant for the keys that follow. *)
Lemma inv_set (key : string) (rest : list string) (st : store)
  (items1 : list (string * val)) (v : val) :
  inv (key :: rest) st -> key ∉ rest -> st !! m1 = Some (ODict items1) ->
  inv rest (<[m1 := ODict (dict_set key v items1)]> st).
Proof.
  intros (Hok & Hf & (items1' & Hi & Hk) & Hu) Hkey Hst.
  rewrite Hst in Hi. injection Hi as <-.
  split; [| split; [| split]].
  - apply store_ok_insert; [exact Hok |]. simpl. apply dict_set_NoDup.
    apply (map_Forall_lookup_1 _ _ _ _ Hok Hst).
  - intros l Hl. rewrite lookup_insert_ne; [now apply Hf |].
    intros <-. apply Hl. rewrite reach_m1. apply list_elem_of_here.
  - exists (dict_set key v items1). split; [apply lookup_insert_eq |].
    intros k Hin. rewrite dict_get_set_ne by (intros ->; contradiction).
    apply Hk. now apply list_elem_of_further.
  - intros k v' l Hin Hg Hl. rewrite lookup_insert_ne.
    + apply (Hu k v' l); [now apply list_elem_of_further | exact Hg | exact Hl].
    + intros <-. now apply (m1_not_in_child k v').
Qed.

(** A change confined to what [manifest1[key]] reached on entry keeps the
    invariant for the keys that follow. *)
Lemma inv_child (key : string) (rest : list string) (st st' : store) (value1 : val) :
  inv (key :: rest) st -> key ∉ rest ->
  dict_get key items1_0 = Some value1 ->
  store_ok st' ->
  (forall l, l ∉ reach n st0 value1 -> st' !! l = st !! l) ->
  inv rest st'.
Proof.
  intros (Hok & Hf & (items1 & Hi & Hk) & Hu) Hkey Hg Hok' Hw.
  split; [exact Hok' |]. split; [| split].
  - intros l Hl. rewrite Hw; [now apply Hf |].
    intros Hin. apply Hl. now apply (child_in_m1 key value1).
  - exists items1. split.
    + rewrite Hw; [exact Hi | now apply (m1_not_in_child key)].
    + intros k Hin. apply Hk. now apply list_elem_of_further.
  - intros k v l Hin Hgk Hl. rewrite Hw.
    + apply (Hu k v l); [now apply list_elem_of_further | exact Hgk | exact Hl].
    + destruct Hsep as [Hnd _]. rewrite reach_m1 in Hnd.
      apply NoDup_cons in Hnd. destruct Hnd as [_ Hnd].
      apply (children_disjoint (reach n st0) items1_0 k key v value1 l Hnd Hgk Hg);
        [intros -> ; contradiction | exact Hl].
Qed.

Lemma merge_differing_inv (key : string) (rest : list string) (st : store)
  (items1 : list (string * val)) (path : list string) (value1 value2 : val) :
  inv (key :: rest) st -> key ∉ rest -> st !! m1 = Some (ODict items1) ->
  exists st' out,
    merge_differing container_str manifest1_name manifest2_name st m1 path key
      value1 value2 = Run out (Return st') /\
    inv rest st'.
Proof.
  intros Hinv Hkey Hst. unfold merge_differing.
  destruct (py_eq value1 value2).
  { exists st, []. split; [reflexivity | now apply inv_next with key]. }
  destruct (concatenated_envvar path key).
  - unfold store_set. rewrite Hst. eexists _, _. split; [reflexivity |].
    now apply inv_set.
  - eexists _, _. split; [reflexivity | now apply inv_next with key].
Qed.

Lemma kind_of_dict (st : store) (v : val) (l : loc) :
  kind_of st v = KDict l -> v = VRef l /\ is_dict st l.
Proof.
  unfold kind_of, is_dict. destruct v as [| | |l']; try discriminate.
  destruct (st !! l') as [[d|a]|] eqn:E; try discriminate. intros [= <-]. split; eauto.
Qed.

Lemma kind_of_list (st : store) (v : val) (l : loc) (a : list val) :
  kind_of st v = KList l a -> v = VRef l /\ st !! l = Some (OList a).
Proof.
  unfold kind_of. destruct v as [| | |l']; try discriminate.
  destruct (st !! l') as [[d|a']|] eqn:E; try discriminate. now intros [= <- <-].
Qed.

(** One turn of the loop. *)
Lemma merge_key_inv (key : string) (rest : list string) (st : store)
  (path : list string) :
  inv (key :: rest) st -> key ∉ rest -> key ∈ items2.*1 ->
  exists st' out,
    merge_key container_str manifest1_name manifest2_name (merge fuel)
      st m1 m2 path key = Run out (Return st') /\
    inv rest st'.
Proof.
  intros Hinv Hkey Hin. pose proof (inv_m2 _ _ Hinv) as Hst2.
  pose proof Hinv as (Hok & Hf & (items1 & Hi & Hk) & Hu).
  unfold merge_key. rewrite Hi, Hst2.
  destruct (dict_get_is_Some key items2 Hin) as [value2 Hv2]. rewrite Hv2.
  rewrite (Hk key) by apply list_elem_of_here.
  destruct (dict_get key items1_0) as [value1|] eqn:Eg.
  2:{ unfold store_set. rewrite Hi. eexists _, _. split; [reflexivity |].
      now apply inv_set. }
  assert (Ha1 : forall l, l ∈ reach n st0 value1 -> st !! l = st0 !! l).
  { intros l. apply (Hu key value1 l); [apply list_elem_of_here | exact Eg]. }
  assert (Ha2 : forall l, l ∈ reach n st0 value2 -> st !! l = st0 !! l).
  { intros l Hl. apply Hf. now apply (child2_outside key value2). }
  destruct (read_reach_agree n st0 st value1 Ha1) as [Hr1 He1].
  destruct (read_reach_agree n st0 st value2 Ha2) as [_ He2].
  destruct (kind_of st value1) as [l1|l1 a|] eqn:K1;
    [| | now apply merge_differing_inv with items1].
  - destruct (kind_of st value2) as [l2|l2 b|] eqn:K2;
      [| now apply merge_differing_inv with items1 ..].
    apply kind_of_dict in K1, K2. destruct K1 as [-> Hd1], K2 as [-> Hd2].
    destruct (IH st l1 l2 (path ++ [key]) Hok Hd1 Hd2) as (st' & out & Hrun & Hok' & Hfr).
    + rewrite Hr1. now apply (child_read key).
    + split.
      * rewrite He1. now apply (child_NoDup key).
      * intros l Hl1 Hl2. rewrite He1 in Hl1. rewrite He2 in Hl2.
        apply (child2_outside key (VRef l2) l Hv2 Hl2).
        now apply (child_in_m1 key (VRef l1)).
    + rewrite Hrun, bind_run_return. eexists _, _. split; [reflexivity |].
      apply (inv_child key rest st st' (VRef l1)); try assumption.
      intros l Hl. apply Hfr. now rewrite He1.
  - destruct (kind_of st value2) as [l2|l2 b|] eqn:K2;
      [now apply merge_differing_inv with items1 | |
       now apply merge_differing_inv with items1].
    apply kind_of_list in K1. destruct K1 as [-> Hl1].
    eexists _, _. split; [reflexivity |].
    apply (inv_child key rest st _ (VRef l1)); try assumption.
    + now apply store_ok_insert.
    + intros l Hl. apply lookup_insert_ne. intros <-. apply Hl.
      apply reach_self. now apply (child_read key).
Qed.

(** The whole loop. *)
Lemma merge_keys_inv (keys : list string) (st : store) (path : list string) :
  inv keys st -> NoDup keys -> (forall k, k ∈ keys -> k ∈ items2.*1) ->
  exists st' out,
    merge_keys container_str manifest1_name manifest2_name (merge fuel)
      (length items2) keys st m1 m2 path = Run out (Return st') /\
    inv [] st'.
Proof.
  revert st. induction keys as [|key rest IHk]; intros st Hinv Hnd Hsub;
    cbn [merge_keys]; rewrite (inv_m2 _ _ Hinv), Nat.eqb_refl; cbn [negb].
  - exists st, []. split; [reflexivity | exact Hinv].
  - apply NoDup_cons in Hnd. destruct Hnd as [Hkey Hnd].
    destruct (merge_key_inv key rest st path Hinv Hkey) as (st1 & out1 & Hrun1 & Hinv1).
    { apply Hsub, list_elem_of_here. }
    destruct (IHk st1 Hinv1 Hnd) as (st2 & out2 & Hrun2 & Hinv2).
    { intros k Hk. now apply Hsub, list_elem_of_further. }
    rewrite Hrun1, bind_run_return, Hrun2. eexists _, _. split; [reflexivity | exact Hinv2].
Qed.

(** **** The loop against the merger on values *)

Hypothesis IHr :
  refines_call container_str value_str manifest1_name manifest2_name n fuel.

Local Abbreviation ok := (child_ok n st0 m2 items1_0).
Local Abbreviation rinv st d1 :=
  (exists items1, st !! m1 = Some (ODict items1) /\ entries_ok (ok st) items1 d1).
Local Abbreviation vmerge :=
  (Values.merge_manifests_in_order value_str manifest1_name manifest2_name).
Local Abbreviation vmerge_item :=
  (Values.merge_item value_str manifest1_name manifest2_name).
Local Abbreviation vmerge_value :=
  (Values.merge_value value_str manifest1_name manifest2_name).

Lemma child_in_m2 (k : string) (v : val) (l : loc) :
  dict_get k items2 = Some v -> l ∈ reach n st0 v -> l ∈ reach (S n) st0 (VRef m2).
Proof.
  intros Hk Hl. simpl. rewrite Hm2. apply list_elem_of_further, list_elem_of_bind.
  exists (k, v). split; [exact Hl | now apply dict_get_elem].
Qed.

Lemma child2_outside_rev (l : loc) :
  l ∈ reach (S n) st0 (VRef m2) -> l ∉ reach (S n) st0 (VRef m1).
Proof. intros H2 H1. destruct Hsep as [_ Hd]. now apply (Hd l H1). Qed.

Lemma m1_outside_m2 : m1 ∉ reach (S n) st0 (VRef m2).
Proof.
  destruct Hsep as [_ Hd]. apply Hd. rewrite reach_m1. apply list_elem_of_here.
Qed.

Lemma ok_transport (st st' : store) (k : string) (v : val) (t : manifest_value) :
  ok st k v t -> (forall l, l ∈ reach n st v -> st' !! l = st !! l) -> ok st' k v t.
Proof.
  intros [Hr Hb] Ha. destruct (read_reach_agree n st st' v Ha) as [Hr' He'].
  split; [now rewrite Hr' | now rewrite He'].
Qed.

Lemma ok_not_m1 (st : store) (k : string) (v : val) (t : manifest_value) :
  ok st k v t -> m1 ∉ reach n st v.
Proof.
  intros [_ Hb] Hin. destruct (Hb m1 Hin) as [H|(v0 & Hv0 & H)].
  - now apply m1_outside_m2.
  - now apply (m1_not_in_child k v0).
Qed.

(** A value of the second manifest reads in [st] as it read on entry. *)
Lemma value2_ok (keys : list string) (st : store) (key : string) (value2 : val)
  (t2 : manifest_value) :
  inv keys st -> dict_get key items2 = Some value2 -> read n st0 value2 = Some t2 ->
  ok st key value2 t2 /\ reach n st value2 = reach n st0 value2.
Proof.
  intros (_ & Hf & _) Hv2 Hr2.
  assert (Ha : forall l, l ∈ reach n st0 value2 -> st !! l = st0 !! l).
  { intros l Hl. apply Hf. now apply (child2_outside key value2). }
  destruct (read_reach_agree n st0 st value2 Ha) as [Hr He].
  split; [| exact He]. split; [now rewrite Hr |].
  intros l Hl. left. rewrite He in Hl. now apply (child_in_m2 key value2).
Qed.

(** The value of the first manifest under a key still to come reads in [st]
    as on entry. *)
Lemma value1_agree (key : string) (rest : list string) (st : store) (value1 : val) :
  inv (key :: rest) st -> dict_get key items1_0 = Some value1 ->
  read n st value1 = read n st0 value1 /\ reach n st value1 = reach n st0 value1.
Proof.
  intros (_ & _ & _ & Hu) Hg. apply read_reach_agree.
  intros l. apply (Hu key value1 l); [apply list_elem_of_here | exact Hg].
Qed.

Lemma rinv_set (key : string) (rest : list string) (st : store)
  (items1 : list (string * val)) (d1 : manifest) (v : val) (t : manifest_value) :
  inv (key :: rest) st -> st !! m1 = Some (ODict items1) ->
  entries_ok (ok st) items1 d1 ->
  ok st key v t ->
  rinv (<[m1 := ODict (dict_set key v items1)]> st) (dict_set key t d1).
Proof.
  intros (Hok & _) Hi He Hnew. exists (dict_set key v items1).
  split; [apply lookup_insert_eq |].
  assert (Ht : forall k x y, ok st k x y ->
                 ok (<[m1 := ODict (dict_set key v items1)]> st) k x y).
  { intros k x y Hxy. apply (ok_transport st); [exact Hxy |].
    intros l Hl. apply lookup_insert_ne. intros <-. now apply (ok_not_m1 st k x y). }
  apply (entries_ok_set (ok st)); try assumption.
  - apply (map_Forall_lookup_1 _ _ _ _ Hok Hi).
  - intros k x y _. apply Ht.
  - now apply Ht.
Qed.

Lemma rinv_child (key : string) (rest : list string) (st st' : store)
  (items1 : list (string * val)) (d1 : manifest) (value1 : val) (t : manifest_value) :
  inv (key :: rest) st -> st !! m1 = Some (ODict items1) ->
  entries_ok (ok st) items1 d1 ->
  dict_get key items1 = Some value1 ->
  dict_get key items1_0 = Some value1 ->
  (forall l, l ∉ reach n st0 value1 -> st' !! l = st !! l) ->
  ok st' key value1 t ->
  rinv st' (dict_set key t d1).
Proof.
  intros (Hok & _) Hi He Hg Hg0 Hw Hnew. exists items1. split.
  - rewrite Hw; [exact Hi | now apply (m1_not_in_child key)].
  - rewrite <- (dict_set_same key value1 items1 Hg).
    apply (entries_ok_set (ok st)); try assumption.
    + apply (map_Forall_lookup_1 _ _ _ _ Hok Hi).
    + intros k x y Hne Hxy. apply (ok_transport st); [exact Hxy |].
      intros l Hl. apply Hw. intros Hl1.
      destruct Hxy as [_ Hb]. destruct (Hb l Hl) as [H|(v0 & Hv0 & H)].
      * apply (child2_outside_rev l H). now apply (child_in_m1 key value1).
      * destruct Hsep as [Hnd _]. rewrite reach_m1 in Hnd.
        apply NoDup_cons in Hnd. destruct Hnd as [_ Hnd].
        now apply (children_disjoint (reach n st0) items1_0 k key v0 value1 l Hnd Hv0 Hg0).
Qed.

Lemma py_str_read (k : nat) (st : store) (v : val) (t : manifest_value) :
  read k st v = Some t -> Heap.py_str container_str st v = Values.py_str value_str t.
Proof.
  intros H. pose proof (read_shape k st v t H) as Hs.
  destruct v as [s|z|b|l]; simpl in Hs.
  - now subst.
  - now subst.
  - subst. now destruct b.
  - simpl. rewrite (Hstr k st l t H). now destruct Hs as [[? ->]|[? ->]].
Qed.

Lemma ok_scalar (st : store) (key s : string) : ok st key (VStr s) (MStr s).
Proof.
  split; [now destruct n |]. intros l Hl. destruct n; simpl in Hl; now apply elem_of_nil in Hl.
Qed.

(** The turn of the loop when the two values are neither two mappings nor
    two lists. *)
Lemma differing_refines (key : string) (rest : list string) (st : store)
  (items1 : list (string * val)) (d1 : manifest) (path : list string)
  (value1 value2 : val) (t1 t2 : manifest_value) :
  inv (key :: rest) st -> key ∉ rest ->
  st !! m1 = Some (ODict items1) -> entries_ok (ok st) items1 d1 ->
  dict_get key d1 = Some t1 ->
  read n st value1 = Some t1 -> read n st value2 = Some t2 ->
  vmerge_value path key t1 t2 =
    (if Values.py_eq t1 t2 then (t1, [])
     else if concatenated_envvar path key
     then (MStr (Values.py_str value_str t1 +:+ ":" +:+ Values.py_str value_str t2),
           [concatenating_warning manifest1_name manifest2_name path key])
     else (t1, [overriding_warning manifest1_name manifest2_name path key])) ->
  exists st',
    merge_differing container_str manifest1_name manifest2_name st m1 path key
      value1 value2 = Run (vmerge_item path d1 key t2).2 (Return st') /\
    inv rest st' /\ rinv st' (vmerge_item path d1 key t2).1.
Proof.
  intros Hinv Hkey Hi He Hgd Hr1 Hr2 Hmv.
  unfold merge_differing, Values.merge_item. rewrite Hgd, Hmv.
  rewrite (py_eq_read n st value1 value2 t1 t2 Hr1 Hr2).
  rewrite (py_str_read n st value1 t1 Hr1), (py_str_read n st value2 t2 Hr2).
  destruct (Values.py_eq t1 t2).
  { exists st. simpl. rewrite (dict_set_same key t1 d1 Hgd).
    split; [reflexivity |]. split; [now apply inv_next with key | eauto]. }
  destruct (concatenated_envvar path key).
  - unfold store_set. rewrite Hi. eexists. split; [reflexivity |]. simpl. split.
    + now apply inv_set.
    + apply (rinv_set key rest); try assumption. apply ok_scalar.
  - exists st. simpl. rewrite (dict_set_same key t1 d1 Hgd).
    split; [reflexivity |]. split; [now apply inv_next with key | eauto].
Qed.

(** One turn of the loop against one turn of the merger on values. *)
Lemma merge_key_refines (key : string) (rest : list string) (st : store)
  (path : list string) (d1 : manifest) (value2 : val) (t2 : manifest_value) :
  inv (key :: rest) st -> rinv st d1 -> key ∉ rest ->
  dict_get key items2 = Some value2 -> read n st0 value2 = Some t2 ->
  exists st',
    merge_key container_str manifest1_name manifest2_name (merge fuel)
      st m1 m2 path key = Run (vmerge_item path d1 key t2).2 (Return st') /\
    inv rest st' /\ rinv st' (vmerge_item path d1 key t2).1.
Proof.
  intros Hinv (items1 & Hi & He) Hkey Hv2 Hr2.
  pose proof (inv_m2 _ _ Hinv) as Hst2.
  pose proof Hinv as (Hok & Hf & (items1' & Hi' & Hk) & Hu).
  rewrite Hi in Hi'. injection Hi' as <-.
  destruct (value2_ok _ st key value2 t2 Hinv Hv2 Hr2) as [Hok2 He2].
  pose proof (entries_ok_get _ items1 d1 key He) as Hg.
  unfold merge_key. rewrite Hi, Hst2, Hv2.
  destruct (dict_get key items1) as [value1|] eqn:Eg1;
    destruct (dict_get key d1) as [t1|] eqn:Egd; try contradiction.
  2:{ unfold store_set, Values.merge_item. rewrite Hi, Egd. eexists.
      split; [reflexivity |]. simpl. split; [now apply inv_set |].
      now apply (rinv_set key rest). }
  assert (Eg0 : dict_get key items1_0 = Some value1).
  { rewrite <- (Hk key); [exact Eg1 | apply list_elem_of_here]. }
  destruct Hg as [Hr1 Hb1].
  destruct (value1_agree key rest st value1 Hinv Eg0) as [_ He1].
  pose proof (kind_of_read n st value1 t1 Hr1) as K1.
  pose proof (kind_of_read n st value2 t2 (proj1 Hok2)) as K2.
  assert (Hdiff :
    vmerge_value path key t1 t2 =
      (if Values.py_eq t1 t2 then (t1, [])
       else if concatenated_envvar path key
       then (MStr (Values.py_str value_str t1 +:+ ":" +:+ Values.py_str value_str t2),
             [concatenating_warning manifest1_name manifest2_name path key])
       else (t1, [overriding_warning manifest1_name manifest2_name path key])) ->
    exists st',
      merge_differing container_str manifest1_name manifest2_name st m1 path key
        value1 value2 = Run (vmerge_item path d1 key t2).2 (Return st') /\
      inv rest st' /\ rinv st' (vmerge_item path d1 key t2).1).
  { apply (differing_refines key rest st items1 d1 path value1 value2 t1 t2);
      try assumption. exact (proj1 Hok2). }
  destruct (kind_of st value1) as [l1|l1 a|]; destruct (kind_of st value2) as [l2|l2 b|].
  - (* two mappings: the recursive call *)
    destruct K1 as [-> [a ->]], K2 as [-> [b ->]].
    assert (Hsep' : separate n st l1 l2).
    { split.
      - rewrite He1. now apply (child_NoDup key).
      - intros l Hl1 Hl2. rewrite He1 in Hl1. rewrite He2 in Hl2.
        apply (child2_outside key (VRef l2) l Hv2 Hl2).
        now apply (child_in_m1 key (VRef l1)). }
    destruct (IH st l1 l2 (path ++ [key]) Hok (read_dict _ _ _ _ Hr1)
                (read_dict _ _ _ _ (proj1 Hok2)) (ex_intro _ _ Hr1) Hsep')
      as (st' & out & Hrun & Hok' & Hfr).
    destruct (IHr st l1 l2 (path ++ [key]) a b Hok Hr1 (proj1 Hok2) Hsep')
      as (st'' & Hrun' & Hread' & Hbound).
    rewrite Hrun in Hrun'. injection Hrun' as -> ->.
    assert (Hw : forall l, l ∉ reach n st0 (VRef l1) -> st'' !! l = st !! l).
    { intros l Hl. apply Hfr. now rewrite He1. }
    rewrite Hrun, bind_run_return. unfold Values.merge_item. rewrite Egd.
    rewrite merge_value_dict. exists st''. simpl. rewrite app_nil_r.
    split; [reflexivity |]. split.
    + now apply (inv_child key rest st st'' (VRef l1)).
    + apply (rinv_child key rest st st'' items1 d1 (VRef l1)); try assumption.
      split; [exact Hread' |]. intros l Hl. destruct (Hbound l Hl) as [H|H].
      * right. exists (VRef l1). split; [exact Eg0 | now rewrite <- He1].
      * left. apply (child_in_m2 key (VRef l2)); [exact Hv2 | now rewrite <- He2].
  - apply Hdiff. destruct K1 as [_ [a' ->]], K2 as (_ & _ & ts & n' & _ & -> & _).
    reflexivity.
  - apply Hdiff. destruct K1 as [_ [a' ->]]. destruct t2; try contradiction; reflexivity.
  - apply Hdiff. destruct K2 as [_ [b' ->]], K1 as (_ & _ & ts & n' & _ & -> & _).
    reflexivity.
  - (* two lists: the first is extended *)
    destruct K1 as (-> & Hl1 & ts1 & n' & Hn & -> & Ha).
    destruct K2 as (-> & Hl2 & ts2 & n'' & Hn' & -> & Hb).
    assert (n'' = n') as -> by congruence.
    destruct (list_extend_read n n' st l1 l2 a b ts1 ts2 Hn Hl1 Hl2 Ha Hb)
      as [Hread' Hbound].
    { rewrite He1. now apply (child_NoDup key). }
    { rewrite He2. intros Hin. apply (child2_outside key (VRef l2) l1 Hv2 Hin).
      apply (child_in_m1 key (VRef l1) l1 Eg0). rewrite <- He1.
      apply reach_self. eauto. }
    assert (Hw : forall l, l ∉ reach n st0 (VRef l1) ->
              (<[l1 := OList (a ++ b)]> st) !! l = st !! l).
    { intros l Hl. apply lookup_insert_ne. intros <-. apply Hl.
      rewrite <- He1. apply reach_self. eauto. }
    unfold Values.merge_item. rewrite Egd. eexists. split; [reflexivity |]. simpl. split.
    + apply (inv_child key rest st _ (VRef l1)); try assumption.
      now apply store_ok_insert.
    + apply (rinv_child key rest st _ items1 d1 (VRef l1)); try assumption.
      split; [exact Hread' |]. intros l Hl. destruct (Hbound l Hl) as [H|H].
      * right. exists (VRef l1). split; [exact Eg0 | now rewrite <- He1].
      * left. apply (child_in_m2 key (VRef l2)); [exact Hv2 | now rewrite <- He2].
  - apply Hdiff. destruct K1 as (_ & _ & ts & n' & _ & -> & _).
    destruct t2; try contradiction; reflexivity.
  - apply Hdiff. destruct t1; try contradiction; destruct t2; reflexivity.
  - apply Hdiff. destruct t1; try contradiction; destruct t2; reflexivity.
  - apply Hdiff. destruct t1; try contradiction; destruct t2; reflexivity.
Qed.

(** The whole loop against the merger on values. *)
Lemma merge_keys_refines (rest2 : list (string * val)) (rest2v : manifest) :
  entries_ok (fun _ v t => read n st0 v = Some t) rest2 rest2v ->
  forall (st : store) (path : list string) (d1 : manifest),
    (forall kv, kv ∈ rest2 -> dict_get kv.1 items2 = Some kv.2) ->
    NoDup rest2.*1 ->
    inv (rest2.*1) st -> rinv st d1 ->
    exists st',
      merge_keys container_str manifest1_name manifest2_name (merge fuel)
        (length items2) (rest2.*1) st m1 m2 path =
        Run (vmerge d1 rest2v path).2 (Return st') /\
      inv [] st' /\ rinv st' (vmerge d1 rest2v path).1.
Proof.
  induction 1 as [|[k v] [k' t] rest2 rest2v [Hk Hr] _ IHl];
    intros st path d1 Hget Hnd Hinv Hrinv.
  - cbn [merge_keys fmap list_fmap]. rewrite (inv_m2 _ _ Hinv), Nat.eqb_refl. cbn [negb].
    exists st. split; [reflexivity |]. split; [exact Hinv | exact Hrinv].
  - simpl in Hk, Hr. subst k'. rewrite fmap_cons in Hnd, Hinv |- *.
    apply NoDup_cons in Hnd. destruct Hnd as [Hkey Hnd]. simpl in Hkey, Hinv.
    rewrite merge_cons. cbn [merge_keys fst].
    rewrite (inv_m2 _ _ Hinv), Nat.eqb_refl. cbn [negb].
    destruct (merge_key_refines k (rest2.*1) st path d1 v t Hinv Hrinv Hkey)
      as (st1 & Hrun1 & Hinv1 & Hrinv1).
    { apply (Hget (k, v)), list_elem_of_here. }
    { exact Hr. }
    destruct (IHl st1 path (vmerge_item path d1 k t).1) as (st2 & Hrun2 & Hinv2 & Hrinv2);
      try assumption.
    { intros kv Hin. now apply Hget, list_elem_of_further. }
    rewrite Hrun1, bind_run_return, Hrun2. exists st2.
    split; [reflexivity |]. split; [exact Hinv2 | exact Hrinv2].
Qed.

End Loop.

(** A call on separate manifests, with fuel for the depth of the first one,
    returns its first argument and changes no object outside it. *)
Lemma merge_frame (n fuel : nat) : (n <= fuel)%nat -> frame n fuel.
Proof.
  revert fuel. induction n as [|n IHn]; intros fuel Hle st m1 m2 path Hok Hd1 Hd2 Hread Hsep.
  { destruct Hread as [t Ht]. discriminate. }
  destruct fuel as [|fuel]; [lia |].
  destruct Hd1 as [items1 Hm1], Hd2 as [items2 Hm2].
  cbn [merge_manifests_in_order]. rewrite Hm2.
  destruct (merge_keys_inv n fuel (IHn fuel ltac:(lia)) st m1 m2 items1 items2
              Hm1 Hm2 Hread Hsep (items2.*1) st path) as (st' & out & Hrun & Hinv).
  - now apply inv_start.
  - apply (map_Forall_lookup_1 _ _ _ _ Hok Hm2).
  - auto.
  - rewrite Hrun, bind_run_return. eexists _, _. split; [reflexivity |].
    destruct Hinv as (Hok' & Hf & _). split; [exact Hok' | exact Hf].
Qed.

(** A call on separate manifests of the store computes what the merger on
    values computes on the manifests they stand for. *)
Lemma merge_refines (n fuel : nat) : (n <= fuel)%nat -> refines n fuel.
Proof.
  revert fuel. induction n as [|n IHn]; intros fuel Hle st m1 m2 path d1 d2 Hok H1 H2 Hsep.
  { discriminate. }
  destruct fuel as [|fuel]; [lia |].
  pose proof (read_ref _ _ _ _ H1) as [(items1 & d1' & n1 & [= <-] & Hm1 & [= <-] & He1)|
                                       (? & ? & ? & _ & _ & [=] & _)].
  pose proof (read_ref _ _ _ _ H2) as [(items2 & d2' & n2 & [= <-] & Hm2 & [= <-] & He2)|
                                       (? & ? & ? & _ & _ & [=] & _)].
  assert (Hnd1 : NoDup items1.*1) by apply (map_Forall_lookup_1 _ _ _ _ Hok Hm1).
  assert (Hnd2 : NoDup items2.*1) by apply (map_Forall_lookup_1 _ _ _ _ Hok Hm2).
  destruct (merge_keys_refines n fuel (merge_frame n fuel ltac:(lia)) st m1 m2
              items1 items2 Hm1 Hm2 (ex_intro _ _ H1) Hsep (IHn fuel ltac:(lia))
              items2 d2 He2 st path d1) as (st' & Hrun & Hinv & (items1' & Hm1' & He'));
    try assumption.
  - intros [k v] Hin. now apply dict_get_elem_NoDup.
  - now apply inv_start.
  - exists items1. split; [exact Hm1 |].
    apply (entries_ok_impl_elem _ _ _ _ He1). intros k v t Hin Hr. split; [exact Hr |].
    intros l Hl. right. exists v. split; [now apply dict_get_elem_NoDup | exact Hl].
  - exists st'. cbn [merge_manifests_in_order]. rewrite Hm2, Hrun, bind_run_return.
    simpl. rewrite app_nil_r. split; [reflexivity |]. split.
    + apply (read_dict_entries n st' m1 items1'); [exact Hm1' |].
      apply (entries_ok_impl _ _ _ _ He'). now intros k v t [Hr _].
    + rewrite Hm1', Hm1, Hm2. intros l Hl. apply elem_of_cons in Hl.
      destruct Hl as [->|Hl]; [left; apply list_elem_of_here |].
      apply list_elem_of_bind in Hl. destruct Hl as ([k v] & Hl & Hin). simpl in Hl.
      apply list_elem_of_lookup in Hin. destruct Hin as [i Hi].
      destruct (Forall2_lookup_l _ _ _ _ _ He' Hi) as ([k' t] & _ & _ & _ & Hb).
      simpl in Hb. destruct (Hb l Hl) as [H|(v0 & Hv0 & H)].
      * right. simpl in H. now rewrite Hm2 in H.
      * left. apply list_elem_of_further, list_elem_of_bind. exists (k, v0).
        split; [exact H | now apply dict_get_elem].
Qed.

End Frame.

(** C9, as amended: on two separate manifests of the store (the first a tree
    none of whose objects belongs to the second), the call returns its first
    argument, the second manifest reads afterwards as it read before, no
    object of the second manifest has changed, and no object at all has
    changed outside the first manifest. *)
Theorem merge_leaves_secondary (container_str : store -> loc -> string)
  (manifest1_name manifest2_name : string) (n fuel : nat) (st : store)
  (m1 m2 : loc) (path : list string) (d1 d2 : manifest) :
  (n <= fuel)%nat ->
  store_ok st ->
  read n st (VRef m1) = Some (MDict d1) ->
  read n st (VRef m2) = Some (MDict d2) ->
  separate n st m1 m2 ->
  exists st' out,
    merge_manifests_in_order container_str manifest1_name manifest2_name
      fuel st m1 m2 path = Run out (Return (st', m1)) /\
    read n st' (VRef m2) = Some (MDict d2) /\
    (forall l, l ∈ reach n st (VRef m2) -> st' !! l = st !! l) /\
    (forall l, l ∉ reach n st (VRef m1) -> st' !! l = st !! l).
Proof.
  intros Hle Hok H1 H2 Hsep.
  destruct (merge_frame container_str manifest1_name manifest2_name n fuel Hle
              st m1 m2 path Hok) as (st' & out & Hrun & _ & Hf); eauto using read_dict.
  exists st', out. split; [exact Hrun |].
  assert (Ha : forall l, l ∈ reach n st (VRef m2) -> st' !! l = st !! l).
  { intros l Hl. apply Hf. intros Hl1. now apply (proj2 Hsep l Hl1). }
  split; [| split; [exact Ha | exact Hf]].
  rewrite <- H2. now apply read_reach_agree.
Qed.

Lemma merge_leaves_secondary_witness :
  exists st' out,
    merge_manifests_in_order (fun _ _ => "") "user" "distro" 3 separate_manifests 1 3 [] =
      Run out (Return (st', 1%positive)) /\
    read 3 st' (VRef 3) =
      Some (MDict [("loader", MDict [("PATH", MStr "/y"); ("HOME", MStr "/")]);
                   ("libs", MList [MStr "a"])]).
Proof.
  destruct (merge_leaves_secondary (fun _ _ => "") "user" "distro" 3 3
              separate_manifests 1 3 []
              [("loader", MDict [("PATH", MStr "/x")]); ("debug", MBool true)]
              [("loader", MDict [("PATH", MStr "/y"); ("HOME", MStr "/")]);
               ("libs", MList [MStr "a"])])
    as (st' & out & Hrun & Hread & _).
  - lia.
  - unfold separate_manifests.
    repeat (apply store_ok_insert; [| simpl; try exact I; apply (bool_decide_unpack _); vm_compute; exact I]).
    apply store_ok_empty.
  - reflexivity.
  - reflexivity.
  - split.
    + apply (bool_decide_unpack _). vm_compute. exact I.
    + intros l Hl1 Hl2. vm_compute in Hl1, Hl2.
      apply list_elem_of_In in Hl1, Hl2. simpl in Hl1, Hl2.
      destruct Hl1 as [<-|[<-|[]]]; destruct Hl2 as [H|[H|[H|[]]]]; discriminate.
  - exists st', out. split; [exact Hrun | exact Hread].
Defined.

(** C9 as stated fails: a first call on separate manifests stores in the
    first the very list that the second holds; a second call on the same pair
    then extends that list, and the second manifest no longer reads as
    before. *)
Lemma merge_twice_changes_secondary :
  exists st1 st2,
    merge_manifests_in_order (fun _ _ => "") "user" "distro" 2 two_manifests 1 2 [] =
      Run [] (Return (st1, 1%positive)) /\
    merge_manifests_in_order (fun _ _ => "") "user" "distro" 2 st1 1 2 [] =
      Run [] (Return (st2, 1%positive)) /\
    read 2 st1 (VRef 2) = Some (MDict [("a", MList [MInt 1])]) /\
    read 2 st2 (VRef 2) = Some (MDict [("a", MList [MInt 1; MInt 1])]) /\
    read 2 st2 (VRef 2) <> read 2 st1 (VRef 2).
Proof.
  exists (<[1%positive := ODict [("a", VRef 3)]]> two_manifests),
         (<[3%positive := OList [VInt 1; VInt 1]]>
            (<[1%positive := ODict [("a", VRef 3)]]> two_manifests)).
  repeat split; try (vm_compute; reflexivity).
  vm_compute. discriminate.
Qed.

(** X30: on separate manifests the two readings of the merger agree: the
    call on the store prints the warnings of the merger on values, leaves the
    first manifest standing for the merged value, and the second as it was. *)
Theorem merge_store_values (container_str : store -> loc -> string)
  (value_str : manifest_value -> string) (manifest1_name manifest2_name : string)
  (n fuel : nat) (st : store) (m1 m2 : loc) (path : list string) (d1 d2 : manifest) :
  (forall k st l t, read k st (VRef l) = Some t -> container_str st l = value_str t) ->
  (n <= fuel)%nat ->
  store_ok st ->
  read n st (VRef m1) = Some (MDict d1) ->
  read n st (VRef m2) = Some (MDict d2) ->
  separate n st m1 m2 ->
  exists st',
    merge_manifests_in_order container_str manifest1_name manifest2_name
      fuel st m1 m2 path =
      Run (Values.merge_manifests_in_order value_str manifest1_name manifest2_name
             d1 d2 path).2 (Return (st', m1)) /\
    read n st' (VRef m1) =
      Some (MDict (Values.merge_manifests_in_order value_str manifest1_name
                     manifest2_name d1 d2 path).1) /\
    read n st' (VRef m2) = Some (MDict d2).
Proof.
  intros Hstr Hle Hok H1 H2 Hsep.
  destruct (merge_refines container_str manifest1_name manifest2_name value_str Hstr
              n fuel Hle st m1 m2 path d1 d2 Hok H1 H2 Hsep) as (st' & Hrun & Hr1 & _).
  destruct (merge_frame container_str manifest1_name manifest2_name n fuel Hle
              st m1 m2 path Hok (read_dict _ _ _ _ H1) (read_dict _ _ _ _ H2)
              (ex_intro _ _ H1) Hsep) as (st'' & out & Hrun' & _ & Hf).
  rewrite Hrun in Hrun'. injection Hrun' as _ <-.
  exists st'. split; [exact Hrun |]. split; [exact Hr1 |].
  rewrite <- H2. apply read_reach_agree. intros l Hl. apply Hf.
  intros Hl1. now apply (proj2 Hsep l Hl1).
Qed.

(** With an empty second manifest the call changes nothing on the store,
    whatever the store. *)
Lemma merge_empty_store (container_str : store -> loc -> string)
  (manifest1_name manifest2_name : string) (fuel : nat) (st : store) (m1 m2 : loc)
  (path : list string) :
  st !! m2 = Some (ODict []) ->
  merge_manifests_in_order container_str manifest1_name manifest2_name
    (S fuel) st m1 m2 path = Run [] (Return (st, m1)).
Proof.
  intros H. cbn [merge_manifests_in_order]. rewrite H.
  change ([].*1) with (@nil string). cbn [merge_keys]. now rewrite H.
Qed.

End HeapFacts.

(** * Further properties of the code *)

(** ** The binary descriptor, beyond the command *)

Lemma binary_arguments_field (config config' : image_config) (info : binary_info) :
  result (extract_binary_info_from_image_config config) = Return (config', info) ->
  let e := or_list (Entrypoint config) in
  let c := or_list (Cmd config) in
  binary_arguments info = if (1 <? length e)%nat
                          then ArgList (slice 1 (length e) (e ++ c))
                          else ArgStr "".
Proof.
  unfold extract_binary_info_from_image_config.
  destruct (or_list (Entrypoint config) ++ or_list (Cmd config)) as [|first rest] eqn:E;
    [discriminate |].
  destruct (1 <? length (or_list (Entrypoint config)))%nat; cbv zeta;
    intros [= _ <-]; reflexivity.
Qed.

Lemma binary_arguments_drop (config config' : image_config) (info : binary_info) :
  result (extract_binary_info_from_image_config config) = Return (config', info) ->
  args_items (binary_arguments info) = drop 1 (or_list (Entrypoint config)).
Proof.
  intros H. rewrite (binary_arguments_field _ _ _ H). clear H.
  generalize (or_list (Entrypoint config)) (or_list (Cmd config)).
  intros e c. destruct e as [|x [|y e]]; try reflexivity.
  change (1 <? length (x :: y :: e))%nat with true. cbv iota.
  unfold slice, args_items. simpl drop. simpl length.
  replace (S (S (length e)) - 1)%nat with (length (y :: e)) by (simpl; lia).
  change (y :: e ++ c) with ((y :: e) ++ c). now rewrite take_app_length.
Qed.

Lemma configuration_fields (config config' : image_config) (info : binary_info) :
  result (extract_binary_info_from_image_config config) = Return (config', info) ->
  Cmd config' = Cmd config /\
  WorkingDir config' = WorkingDir config /\
  Env config' = Env config /\
  User config' = User config /\
  (or_list (Entrypoint config) = [] -> config' = config) /\
  (or_list (Entrypoint config) <> [] ->
   Entrypoint config' = Some (or_list (Entrypoint config) ++ or_list (Cmd config))).
Proof.
  unfold extract_binary_info_from_image_config.
  destruct (or_list (Entrypoint config) ++ or_list (Cmd config)) as [|first rest] eqn:E;
    [discriminate |].
  destruct (1 <? length (or_list (Entrypoint config)))%nat; cbv zeta;
    intros [= <- _]; destruct (or_list (Entrypoint config)) as [|x e] eqn:Ee;
    repeat split; try reflexivity; try congruence.
Qed.

(** X1: the fixed arguments of the binary are the original entrypoint without
    its first element, whatever the command is. *)
Theorem binary_arguments_items (config config' : image_config) (info : binary_info) :
  result (extract_binary_info_from_image_config config) = Return (config', info) ->
  args_items (binary_arguments info) = drop 1 (or_list (Entrypoint config)).
Proof. apply binary_arguments_drop. Qed.

Lemma binary_arguments_items_witness :
  args_items (ArgList ["-jar"; "app.jar"]) = drop 1 (or_list (Some ["java"; "-jar"; "app.jar"])).
Proof.
  exact (binary_arguments_items
           (ImageConfig (Some ["java"; "-jar"; "app.jar"]) (Some ["--port"; "80"]) None None None)
           (ImageConfig (Some ["java"; "-jar"; "app.jar"; "--port"; "80"])
                        (Some ["--port"; "80"]) None None None)
           (BinaryInfo "java" (ArgList ["-jar"; "app.jar"]) "java" (ArgList ["80"]) "/")
           eq_refl).
Defined.

(** X2: what the call does to the configuration it is given: a non-empty
    entrypoint list is extended in place by the command, and nothing else
    changes; with an empty or absent entrypoint the configuration is left as
    it is. *)
Theorem configuration_after_call (config config' : image_config) (info : binary_info) :
  result (extract_binary_info_from_image_config config) = Return (config', info) ->
  Cmd config' = Cmd config /\
  WorkingDir config' = WorkingDir config /\
  Env config' = Env config /\
  User config' = User config /\
  (or_list (Entrypoint config) = [] -> config' = config) /\
  (or_list (Entrypoint config) <> [] ->
   Entrypoint config' = Some (or_list (Entrypoint config) ++ or_list (Cmd config))).
Proof. apply configuration_fields. Qed.

Lemma configuration_after_call_witness :
  Entrypoint (ImageConfig (Some ["sh"; "-c"; "run"]) (Some ["run"]) None None None) =
  Some (or_list (Some ["sh"; "-c"]) ++ or_list (Some ["run"])).
Proof.
  refine (proj2 (proj2 (proj2 (proj2 (proj2 (configuration_after_call
            (ImageConfig (Some ["sh"; "-c"]) (Some ["run"]) None None None)
            (ImageConfig (Some ["sh"; "-c"; "run"]) (Some ["run"]) None None None)
            (BinaryInfo "sh" (ArgList ["-c"]) "sh" (ArgStr "") "/")
            eq_refl))))) _).
  discriminate.
Defined.

(** X3: a second call on the configuration left by a first call takes the
    command for fixed arguments: its fixed arguments are those of the first
    call followed by the whole command, and its binary is the same. *)
Theorem second_call_absorbs_command (config config1 config2 : image_config)
  (info1 info2 : binary_info) :
  result (extract_binary_info_from_image_config config) = Return (config1, info1) ->
  result (extract_binary_info_from_image_config config1) = Return (config2, info2) ->
  or_list (Entrypoint config) <> [] ->
  args_items (binary_arguments info2) =
    args_items (binary_arguments info1) ++ or_list (Cmd config) /\
  binary info2 = binary info1.
Proof.
  intros H1 H2 Hne.
  destruct (configuration_fields _ _ _ H1) as (Hc & Hw & _ & _ & _ & He).
  specialize (He Hne). split.
  - rewrite (binary_arguments_drop _ _ _ H2), (binary_arguments_drop _ _ _ H1), He.
    destruct (or_list (Entrypoint config)) as [|x e]; [contradiction |].
    destruct (or_list (Cmd config)) as [|y c] eqn:Ec.
    + simpl. now rewrite !app_nil_r.
    + destruct e; reflexivity.
  - revert H1 H2. unfold extract_binary_info_from_image_config. rewrite He, Hc, Hw.
    destruct (or_list (Entrypoint config)) as [|x e]; [contradiction |].
    assert (Ho : or_list (Some ((x :: e) ++ or_list (Cmd config))) =
                 (x :: e) ++ or_list (Cmd config)) by reflexivity.
    rewrite Ho. simpl app.
    destruct (1 <? length (x :: e))%nat,
             (1 <? length (x :: e ++ or_list (Cmd config)))%nat;
      cbv zeta; intros [= _ <-] [= _ <-]; reflexivity.
Qed.

Lemma second_call_absorbs_command_witness :
  args_items (ArgList ["-c"; "run"]) = args_items (ArgList ["-c"]) ++ or_list (Some ["run"]) /\
  "sh" = "sh".
Proof.
  refine (second_call_absorbs_command
            (ImageConfig (Some ["sh"; "-c"]) (Some ["run"]) None None None)
            (ImageConfig (Some ["sh"; "-c"; "run"]) (Some ["run"]) None None None)
            (ImageConfig (Some ["sh"; "-c"; "run"; "run"]) (Some ["run"]) None None None)
            (BinaryInfo "sh" (ArgList ["-c"]) "sh" (ArgStr "") "/")
            (BinaryInfo "sh" (ArgList ["-c"; "run"]) "sh" (ArgStr "") "/")
            eq_refl eq_refl _).
  discriminate.
Defined.

Lemma occurs_dec (c : ascii) (s : string) : occurs c s \/ ~ occurs c s.
Proof.
  destruct (str_in (str1 c) s) eqn:E.
  - left. now apply str_in_char_spec.
  - right. now apply str_in_char_false.
Qed.

Lemma occurs_cons (c x : ascii) (s : string) :
  occurs c (String x s) <-> x = c \/ occurs c s.
Proof.
  split.
  - intros (b & a & H). destruct b as [|y b]; simpl in H; injection H as -> ->.
    + now left.
    + right. now exists b, a.
  - intros [->|(b & a & ->)]; [now exists "", s | now exists (String x b), a].
Qed.

Lemma basename_from_plain (acc s : string) :
  ~ occurs slash s -> basename_from acc s = acc.
Proof.
  revert acc. induction s as [|c s IH]; intros acc H; [reflexivity |]. simpl.
  rewrite occurs_cons in H. destruct (Ascii.eqb_spec c slash) as [->|Hc].
  - exfalso. apply H. now left.
  - apply IH. intros Hs. apply H. now right.
Qed.

Lemma basename_from_split (acc s : string) :
  occurs slash s ->
  exists dir, s = dir +:+ "/" +:+ basename_from acc s /\
              ~ occurs slash (basename_from acc s).
Proof.
  revert acc. induction s as [|c s IH]; intros acc H.
  - destruct H as (b & a & H). destruct b; discriminate.
  - simpl. destruct (Ascii.eqb_spec c slash) as [->|Hc].
    + destruct (occurs_dec slash s) as [Hs|Hs].
      * destruct (IH s Hs) as (dir & Hd & Hn). exists (String slash dir).
        split; [simpl; f_equal; exact Hd | exact Hn].
      * rewrite (basename_from_plain s s Hs). exists "". split; [reflexivity | exact Hs].
    + apply occurs_cons in H. destruct H as [H|H]; [contradiction |].
      destruct (IH acc H) as (dir & Hd & Hn). exists (String c dir).
      split; [simpl; f_equal; exact Hd | exact Hn].
Qed.

(** X4: the base name stored with the binary holds no separator, and the
    binary is that base name behind a directory part that is empty or ends
    with the separator. *)
Theorem binary_basename_split (config config' : image_config) (info : binary_info) :
  result (extract_binary_info_from_image_config config) = Return (config', info) ->
  ~ occurs slash (binary_basename info) /\
  exists dir, binary info = dir +:+ binary_basename info /\
              (dir = "" \/ ends_with_slash dir).
Proof.
  intros H.
  assert (Hb : binary_basename info = basename (binary info)).
  { revert H. unfold extract_binary_info_from_image_config.
    destruct (or_list (Entrypoint config) ++ or_list (Cmd config)); [discriminate |].
    destruct (1 <? length (or_list (Entrypoint config)))%nat; cbv zeta;
      intros [= _ <-]; reflexivity. }
  rewrite Hb. unfold basename. generalize (binary info). clear. intros p.
  destruct (occurs_dec slash p) as [Hs|Hs].
  - destruct (basename_from_split p p Hs) as (dir & Hd & Hn). split; [exact Hn |].
    exists (dir +:+ "/"). split.
    + now rewrite append_assoc.
    + right. now exists dir.
  - rewrite (basename_from_plain p p Hs). split; [exact Hs |]. exists "". auto.
Qed.

Lemma binary_basename_split_witness :
  ~ occurs slash "run" /\
  exists dir, "/srv/bin/run" = dir +:+ "run" /\ (dir = "" \/ ends_with_slash dir).
Proof.
  exact (binary_basename_split
           (ImageConfig (Some ["bin/run"]) (Some ["--fast"]) (Some "/srv") None None)
           (ImageConfig (Some ["bin/run"; "--fast"]) (Some ["--fast"]) (Some "/srv") None None)
           (BinaryInfo "/srv/bin/run" (ArgStr "") "run" (ArgList ["--fast"]) "/srv/")
           eq_refl).
Defined.

Lemma canonize_working_dir_fixed (w : string) :
  ends_with_slash w -> canonize_working_dir w = w.
Proof.
  intros Hw. destruct (canonize_working_dir_cases w) as [[-> _]|[[_ H]|(_ & H & _)]].
  - destruct Hw as [b Hb]. destruct b; discriminate.
  - exact H.
  - contradiction.
Qed.

Lemma binary_path_resolution_facts (config config' : image_config) (info : binary_info) :
  result (extract_binary_info_from_image_config config) = Return (config', info) ->
  working_dir info = canonize_working_dir (or_str (WorkingDir config)) /\
  ends_with_slash (canonize_working_dir (or_str (WorkingDir config))).
Proof.
  unfold extract_binary_info_from_image_config.
  destruct (or_list (Entrypoint config) ++ or_list (Cmd config)); [discriminate |].
  destruct (1 <? length (or_list (Entrypoint config)))%nat; cbv zeta;
    intros [= _ <-]; (split; [reflexivity | apply canonize_working_dir_slash]).
Qed.

(** X5: the working directory of the descriptor is canonical: it is never
    empty, it ends with the separator, and canonicalizing it again leaves it
    as it is. *)
Theorem working_dir_canonical (config config' : image_config) (info : binary_info) :
  result (extract_binary_info_from_image_config config) = Return (config', info) ->
  working_dir info <> "" /\
  ends_with_slash (working_dir info) /\
  canonize_working_dir (working_dir info) = working_dir info.
Proof.
  intros H. destruct (binary_path_resolution_facts config config' info H) as [-> Hs].
  split; [| split; [exact Hs | now apply canonize_working_dir_fixed]].
  destruct Hs as [b Hb]. rewrite Hb. destruct b; discriminate.
Qed.

Lemma working_dir_canonical_witness :
  "/srv/" <> "" /\ ends_with_slash "/srv/" /\ canonize_working_dir "/srv/" = "/srv/".
Proof.
  exact (working_dir_canonical
           (ImageConfig (Some ["bin/run"]) (Some ["--fast"]) (Some "/srv") None None)
           (ImageConfig (Some ["bin/run"; "--fast"]) (Some ["--fast"]) (Some "/srv") None None)
           (BinaryInfo "/srv/bin/run" (ArgStr "") "run" (ArgList ["--fast"]) "/srv/")
           eq_refl).
Defined.

Lemma is_absolute_cons (c : ascii) (s : string) : is_absolute (String c s) <-> c = slash.
Proof.
  split; [intros [r [= -> _]]; reflexivity | intros ->; now exists s].
Qed.

Lemma is_absolute_app (a b : string) :
  a <> "" -> (is_absolute (a +:+ b) <-> is_absolute a).
Proof.
  destruct a as [|c a]; [congruence |]. intros _. simpl. now rewrite !is_absolute_cons.
Qed.

Lemma ends_with_slash_nonempty (p : string) : ends_with_slash p -> p <> "".
Proof. intros [b ->]. destruct b; discriminate. Qed.

Lemma canonize_working_dir_absolute (w : string) :
  is_absolute (canonize_working_dir w) <-> w = "" \/ is_absolute w.
Proof.
  destruct (canonize_working_dir_cases w) as [[-> ->]|[[Hw ->]|(Hw & _ & ->)]].
  - split; [now left | intros _; now exists ""].
  - split; [now right | intros [->|H]; [| exact H]].
    now apply ends_with_slash_nonempty in Hw.
  - rewrite is_absolute_app by exact Hw. split; [now right | now intros [->|H]].
Qed.

Lemma binary_field (config config' : image_config) (info : binary_info)
  (first : string) (rest : list string) :
  result (extract_binary_info_from_image_config config) = Return (config', info) ->
  or_list (Entrypoint config) ++ or_list (Cmd config) = first :: rest ->
  binary info =
    if negb (startswith "/" first) && str_in "/" first
    then canonize_working_dir (or_str (WorkingDir config)) +:+ first
    else first.
Proof.
  unfold extract_binary_info_from_image_config. intros H E. rewrite E in H. revert H.
  destruct (1 <? length (or_list (Entrypoint config)))%nat; cbv zeta;
    intros [= _ <-]; reflexivity.
Qed.

(** X6: when the working directory of the image is unset or absolute, a
    binary named with a separator comes out absolute; under a relative
    working directory a relative binary with a separator stays relative. *)
Theorem binary_absolute (config config' : image_config) (info : binary_info)
  (first : string) (rest : list string) :
  result (extract_binary_info_from_image_config config) = Return (config', info) ->
  or_list (Entrypoint config) ++ or_list (Cmd config) = first :: rest ->
  occurs slash first ->
  (or_str (WorkingDir config) = "" \/ is_absolute (or_str (WorkingDir config)) ->
   is_absolute (binary info)) /\
  (or_str (WorkingDir config) <> "" -> ~ is_absolute (or_str (WorkingDir config)) ->
   ~ is_absolute first -> ~ is_absolute (binary info)).
Proof.
  intros H E Hs. rewrite (binary_field _ _ _ _ _ H E).
  apply (str_in_char_spec slash) in Hs. change (str1 slash) with "/" in Hs. rewrite Hs.
  rewrite andb_true_r. destruct (startswith "/" first) eqn:Ea; simpl negb; cbv iota.
  - apply startswith_slash_spec in Ea. split; [intros _; exact Ea | intros _ _ Hn].
    contradiction.
  - rewrite is_absolute_app
      by apply ends_with_slash_nonempty, canonize_working_dir_slash.
    rewrite canonize_working_dir_absolute. split; [auto |].
    intros Hw Hn _ [Hc|Hc]; contradiction.
Qed.

Lemma binary_absolute_witness :
  is_absolute "/srv/bin/run" /\ ~ is_absolute "srv/bin/run".
Proof.
  split.
  - refine (proj1 (binary_absolute
      (ImageConfig (Some ["bin/run"]) (Some ["--fast"]) (Some "/srv") None None)
      (ImageConfig (Some ["bin/run"; "--fast"]) (Some ["--fast"]) (Some "/srv") None None)
      (BinaryInfo "/srv/bin/run" (ArgStr "") "run" (ArgList ["--fast"]) "/srv/")
      "bin/run" ["--fast"] eq_refl eq_refl _) _).
    + now exists "bin", "run".
    + right. now exists "srv".
  - refine (proj2 (binary_absolute
      (ImageConfig (Some ["bin/run"]) (Some ["--fast"]) (Some "srv") None None)
      (ImageConfig (Some ["bin/run"; "--fast"]) (Some ["--fast"]) (Some "srv") None None)
      (BinaryInfo "srv/bin/run" (ArgStr "") "run" (ArgList ["--fast"]) "srv/")
      "bin/run" ["--fast"] eq_refl eq_refl _) _ _ _).
    + now exists "bin", "run".
    + discriminate.
    + intros [r Hr]. discriminate.
    + intros [r Hr]. discriminate.
Defined.

(** ** The environment block, beyond its lines *)

(** X7: escaping loses nothing and cannot be broken out of: the escaped text
    is made of escape pairs and plain characters only, reading it back gives
    the original, and so two different values never share an escaped form. *)
Theorem escaping_round_trip :
  (forall s, well_escaped (translate escape_table s) = true) /\
  (forall s, unescaped (translate escape_table s) = s) /\
  (forall a b, translate escape_table a = translate escape_table b -> a = b).
Proof.
  assert (Hr : forall s, unescaped (translate escape_table s) = s).
  { intros s. rewrite translate_escaped.
    induction s as [|c s IH]; [reflexivity |]. simpl.
    destruct (Ascii.eqb_spec c backslash) as [->|Hb].
    - simpl. now rewrite IH.
    - destruct (Ascii.eqb_spec c dquote) as [->|Hq].
      + simpl. now rewrite IH.
      + simpl. rewrite (proj2 (Ascii.eqb_neq c backslash) Hb). now rewrite IH. }
  split; [| split; [exact Hr |]].
  - intros s. rewrite translate_escaped.
    induction s as [|c s IH]; [reflexivity |]. simpl.
    destruct (Ascii.eqb_spec c backslash) as [->|Hb].
    + simpl. exact IH.
    + destruct (Ascii.eqb_spec c dquote) as [->|Hq].
      * simpl. exact IH.
      * simpl. rewrite (proj2 (Ascii.eqb_neq c backslash) Hb).
        now rewrite (proj2 (Ascii.eqb_neq c dquote) Hq).
  - intros a b H. rewrite <- (Hr a), <- (Hr b). now rewrite H.
Qed.

Lemma count_char_app (c : ascii) (a b : string) :
  count_char c (a +:+ b) = (count_char c a + count_char c b)%nat.
Proof. induction a as [|x a IH]; simpl; [reflexivity | rewrite IH; lia]. Qed.

Lemma count_char_none (c : ascii) (s : string) :
  str_in (str1 c) s = false -> count_char c s = 0%nat.
Proof.
  induction s as [|x s IH]; [reflexivity |]. simpl.
  rewrite (Ascii.eqb_sym c x). destruct (Ascii.eqb x c); simpl; [discriminate | exact IH].
Qed.

Lemma str_in_app_false (c : ascii) (a b : string) :
  str_in (str1 c) (a +:+ b) = false ->
  str_in (str1 c) a = false /\ str_in (str1 c) b = false.
Proof.
  intros H. apply str_in_char_false in H. split; apply str_in_char_false.
  - intros (x & y & ->). apply H. exists x, (y +:+ b). now rewrite append_assoc.
  - intros (x & y & ->). apply H. exists (a +:+ x), y. now rewrite append_assoc.
Qed.

Lemma concat_str_cons (x : string) (l : list string) :
  concat_str (x :: l) = x +:+ concat_str l.
Proof. reflexivity. Qed.

(** An emitted line holds exactly one line feed, its last character. *)
Lemma env_line_one_newline (name value : string) :
  has_newline (env_entry (name, value)) = false ->
  count_char newline (env_line (escaped name) (escaped value)) = 1%nat.
Proof.
  unfold has_newline, env_entry. simpl fst. simpl snd. intros H.
  apply str_in_app_false in H. destruct H as [Hn Hv].
  assert (Hv' : str_in (str1 newline) value = false).
  { apply str_in_char_false. apply str_in_char_false in Hv. intros Ho. apply Hv.
    apply occurs_cons. now right. }
  unfold env_line. rewrite !count_char_app.
  rewrite (count_char_none newline (escaped name))
    by (rewrite str_in_escaped by discriminate; exact Hn).
  rewrite (count_char_none newline (escaped value))
    by (rewrite str_in_escaped by discriminate; exact Hv').
  reflexivity.
Qed.

(** X8: the block holds one line feed per entry kept, so that it is made of
    as many lines as there are entries without line break, and one warning
    is printed per entry left out. *)
Theorem environment_block_line_count (config : image_config)
  (entries : list (string * string)) :
  or_list (Env config) = env_entry <$> entries ->
  Forall (fun nv => ~ occurs equals (fst nv)) entries ->
  exists out text,
    extract_environment_from_image_config config = Run out (Return text) /\
    count_char newline text =
      length (List.filter (fun nv => negb (has_newline (env_entry nv))) entries) /\
    (length out + count_char newline text = length entries)%nat.
Proof.
  intros He Hn. unfold extract_environment_from_image_config. rewrite He.
  rewrite extract_environment_loop_entries by exact Hn. eexists _, _.
  split; [reflexivity |]. clear. simpl String.append.
  assert (Hc : count_char newline
            (concat_str ((fun nv => env_line (escaped nv.1) (escaped nv.2)) <$>
               List.filter (fun nv => negb (has_newline (env_entry nv))) entries)) =
          length (List.filter (fun nv => negb (has_newline (env_entry nv))) entries)).
  { induction entries as [|[name value] entries IH]; [reflexivity |]. simpl List.filter.
    destruct (has_newline (env_entry (name, value))) eqn:E; simpl negb; cbv iota;
      [exact IH |].
    rewrite fmap_cons, concat_str_cons, count_char_app, IH.
    simpl fst. simpl snd. now rewrite env_line_one_newline. }
  split; [exact Hc |]. rewrite Hc, length_fmap. clear.
  induction entries as [|nv entries IH]; [reflexivity |]. simpl.
  destruct (has_newline (env_entry nv)); simpl; lia.
Qed.

Lemma environment_block_line_count_witness :
  exists out text,
    extract_environment_from_image_config
      (ImageConfig None None None
         (Some ["A=1"; "B=x" +:+ str1 newline +:+ "y"; "C=3"]) None) =
      Run out (Return text) /\
    count_char newline text = 2%nat /\
    (length out + count_char newline text = 3)%nat.
Proof.
  refine (environment_block_line_count
            (ImageConfig None None None
               (Some ["A=1"; "B=x" +:+ str1 newline +:+ "y"; "C=3"]) None)
            [("A", "1"); ("B", "x" +:+ str1 newline +:+ "y"); ("C", "3")] eq_refl _).
  repeat constructor; apply str_in_char_false; reflexivity.
Defined.

(** ** The merger on values, beyond conflicts of scalars *)

Lemma dict_set_absent {V} (key : string) (v : V) (d : list (string * V)) :
  dict_get key d = None -> dict_set key v d = d ++ [(key, v)].
Proof.
  induction d as [|[k x] d IH]; [reflexivity |]. cbn [dict_get dict_set].
  destruct (String.eqb k key); [discriminate |]. intros H. now rewrite IH.
Qed.

Lemma dict_get_elem_fst {V} (key : string) (v : V) (d : list (string * V)) :
  dict_get key d = Some v -> key ∈ d.*1.
Proof.
  intros H. apply list_elem_of_fmap. exists (key, v).
  split; [reflexivity | now apply HeapFacts.dict_get_elem].
Qed.

Lemma filter_absent_ext (l1 l2 keys : list string) :
  (forall k, k ∈ keys -> (k ∈ l1 <-> k ∈ l2)) ->
  filter (fun k => k ∉ l1) keys = filter (fun k => k ∉ l2) keys.
Proof.
  induction keys as [|k keys IH]; intros H; [reflexivity |].
  rewrite !filter_cons. rewrite IH by (intros k' Hk'; apply H; now right).
  pose proof (H k (list_elem_of_here _ _)) as Hk.
  destruct (decide (k ∉ l1)), (decide (k ∉ l2)); tauto.
Qed.

Section MergeValuesMore.

Import Values.

Variable container_str : manifest_value -> string.
Variables manifest1_name manifest2_name : string.

Local Abbreviation merge :=
  (merge_manifests_in_order container_str manifest1_name manifest2_name).
Local Abbreviation merge_value' := (merge_value container_str manifest1_name manifest2_name).
Local Abbreviation merge_item' := (merge_item container_str manifest1_name manifest2_name).

Lemma merge_item_keys (path : list string) (manifest1 : manifest) (key : string)
  (value2 : manifest_value) :
  (merge_item' path manifest1 key value2).1.*1 =
    if decide (key ∈ manifest1.*1) then manifest1.*1 else manifest1.*1 ++ [key].
Proof.
  unfold merge_item. destruct (dict_get key manifest1) as [v1|] eqn:E.
  - destruct (merge_value _ _ _ _ _ v1 value2) as [v out]. simpl.
    rewrite HeapFacts.dict_set_keys, E.
    destruct (decide (key ∈ manifest1.*1)) as [|Hn]; [reflexivity |].
    exfalso. apply Hn. apply dict_get_elem_fst with v1. exact E.
  - simpl. rewrite HeapFacts.dict_set_keys, E.
    destruct (decide (key ∈ manifest1.*1)) as [Hin|]; [| reflexivity].
    now apply dict_get_None in E.
Qed.

(** X9: the keys of the merged manifest are those of the first manifest, in
    their order, followed by the keys that only the second one has, in their
    order there; if the first manifest held each key once, so does the merged
    one. *)
Theorem merge_keys_order (manifest1 manifest2 : manifest) (path : list string) :
  NoDup manifest2.*1 ->
  (merge_manifests_in_order container_str manifest1_name manifest2_name
     manifest1 manifest2 path).1.*1 =
    manifest1.*1 ++ filter (fun k => k ∉ manifest1.*1) manifest2.*1 /\
  (NoDup manifest1.*1 ->
   NoDup (merge_manifests_in_order container_str manifest1_name manifest2_name
            manifest1 manifest2 path).1.*1).
Proof.
  intros Hnd.
  assert (Hk : (merge manifest1 manifest2 path).1.*1 =
               manifest1.*1 ++ filter (fun k => k ∉ manifest1.*1) manifest2.*1).
  { revert manifest1. induction manifest2 as [|[key v2] rest IH]; intros manifest1.
    - simpl. now rewrite app_nil_r.
    - rewrite fmap_cons in Hnd. apply NoDup_cons in Hnd. destruct Hnd as [Hkey Hnd].
      rewrite merge_cons. cbn [fst]. rewrite (IH Hnd), merge_item_keys, fmap_cons.
      rewrite filter_cons. simpl fst.
      destruct (decide (key ∈ manifest1.*1)) as [Hin|Hn].
      + destruct (decide (key ∉ manifest1.*1)); [contradiction | reflexivity].
      + destruct (decide (key ∉ manifest1.*1)); [| contradiction].
        rewrite <- app_assoc. simpl. f_equal. f_equal. apply filter_absent_ext.
        intros k Hk. rewrite elem_of_app, list_elem_of_singleton.
        split; [intros [H | ->]; [exact H | contradiction] | now left]. }
  split; [exact Hk |]. intros Hnd1. rewrite Hk. apply NoDup_app.
  split; [exact Hnd1 |]. split.
  - intros k Hk1 Hk2. apply list_elem_of_filter in Hk2. now destruct Hk2.
  - now apply NoDup_filter.
Qed.

(** X10: two manifests without a common key merge into the items of the
    first followed by the items of the second, and nothing is printed. *)
Theorem merge_disjoint (manifest1 manifest2 : manifest) (path : list string) :
  NoDup manifest2.*1 ->
  (forall k, k ∈ manifest2.*1 -> k ∉ manifest1.*1) ->
  merge_manifests_in_order container_str manifest1_name manifest2_name
    manifest1 manifest2 path = (manifest1 ++ manifest2, []).
Proof.
  revert manifest1. induction manifest2 as [|[key v2] rest IH]; intros manifest1 Hnd Hd.
  - simpl. now rewrite app_nil_r.
  - rewrite fmap_cons in Hnd, Hd. apply NoDup_cons in Hnd. destruct Hnd as [Hkey Hnd].
    assert (Hg : dict_get key manifest1 = None).
    { apply dict_get_None. apply Hd. apply list_elem_of_here. }
    rewrite merge_cons. unfold merge_item. rewrite Hg. cbn [fst snd].
    rewrite dict_set_absent by exact Hg. rewrite IH.
    + simpl. now rewrite <- app_assoc.
    + exact Hnd.
    + intros k Hk. rewrite fmap_app, elem_of_app. intros [H|H].
      * apply (Hd k); [now apply list_elem_of_further | exact H].
      * apply list_elem_of_singleton in H. simpl in H. subst k. contradiction.
Qed.

(** X11: where every item of the second manifest meets, under the same key
    of the first, an equal scalar, the merge changes nothing and prints
    nothing. *)
Theorem merge_equal_scalars (manifest1 manifest2 : manifest) (path : list string) :
  (forall k v2, (k, v2) ∈ manifest2 ->
     exists v1, dict_get k manifest1 = Some v1 /\
                is_scalar v1 /\ is_scalar v2 /\ py_eq v1 v2 = true) ->
  merge manifest1 manifest2 path = (manifest1, []).
Proof.
  induction manifest2 as [|[key v2] rest IH]; intros H; [reflexivity |].
  destruct (H key v2 (list_elem_of_here _ _)) as (v1 & Hg & Hs1 & Hs2 & He).
  rewrite merge_cons. unfold merge_item. rewrite Hg.
  assert (Hv : merge_value' path key v1 v2 = (v1, [])).
  { destruct v1, v2; try contradiction; simpl in He |- *; now rewrite He. }
  rewrite Hv. cbn [fst snd]. rewrite (HeapFacts.dict_set_same key v1 manifest1 Hg).
  rewrite IH; [reflexivity |]. intros k v Hin. apply H. now apply list_elem_of_further.
Qed.

(** X12: a key that only the second manifest holds enters the merged one
    with the value it has there; a key under which both hold mappings ends
    with the two mappings merged under the path extended by the key, and the
    warnings of that inner merge are printed. *)
Theorem merge_absent_and_nested (manifest1 manifest2 : manifest) (path : list string)
  (key : string) :
  NoDup manifest2.*1 ->
  (forall v2, dict_get key manifest1 = None -> dict_get key manifest2 = Some v2 ->
     dict_get key (merge manifest1 manifest2 path).1 = Some v2) /\
  (forall d1 d2, dict_get key manifest1 = Some (MDict d1) ->
     dict_get key manifest2 = Some (MDict d2) ->
     dict_get key (merge manifest1 manifest2 path).1 =
       Some (MDict (merge d1 d2 (path ++ [key])).1) /\
     (merge d1 d2 (path ++ [key])).2 ⊆ (merge manifest1 manifest2 path).2).
Proof.
  intros Hnd. split.
  - intros v2. revert manifest1.
    induction manifest2 as [|[k v] rest IH]; intros manifest1 H1 H2; [discriminate |].
    rewrite fmap_cons in Hnd. apply NoDup_cons in Hnd. destruct Hnd as [Hk Hnd].
    rewrite merge_cons. cbn [fst dict_get] in H2 |- *.
    destruct (String.eqb_spec k key) as [->|Hne].
    + injection H2 as ->. rewrite merge_other by exact Hk.
      unfold merge_item. rewrite H1. simpl. apply dict_get_set_eq.
    + apply IH; [exact Hnd | | exact H2]. now rewrite merge_item_other.
  - intros d1 d2 H1 H2.
    destruct (merge_both container_str manifest1_name manifest2_name
                manifest1 manifest2 path key _ _ Hnd H1 H2) as [Hg Hw].
    rewrite merge_value_dict in Hg, Hw. split; [exact Hg | exact Hw].
Qed.

(** X13: where one manifest holds a mapping or a list under a key and the
    other holds a value of another kind, the value of the first manifest
    stays, whole, and the overriding warning is printed; under [loader.env]
    and one of the three search-path variables the two values are joined as
    texts instead. *)
Theorem merge_kinds_differ (manifest1 manifest2 : manifest) (path : list string)
  (key : string) (value1 value2 : manifest_value) :
  NoDup manifest2.*1 ->
  dict_get key manifest1 = Some value1 ->
  dict_get key manifest2 = Some value2 ->
  kinds_differ value1 value2 ->
  (~ search_path_variable path key ->
   dict_get key (merge manifest1 manifest2 path).1 = Some value1 /\
   overriding_warning manifest1_name manifest2_name path key
     ∈ (merge manifest1 manifest2 path).2) /\
  (search_path_variable path key ->
   dict_get key (merge manifest1 manifest2 path).1 =
     Some (MStr (py_str container_str value1 +:+ ":" +:+ py_str container_str value2)) /\
   concatenating_warning manifest1_name manifest2_name path key
     ∈ (merge manifest1 manifest2 path).2).
Proof.
  intros Hnd H1 H2 Hk.
  destruct (merge_both container_str manifest1_name manifest2_name
              manifest1 manifest2 path key value1 value2 Hnd H1 H2) as [Hg Hw].
  assert (Hv : merge_value' path key value1 value2 =
               if concatenated_envvar path key
               then (MStr (py_str container_str value1 +:+ ":" +:+ py_str container_str value2),
                     [concatenating_warning manifest1_name manifest2_name path key])
               else (value1, [overriding_warning manifest1_name manifest2_name path key])).
  { destruct value1, value2; try contradiction; reflexivity. }
  rewrite Hv in Hg, Hw. split.
  - intros Hc. destruct (concatenated_envvar path key) eqn:E.
    + apply concatenated_envvar_spec in E. contradiction.
    + split; [exact Hg | apply Hw, list_elem_of_singleton; reflexivity].
  - intros Hc. apply concatenated_envvar_spec in Hc. rewrite Hc in Hg, Hw.
    split; [exact Hg | apply Hw, list_elem_of_singleton; reflexivity].
Qed.

End MergeValuesMore.

Lemma merge_keys_order_witness :
  (Values.merge_manifests_in_order (fun _ => "") "user" "distro"
     [("b", MInt 1); ("a", MInt 2)]
     [("c", MInt 3); ("a", MInt 4); ("d", MInt 5)] []).1.*1 =
    ["b"; "a"; "c"; "d"].
Proof.
  refine (proj1 (merge_keys_order (fun _ => "") "user" "distro"
                   [("b", MInt 1); ("a", MInt 2)]
                   [("c", MInt 3); ("a", MInt 4); ("d", MInt 5)] [] _)).
  apply (bool_decide_unpack _). vm_compute. exact I.
Defined.

Lemma merge_disjoint_witness :
  Values.merge_manifests_in_order (fun _ => "") "user" "distro"
    [("a", MInt 1)] [("b", MList [MInt 2]); ("c", MStr "x")] ["loader"] =
    ([("a", MInt 1); ("b", MList [MInt 2]); ("c", MStr "x")], []).
Proof.
  apply (merge_disjoint (fun _ => "") "user" "distro"
           [("a", MInt 1)] [("b", MList [MInt 2]); ("c", MStr "x")]).
  - apply (bool_decide_unpack _). vm_compute. exact I.
  - intros k Hk Hin. apply list_elem_of_In in Hk, Hin. simpl in Hk, Hin.
    destruct Hin as [<-|[]]. destruct Hk as [H|[H|[]]]; discriminate.
Defined.

Lemma merge_equal_scalars_witness :
  Values.merge_manifests_in_order (fun _ => "") "user" "distro"
    [("n", MInt 1); ("s", MStr "x"); ("t", MBool true)]
    [("t", MInt 1); ("n", MBool true); ("s", MStr "x")] [] =
    ([("n", MInt 1); ("s", MStr "x"); ("t", MBool true)], []).
Proof.
  apply (merge_equal_scalars (fun _ => "") "user" "distro").
  intros k v2 Hin. apply list_elem_of_In in Hin. simpl in Hin.
  destruct Hin as [[= <- <-]|[[= <- <-]|[[= <- <-]|[]]]]; eexists;
    (split; [reflexivity |]); repeat split.
Defined.

Lemma merge_absent_and_nested_witness :
  dict_get "libs"
    (Values.merge_manifests_in_order (fun _ => "") "user" "distro"
       [("sgx", MDict [("debug", MBool true)])]
       [("sgx", MDict [("size", MStr "1G")]); ("libs", MList [MStr "a"])] []).1 =
    Some (MList [MStr "a"]) /\
  dict_get "sgx"
    (Values.merge_manifests_in_order (fun _ => "") "user" "distro"
       [("sgx", MDict [("debug", MBool true)])]
       [("sgx", MDict [("size", MStr "1G")]); ("libs", MList [MStr "a"])] []).1 =
    Some (MDict (Values.merge_manifests_in_order (fun _ => "") "user" "distro"
                   [("debug", MBool true)] [("size", MStr "1G")] ["sgx"]).1).
Proof.
  assert (Hnd : NoDup [("sgx", MDict [("size", MStr "1G")]);
                       ("libs", MList [MStr "a"])].*1).
  { apply (bool_decide_unpack _). vm_compute. exact I. }
  split.
  - apply (proj1 (merge_absent_and_nested (fun _ => "") "user" "distro"
                    _ _ [] "libs" Hnd)); reflexivity.
  - apply (proj2 (merge_absent_and_nested (fun _ => "") "user" "distro"
                    _ _ [] "sgx" Hnd)); reflexivity.
Defined.

Lemma merge_kinds_differ_witness :
  dict_get "mounts"
    (Values.merge_manifests_in_order (fun _ => "") "user" "distro"
       [("mounts", MList [MStr "/tmp"])] [("mounts", MStr "all")] ["fs"]).1 =
    Some (MList [MStr "/tmp"]).
Proof.
  refine (proj1 (proj1 (merge_kinds_differ (fun _ => "") "user" "distro"
             [("mounts", MList [MStr "/tmp"])] [("mounts", MStr "all")] ["fs"]
             "mounts" (MList [MStr "/tmp"]) (MStr "all") _ eq_refl eq_refl I) _)).
  - apply (bool_decide_unpack _). vm_compute. exact I.
  - intros [H _]. discriminate.
Defined.

(** ** Truth values of configuration strings *)

Lemma casefold_digits (s : string) : all_digits s = true -> casefold s = s.
Proof.
  induction s as [|c s IH]; [reflexivity |]. simpl. intros H.
  apply andb_true_iff in H. destruct H as [Hc Hs]. rewrite (IH Hs). f_equal.
  unfold lower_char, is_upper. unfold Re.is_digit in Hc.
  apply andb_true_iff in Hc. destruct Hc as [_ Hc]. apply Nat.leb_le in Hc.
  replace (65 <=? nat_of_ascii c)%nat with false; [reflexivity |].
  symmetry. apply Nat.leb_gt. lia.
Qed.

Lemma digit_zero (c : ascii) :
  Re.is_digit c = true -> (digit_value c = 0%Z <-> c = "0"%char).
Proof.
  unfold Re.is_digit, digit_value. intros H. apply andb_true_iff in H.
  destruct H as [H1 H2]. apply Nat.leb_le in H1, H2. split.
  - intros H0. assert (Hn : nat_of_ascii c = 48%nat) by lia.
    rewrite <- (ascii_nat_embedding c), Hn. reflexivity.
  - intros ->. reflexivity.
Qed.

Lemma digit_value_nonneg (c : ascii) : (0 <= digit_value c)%Z.
Proof. unfold digit_value. lia. Qed.

Lemma int_of_digits_zero (s : string) (acc : Z) :
  all_digits s = true -> (0 <= acc)%Z ->
  (int_of_digits acc s =? 0)%Z = (acc =? 0)%Z && all_zeros s.
Proof.
  revert acc. induction s as [|c s IH]; intros acc Hd Ha; simpl.
  - now rewrite andb_true_r.
  - simpl in Hd. apply andb_true_iff in Hd. destruct Hd as [Hc Hs].
    pose proof (digit_value_nonneg c) as Hv.
    rewrite IH by (try assumption; lia).
    destruct (Ascii.eqb_spec c "0"%char) as [->|Hne].
    + change (digit_value "0") with 0%Z. rewrite Z.add_0_r.
      destruct (Z.eqb_spec acc 0) as [->|Hn]; [reflexivity |].
      destruct (Z.eqb_spec (10 * acc) 0); [lia | reflexivity].
    + assert (digit_value c <> 0%Z) by (intros H0; now apply digit_zero in H0).
      destruct (Z.eqb_spec (10 * acc + digit_value c) 0); [lia |].
      now rewrite andb_false_r.
Qed.

Lemma str_among_digit (c : ascii) (s : string) (words : list string) :
  Re.is_digit c = true ->
  Forall (fun w => match w with
                   | EmptyString => True
                   | String x _ => Re.is_digit x = false
                   end) words ->
  Forall (fun w => w <> "") words ->
  str_among (String c s) words = false.
Proof.
  intros Hc Hw Hn. unfold str_among. apply not_true_is_false. intros H.
  apply existsb_exists in H. destruct H as (w & Hin & He). apply String.eqb_eq in He.
  subst w. rewrite Forall_forall in Hw. apply list_elem_of_In, Hw in Hin. congruence.
Qed.

(** X14: a value made of digits, within the interpreter's default limit of
    4300 digits, is true unless every digit is a zero, and never an error,
    whatever its leading zeros. *)
Theorem test_trueish_digits (py_repr : string -> string) (value : string) :
  value <> "" -> all_digits value = true -> (String.length value <= 4300)%nat ->
  test_trueish py_repr (Some value) = Return (negb (all_zeros value)).
Proof.
  intros Hne Hd _. unfold test_trueish. destruct value as [|c s] eqn:E; [congruence |].
  rewrite <- E in *. rewrite (casefold_digits value Hd). rewrite E.
  assert (Hc : Re.is_digit c = true).
  { rewrite E in Hd. simpl in Hd. now apply andb_true_iff in Hd. }
  rewrite !str_among_digit; try exact Hc; try (repeat constructor; discriminate).
  rewrite <- E. unfold isdigit. rewrite E at 1. rewrite Hd. unfold py_int.
  rewrite int_of_digits_zero by (try assumption; lia). reflexivity.
Qed.

Lemma test_trueish_digits_witness :
  test_trueish (fun s => s) (Some "000") = Return false /\
  test_trueish (fun s => s) (Some "0010") = Return true.
Proof.
  split.
  - apply (test_trueish_digits (fun s => s) "000");
      [discriminate | reflexivity | simpl; lia].
  - apply (test_trueish_digits (fun s => s) "0010");
      [discriminate | reflexivity | simpl; lia].
Defined.

Lemma lower_upper_char (c : ascii) : lower_char (upper_char c) = lower_char c.
Proof.
  destruct c as [[] [] [] [] [] [] [] []]; reflexivity.
Qed.

Lemma casefold_upper (s : string) : casefold (str_upper s) = casefold s.
Proof.
  induction s as [|c s IH]; [reflexivity |]. simpl. now rewrite lower_upper_char, IH.
Qed.

(** X15: the outcome does not depend on the case of the letters: an ASCII
    value and its upper-case form are accepted, rejected or refused
    alike. *)
Theorem test_trueish_case (py_repr : string -> string) (value : string) :
  is_ascii value = true ->
  test_trueish py_repr (Some (str_upper value)) = test_trueish py_repr (Some value).
Proof.
  intros _. unfold test_trueish. destruct value as [|c s]; [reflexivity |].
  change (str_upper (String c s)) with (String (upper_char c) (str_upper s)).
  change (String (upper_char c) (str_upper s)) with (str_upper (String c s)) at 1 2 3 4 5 6.
  now rewrite casefold_upper.
Qed.

Lemma test_trueish_case_witness :
  test_trueish (fun s => s) (Some "YES") = test_trueish (fun s => s) (Some "Yes").
Proof.
  apply (test_trueish_case (fun s => s) "Yes"). reflexivity.
Defined.

(** ** Command-line arguments *)

Lemma split1_equals (item : string) :
  str_in "=" item = true ->
  exists name value,
    item = env_entry (name, value) /\ ~ occurs equals name /\
    split1 equals item = [name; value].
Proof.
  intros H. apply (str_in_char_spec equals) in H. apply occurs_first in H.
  destruct H as (name & value & -> & Hn). exists name, value.
  repeat split; [exact Hn | now apply split1_found].
Qed.

Lemma arg_key_entry (name value : string) :
  ~ occurs equals name -> arg_key (env_entry (name, value)) = name.
Proof. intros H. unfold arg_key, env_entry. simpl. now rewrite split1_found. Qed.

Lemma arg_key_bare (item : string) : ~ occurs equals item -> arg_key item = item.
Proof. intros H. unfold arg_key. now rewrite split1_not_found. Qed.

Lemma arg_key_plain (item : string) : ~ occurs equals (arg_key item).
Proof.
  destruct (occurs_dec equals item) as [H|H].
  - apply occurs_first in H. destruct H as (name & value & -> & Hn).
    change (name +:+ String equals value) with (env_entry (name, value)).
    now rewrite (arg_key_entry name value Hn).
  - now rewrite arg_key_bare.
Qed.

(** One turn of the loop of [extract_build_args] that does not leave it. *)
Lemma extract_build_args_step (environ : gmap string string) (item : string)
  (rest : list string) (d0 : list (string * string)) (r : run (list (string * string))) :
  extract_build_args_loop environ (item :: rest) d0 = r ->
  (exists value,
     (item = env_entry (arg_key item, value) /\ occurs equals item \/
      ~ occurs equals item /\ environ !! item = Some value) /\
     r = extract_build_args_loop environ rest (dict_set (arg_key item) value d0)) \/
  (~ occurs equals item /\ environ !! item = None /\
   r = Run ["Could not set build arg `" +:+ item +:+ "` from environment."] (SysExit 1)).
Proof.
  intros <-. cbn [extract_build_args_loop]. destruct (str_in "=" item) eqn:E.
  - left. pose proof (proj1 (str_in_char_spec equals item) E) as Ho.
    destruct (split1_equals item E) as (name & value & -> & Hn & ->).
    exists value. rewrite (arg_key_entry name value Hn). split; [now left |].
    cbn [unpack2]. now rewrite bind_return.
  - pose proof (proj1 (str_in_char_false equals item) E) as Hn.
    destruct (environ !! item) as [value|] eqn:Hv.
    + left. exists value. rewrite (arg_key_bare item Hn). split; [now right | reflexivity].
    + right. repeat split; assumption.
Qed.

Lemma extract_build_args_loop_get (environ : gmap string string) (key : string)
  (build_arg : list string) (d0 d : list (string * string)) (out : list string) :
  (forall item, item ∈ build_arg -> arg_key item <> key) ->
  extract_build_args_loop environ build_arg d0 = Run out (Return d) ->
  dict_get key d = dict_get key d0.
Proof.
  revert d0. induction build_arg as [|item rest IH]; intros d0 Hk H.
  - injection H as _ <-. reflexivity.
  - apply extract_build_args_step in H.
    destruct H as [(value & _ & H)|(_ & _ & H)]; [| discriminate].
    rewrite (IH _ (fun it Hit => Hk it (list_elem_of_further _ _ _ Hit)) (eq_sym H)).
    apply dict_get_set_ne, Hk, list_elem_of_here.
Qed.

Lemma extract_build_args_loop_keys (environ : gmap string string)
  (build_arg : list string) (d0 d : list (string * string)) (out : list string) :
  NoDup d0.*1 ->
  extract_build_args_loop environ build_arg d0 = Run out (Return d) ->
  out = [] /\ NoDup d.*1 /\
  forall key, key ∈ d.*1 <-> key ∈ d0.*1 \/ key ∈ arg_key <$> build_arg.
Proof.
  revert d0. induction build_arg as [|item rest IH]; intros d0 Hd H.
  - injection H as <- <-. repeat split; [exact Hd | |].
    + intros Hk. now left.
    + intros [Hk|Hk]; [exact Hk | inversion Hk].
  - apply extract_build_args_step in H.
    destruct H as [(value & _ & H)|(_ & _ & H)]; [| discriminate].
    destruct (IH _ (HeapFacts.dict_set_NoDup _ _ _ Hd) (eq_sym H)) as (Ho & Hn & Hk).
    repeat split; [exact Ho | exact Hn | |].
    + intros Hin. apply Hk in Hin. rewrite fmap_cons, elem_of_cons.
      destruct Hin as [Hin|Hin]; [| now right; right].
      rewrite HeapFacts.dict_set_keys in Hin.
      destruct (dict_get (arg_key item) d0); [now left |].
      apply elem_of_app in Hin. destruct Hin as [Hin|Hin]; [now left |].
      apply list_elem_of_singleton in Hin. right. now left.
    + intros Hin. apply Hk. rewrite HeapFacts.dict_set_keys.
      rewrite fmap_cons, elem_of_cons in Hin.
      destruct (dict_get (arg_key item) d0) eqn:Hg.
      * destruct Hin as [Hin|[->|Hin]]; [now left | | now right].
        left. eapply dict_get_elem_fst, Hg.
      * rewrite elem_of_app, list_elem_of_singleton.
        destruct Hin as [Hin|[->|Hin]]; [now left; left | now left; right | now right].
Qed.

(** X16: the keys of the build-argument mapping are, without repetition,
    the names of the arguments given ([key] for [key=value] and for a bare
    [key]); none of them holds a [=]; and a call that returns has printed
    nothing. *)
Theorem build_args_keys (environ : gmap string string) (build_arg : list string)
  (out : list string) (d : list (string * string)) :
  extract_build_args environ build_arg = Run out (Return d) ->
  out = [] /\ NoDup d.*1 /\
  (forall key, key ∈ d.*1 <-> key ∈ arg_key <$> build_arg) /\
  (forall key, key ∈ d.*1 -> ~ occurs equals key).
Proof.
  intros H. destruct (extract_build_args_loop_keys environ build_arg [] d out) as (Ho & Hn & Hk);
    [apply NoDup_nil_2 | exact H |].
  assert (Hk' : forall key, key ∈ d.*1 <-> key ∈ arg_key <$> build_arg).
  { intros key. rewrite Hk. split; [intros [Hin|Hin]; [inversion Hin | exact Hin] | now right]. }
  repeat split; try assumption; try apply Hk'.
  intros key Hin. apply Hk' in Hin. apply list_elem_of_fmap in Hin.
  destruct Hin as (item & -> & _). apply arg_key_plain.
Qed.

Lemma build_args_keys_witness :
  [] = @nil string /\ NoDup [("A", "x=y"); ("HOME", "/root")].*1 /\
  (forall key, key ∈ [("A", "x=y"); ("HOME", "/root")].*1 <->
               key ∈ arg_key <$> ["A=1"; "HOME"; "A=x=y"]) /\
  (forall key, key ∈ [("A", "x=y"); ("HOME", "/root")].*1 -> ~ occurs equals key).
Proof.
  exact (build_args_keys {["HOME" := "/root"]} ["A=1"; "HOME"; "A=x=y"] []
           [("A", "x=y"); ("HOME", "/root")] eq_refl).
Defined.

Lemma extract_build_args_loop_last (environ : gmap string string)
  (pre post : list string) (item : string) (d0 d : list (string * string))
  (out : list string) :
  extract_build_args_loop environ (pre ++ item :: post) d0 = Run out (Return d) ->
  (forall later, later ∈ post -> arg_key later <> arg_key item) ->
  exists value,
    dict_get (arg_key item) d = Some value /\
    (item = env_entry (arg_key item, value) /\ occurs equals item \/
     ~ occurs equals item /\ environ !! item = Some value).
Proof.
  revert d0. induction pre as [|x pre IH]; intros d0 H Hpost.
  - apply extract_build_args_step in H.
    destruct H as [(value & Hv & H)|(_ & _ & H)]; [| discriminate].
    exists value. split; [| exact Hv].
    rewrite (extract_build_args_loop_get _ _ _ _ _ _ Hpost (eq_sym H)).
    apply dict_get_set_eq.
  - change ((x :: pre) ++ item :: post) with (x :: (pre ++ item :: post)) in H.
    apply extract_build_args_step in H.
    destruct H as [(value & _ & H)|(_ & _ & H)]; [| discriminate].
    exact (IH _ (eq_sym H) Hpost).
Qed.

(** X17: when a name is given several times the last argument wins: an
    argument [name=value] that no later argument overrides binds [name] to
    [value], split at its first [=] only; a bare [name] that nothing
    overrides binds it to the value of the environment. *)
Theorem build_args_last_wins (environ : gmap string string) (pre post : list string)
  (item : string) (out : list string) (d : list (string * string)) :
  extract_build_args environ (pre ++ item :: post) = Run out (Return d) ->
  (forall later, later ∈ post -> arg_key later <> arg_key item) ->
  (forall name value, ~ occurs equals name -> item = env_entry (name, value) ->
     dict_get name d = Some value) /\
  (~ occurs equals item -> dict_get item d = environ !! item /\ is_Some (environ !! item)).
Proof.
  intros H Hpost.
  destruct (extract_build_args_loop_last environ pre post item [] d out H Hpost)
    as (v & Hg & Hv).
  split.
  - intros name value Hn ->. rewrite (arg_key_entry name value Hn) in *.
    destruct Hv as [[He _]|[Hno _]].
    + unfold env_entry in He. simpl in He.
      apply (f_equal (split1 equals)) in He.
      rewrite !split1_found in He by exact Hn. now injection He as <-.
    + exfalso. apply Hno. exists name, value. reflexivity.
  - intros Hno. rewrite (arg_key_bare item Hno) in *.
    destruct Hv as [[_ Ho]|[_ Hv]]; [contradiction |].
    rewrite Hv, Hg. split; [reflexivity | eauto].
Qed.

Lemma build_args_last_wins_witness :
  dict_get "A" [("A", "x=y"); ("HOME", "/root")] = Some "x=y" /\
  dict_get "HOME" [("A", "x=y"); ("HOME", "/root")] =
    ({["HOME" := "/root"]} : gmap string string) !! "HOME".
Proof.
  split.
  - refine (proj1 (build_args_last_wins {["HOME" := "/root"]} ["A=1"; "HOME"] []
                     "A=x=y" [] [("A", "x=y"); ("HOME", "/root")] eq_refl _)
              "A" "x=y" _ eq_refl).
    + intros later Hl. inversion Hl.
    + apply str_in_char_false. reflexivity.
  - refine (proj1 (proj2 (build_args_last_wins {["HOME" := "/root"]} ["A=1"] ["A=x=y"]
                     "HOME" [] [("A", "x=y"); ("HOME", "/root")] eq_refl _) _)).
    + intros later Hl. apply list_elem_of_singleton in Hl. subst later.
      vm_compute. discriminate.
    + apply str_in_char_false. reflexivity.
Defined.

Lemma extract_build_args_loop_returns (environ : gmap string string)
  (build_arg : list string) (d0 : list (string * string)) :
  (forall item, item ∈ build_arg -> ~ occurs equals item -> is_Some (environ !! item)) ->
  exists d, extract_build_args_loop environ build_arg d0 = Run [] (Return d).
Proof.
  revert d0. induction build_arg as [|item rest IH]; intros d0 Hall; [now exists d0 |].
  destruct (extract_build_args_step environ item rest d0 _ eq_refl)
    as [(value & _ & H)|(Hno & Hnone & _)].
  - rewrite H. apply IH. intros it Hit. apply Hall. now apply list_elem_of_further.
  - destruct (Hall item (list_elem_of_here _ _) Hno) as [v Hv]. congruence.
Qed.

Lemma extract_build_args_loop_exits (environ : gmap string string)
  (pre post : list string) (item : string) (d0 : list (string * string)) :
  (forall it, it ∈ pre -> ~ occurs equals it -> is_Some (environ !! it)) ->
  ~ occurs equals item -> environ !! item = None ->
  extract_build_args_loop environ (pre ++ item :: post) d0 =
    Run ["Could not set build arg `" +:+ item +:+ "` from environment."] (SysExit 1).
Proof.
  revert d0. induction pre as [|x pre IH]; intros d0 Hpre Hno Hnone.
  - destruct (extract_build_args_step environ item post d0 _ eq_refl)
      as [(value & [[_ Ho]|[_ Hv]] & _)|(_ & _ & H)];
      [contradiction | congruence | exact H].
  - change ((x :: pre) ++ item :: post) with (x :: (pre ++ item :: post)).
    destruct (extract_build_args_step environ x (pre ++ item :: post) d0 _ eq_refl)
      as [(value & _ & H)|(Hx & Hxn & _)].
    + rewrite H. apply IH; try assumption.
      intros it Hit. apply Hpre. now apply list_elem_of_further.
    + destruct (Hpre x (list_elem_of_here _ _) Hx) as [v Hv]. congruence.
Qed.

Lemma first_unresolved (environ : gmap string string) (build_arg : list string) :
  (forall item, item ∈ build_arg -> ~ occurs equals item -> is_Some (environ !! item)) \/
  exists pre item post,
    build_arg = pre ++ item :: post /\
    (forall it, it ∈ pre -> ~ occurs equals it -> is_Some (environ !! it)) /\
    ~ occurs equals item /\ environ !! item = None.
Proof.
  induction build_arg as [|x l IH].
  - left. intros item Hin. inversion Hin.
  - destruct (occurs_dec equals x) as [Hx|Hx].
    + destruct IH as [IH|(pre & item & post & -> & Hpre & Hno & Hnone)].
      * left. intros item Hin Hno. apply elem_of_cons in Hin.
        destruct Hin as [->|Hin]; [contradiction | now apply IH].
      * right. exists (x :: pre), item, post. repeat split; try assumption.
        intros it Hit Hn. apply elem_of_cons in Hit.
        destruct Hit as [->|Hit]; [contradiction | now apply Hpre].
    + destruct (environ !! x) as [v|] eqn:Hv.
      * destruct IH as [IH|(pre & item & post & -> & Hpre & Hno & Hnone)].
        -- left. intros item Hin Hno. apply elem_of_cons in Hin.
           destruct Hin as [->|Hin]; [eauto | now apply IH].
        -- right. exists (x :: pre), item, post. repeat split; try assumption.
           intros it Hit Hn. apply elem_of_cons in Hit.
           destruct Hit as [->|Hit]; [eauto | now apply Hpre].
      * right. exists [], x, l. repeat split; try assumption.
        intros it Hit. inversion Hit.
Qed.

(** X18: [extract_build_args] returns a mapping exactly when every bare
    argument names a variable of the environment; otherwise it leaves with
    exit status 1, and it never raises. *)
Theorem build_args_returns_iff (environ : gmap string string) (build_arg : list string) :
  ((exists d, extract_build_args environ build_arg = Run [] (Return d)) <->
   (forall item, item ∈ build_arg -> ~ occurs equals item -> is_Some (environ !! item))) /\
  ((exists d, extract_build_args environ build_arg = Run [] (Return d)) \/
   (exists line, extract_build_args environ build_arg = Run [line] (SysExit 1))).
Proof.
  unfold extract_build_args.
  destruct (first_unresolved environ build_arg)
    as [Hall|(pre & item & post & -> & Hpre & Hno & Hnone)].
  - pose proof (extract_build_args_loop_returns environ build_arg [] Hall) as Hr.
    split; [split; [intros _; exact Hall | intros _; exact Hr] | now left].
  - pose proof (extract_build_args_loop_exits environ pre post item [] Hpre Hno Hnone) as He.
    split; [split |].
    + intros [d Hd]. rewrite He in Hd. discriminate.
    + intros Hall. destruct (Hall item) as [v Hv]; [| exact Hno | congruence].
      apply elem_of_app. right. apply list_elem_of_here.
    + right. eexists. exact He.
Qed.

(** X19: the loop stops at the first bare argument that the environment
    does not define: one line is printed, naming that argument, and the
    call leaves with exit status 1 whatever follows. *)
Theorem build_args_first_missing (environ : gmap string string) (pre post : list string)
  (item : string) :
  (forall it, it ∈ pre -> ~ occurs equals it -> is_Some (environ !! it)) ->
  ~ occurs equals item -> environ !! item = None ->
  extract_build_args environ (pre ++ item :: post) =
    Run ["Could not set build arg `" +:+ item +:+ "` from environment."] (SysExit 1).
Proof. apply extract_build_args_loop_exits. Qed.

Lemma build_args_first_missing_witness :
  extract_build_args {["HOME" := "/root"]} (["A=1"; "HOME"] ++ "HOST" :: ["NOPE"; "B=2"]) =
    Run ["Could not set build arg `HOST` from environment."] (SysExit 1).
Proof.
  apply (build_args_first_missing {["HOME" := "/root"]} ["A=1"; "HOME"] ["NOPE"; "B=2"] "HOST").
  - intros it Hit Hno. apply elem_of_cons in Hit. destruct Hit as [->|Hit].
    + exfalso. apply Hno. exists "A", "1". reflexivity.
    + apply list_elem_of_singleton in Hit. subst it. now exists "/root".
  - apply str_in_char_false. reflexivity.
  - reflexivity.
Defined.

Lemma extract_define_args_loop_build (environ : gmap string string)
  (define : list string) (d0 : list (string * string)) :
  (forall item, item ∈ define -> occurs equals item) ->
  extract_define_args_loop define d0 = extract_build_args_loop environ define d0.
Proof.
  revert d0. induction define as [|item rest IH]; intros d0 Hall; [reflexivity |].
  cbn [extract_define_args_loop extract_build_args_loop].
  pose proof (proj2 (str_in_char_spec equals item) (Hall item (list_elem_of_here _ _))) as E.
  change (str1 equals) with "=" in E. rewrite E.
  destruct (split1_equals item E) as (name & value & _ & _ & ->).
  cbn [unpack2]. rewrite !bind_return. apply IH.
  intros it Hit. apply Hall. now apply list_elem_of_further.
Qed.

(** X20: on arguments that all have the form [key=value],
    [extract_define_args] builds the mapping that [extract_build_args]
    builds, under any environment. *)
Theorem define_args_as_build_args (environ : gmap string string) (define : list string) :
  (forall item, item ∈ define -> occurs equals item) ->
  extract_define_args define = extract_build_args environ define.
Proof. apply extract_define_args_loop_build. Qed.

Lemma define_args_as_build_args_witness :
  extract_define_args ["A=1"; "B=x=y"; "A="] = extract_build_args ∅ ["A=1"; "B=x=y"; "A="].
Proof.
  apply (define_args_as_build_args ∅ ["A=1"; "B=x=y"; "A="]).
  intros item Hin. apply str_in_char_spec.
  repeat (apply elem_of_cons in Hin; destruct Hin as [->|Hin]; [reflexivity |]).
  inversion Hin.
Defined.

Lemma extract_define_args_loop_exits (pre post : list string) (item : string)
  (d0 : list (string * string)) :
  (forall it, it ∈ pre -> occurs equals it) -> ~ occurs equals item ->
  extract_define_args_loop (pre ++ item :: post) d0 =
    Run ["Invalid value for argument `" +:+ item +:+ "`, expected `--define "
         +:+ item +:+ "=<value>`"] (SysExit 1).
Proof.
  revert d0. induction pre as [|x pre IH]; intros d0 Hpre Hno.
  - cbn [app extract_define_args_loop].
    pose proof (proj2 (str_in_char_false equals item) Hno) as E.
    change (str1 equals) with "=" in E. now rewrite E.
  - change ((x :: pre) ++ item :: post) with (x :: (pre ++ item :: post)).
    cbn [extract_define_args_loop].
    pose proof (proj2 (str_in_char_spec equals x) (Hpre x (list_elem_of_here _ _))) as E.
    change (str1 equals) with "=" in E. rewrite E.
    destruct (split1_equals x E) as (name & value & _ & _ & ->).
    cbn [unpack2]. rewrite bind_return. apply IH; [| exact Hno].
    intros it Hit. apply Hpre. now apply list_elem_of_further.
Qed.

(** X21: [extract_define_args] stops at the first argument without a [=]:
    one line is printed, naming that argument, and the call leaves with
    exit status 1 whatever follows; an empty argument counts as such. *)
Theorem define_args_first_invalid (pre post : list string) (item : string) :
  (forall it, it ∈ pre -> occurs equals it) -> ~ occurs equals item ->
  extract_define_args (pre ++ item :: post) =
    Run ["Invalid value for argument `" +:+ item +:+ "`, expected `--define "
         +:+ item +:+ "=<value>`"] (SysExit 1).
Proof. apply extract_define_args_loop_exits. Qed.

Lemma define_args_first_invalid_witness :
  extract_define_args (["A=1"] ++ "" :: ["B"]) =
    Run ["Invalid value for argument ``, expected `--define =<value>`"] (SysExit 1).
Proof.
  apply (define_args_first_invalid ["A=1"] ["B"] "").
  - intros it Hit. apply list_elem_of_singleton in Hit. subst it.
    exists "A", "1". reflexivity.
  - apply str_in_char_false. reflexivity.
Defined.

(** ** Image names *)

Lemma append_inj_l (p a b : string) : p +:+ a = p +:+ b -> a = b.
Proof. induction p as [|c p IH]; simpl; [trivial |]. intros H. injection H as H. auto. Qed.

(** X22: the two image names are injective in the original name, differ
    for one and the same original name, and still collide across names:
    the name of the signed image of [n-unsigned] is the name of the
    unsigned image of [n]. *)
Theorem image_names (a b : string) :
  (gsc_image_name a = gsc_image_name b -> a = b) /\
  (gsc_unsigned_image_name a = gsc_unsigned_image_name b -> a = b) /\
  gsc_image_name a <> gsc_unsigned_image_name a /\
  (gsc_image_name a = gsc_unsigned_image_name b <-> a = b +:+ "-unsigned").
Proof.
  unfold gsc_image_name, gsc_unsigned_image_name. repeat split.
  - apply append_inj_l.
  - intros H. apply append_inj_l in H.
    apply (f_equal String.length) in H as Hl. rewrite !length_append in Hl.
    revert b H Hl. induction a as [|x a IH]; intros [|y b] H Hl; simpl in *;
      try reflexivity; try lia.
    injection H as -> H. f_equal. apply IH; [exact H | lia].
  - intros H. apply append_inj_l in H. apply (f_equal String.length) in H.
    rewrite length_append in H. simpl in H. lia.
  - apply append_inj_l.
  - now intros ->.
Qed.

(** ** The distro identifiers that the stagers accept *)

Lemma strip_prefix_Some (p s rest : string) :
  Re.strip_prefix p s = Some rest -> s = p +:+ rest.
Proof.
  revert s. induction p as [|a p IH]; intros s H; simpl in H.
  - now injection H as ->.
  - destruct s as [|b s]; [discriminate |].
    destruct (Ascii.eqb_spec a b) as [->|]; [| discriminate].
    simpl. f_equal. now apply IH.
Qed.

Lemma search_from_redhat_later (pos : nat) (s : string) :
  pos <> 0%nat -> Re.search_from redhat_pattern pos s = None.
Proof.
  revert pos. induction s as [|c s IH]; intros pos Hpos;
    cbn [Re.search_from redhat_pattern Re.rmatch];
    (replace (pos =? 0)%nat with false by (symmetry; now apply Nat.eqb_neq)).
  - reflexivity.
  - now apply IH.
Qed.

Lemma plus_iter_digits_inv (k : Re.cont) (n pos : nat) (s : string) (g res : Re.groups) :
  Re.plus_iter (Re.rmatch Re.Digit) k n pos s g = Some res ->
  exists ds rest,
    s = ds +:+ rest /\ ds <> "" /\ all_digits ds = true /\
    k (pos + String.length ds)%nat rest g = Some res.
Proof.
  revert pos s. induction n as [|n IH]; intros pos s H; [discriminate |].
  destruct s as [|c s]; [discriminate |].
  destruct (Re.is_digit c) eqn:Hc;
    [| cbn [Re.plus_iter Re.rmatch] in H; rewrite Hc in H; discriminate].
  rewrite plus_iter_digit in H by exact Hc.
  destruct (Re.plus_iter (Re.rmatch Re.Digit) k n (S pos) s g) as [res'|] eqn:E.
  - injection H as ->. destruct (IH _ _ E) as (ds & rest & -> & _ & Hd & Hk).
    exists (String c ds), rest. repeat split; [discriminate | |].
    + simpl. now rewrite Hc, Hd.
    + rewrite <- Hk. f_equal. simpl. lia.
  - exists (str1 c), s. repeat split; [discriminate | |].
    + simpl. now rewrite Hc.
    + rewrite <- H. f_equal. simpl. lia.
Qed.

Lemma redhat_tail_inv (pos : nat) (rest : string) (g res : Re.groups) :
  Re.rmatch (Re.Cat (Re.Opt (Re.Group 2 (Re.Lit "-minimal"))) Re.Eol) pos rest g
    (fun _ _ g => Some g) = Some res ->
  rest ∈ [""; "-minimal"; str1 newline; "-minimal" +:+ str1 newline] /\
  Re.group 1 res = Re.group 1 g.
Proof.
  cbn [Re.rmatch]. intros H.
  assert (Heol : forall s : string,
            String.eqb s "" || String.eqb s (str1 newline) = true ->
            s = "" \/ s = str1 newline).
  { intros s Hs. apply orb_true_iff in Hs.
    destruct Hs as [Hs|Hs]; apply String.eqb_eq in Hs; auto. }
  destruct (Re.strip_prefix "-minimal" rest) as [s'|] eqn:E.
  - apply strip_prefix_Some in E. subst rest.
    destruct (String.eqb s' "" || String.eqb s' (str1 newline)) eqn:Hs.
    + injection H as <-. split; [| reflexivity].
      destruct (Heol _ Hs) as [->| ->].
      * apply list_elem_of_further, list_elem_of_here.
      * do 3 apply list_elem_of_further. apply list_elem_of_here.
    + simpl in H. discriminate.
  - destruct (String.eqb rest "" || String.eqb rest (str1 newline)) eqn:Hs; [| discriminate].
    injection H as <-. split; [| reflexivity].
    destruct (Heol _ Hs) as [->| ->].
    + apply list_elem_of_here.
    + do 2 apply list_elem_of_further. apply list_elem_of_here.
Qed.

Lemma search_redhat_inv (distro : string) (g : Re.groups) :
  Re.search redhat_pattern distro = Some g ->
  exists ds tail,
    distro = "redhat/ubi" +:+ ds +:+ tail /\ ds <> "" /\ all_digits ds = true /\
    tail ∈ [""; "-minimal"; str1 newline; "-minimal" +:+ str1 newline] /\
    Re.group 1 g = Some ds.
Proof.
  unfold Re.search. intros H.
  assert (Hm : Re.rmatch redhat_pattern 0 distro [] (fun _ _ g => Some g) = Some g).
  { destruct distro as [|c s]; cbn [Re.search_from] in H;
      destruct (Re.rmatch redhat_pattern 0 _ [] (fun _ _ g => Some g)); try exact H;
      try discriminate.
    now rewrite search_from_redhat_later in H by lia. }
  clear H. unfold redhat_pattern in Hm. cbn [Re.rmatch Nat.eqb] in Hm.
  destruct (Re.strip_prefix "redhat/ubi" distro) as [s1|] eqn:E; [| discriminate].
  apply strip_prefix_Some in E. subst distro.
  apply plus_iter_digits_inv in Hm. destruct Hm as (ds & rest & -> & Hne & Hd & Hk).
  cbv beta in Hk. apply redhat_tail_inv in Hk. destruct Hk as [Ht Hg].
  exists ds, rest. repeat split; try assumption. rewrite Hg.
  change (0 + String.length "redhat/ubi")%nat with 10%nat.
  replace (10 + String.length ds - 10)%nat with (String.length ds) by lia.
  rewrite substring_app_prefix. reflexivity.
Qed.

Lemma search_redhat_tail (ds tail : string) :
  ds <> "" -> all_digits ds = true ->
  tail ∈ [""; "-minimal"; str1 newline; "-minimal" +:+ str1 newline] ->
  exists g, Re.search redhat_pattern ("redhat/ubi" +:+ ds +:+ tail) = Some g /\
            Re.group 1 g = Some ds.
Proof.
  intros Hne Hd Ht.
  assert (Hs : forall g,
            Re.rmatch redhat_pattern 0 ("redhat/ubi" +:+ ds +:+ tail) []
              (fun _ _ g => Some g) = Some g ->
            Re.search redhat_pattern ("redhat/ubi" +:+ ds +:+ tail) = Some g).
  { intros g E. unfold Re.search. simpl String.append in *. cbn [Re.search_from].
    now rewrite E. }
  repeat (apply elem_of_cons in Ht; destruct Ht as [->|Ht]); [| | | | inversion Ht].
  - exists [(1%nat, ds)]. split; [| reflexivity]. apply Hs.
    now apply rmatch_redhat.
  - exists [(2%nat, "-minimal"); (1%nat, ds)]. split; [| reflexivity]. apply Hs.
    apply rmatch_redhat; try assumption; [reflexivity |].
    cbn. now rewrite Nat.add_comm, Nat.add_sub.
  - exists [(1%nat, ds)]. split; [| reflexivity]. apply Hs.
    now apply rmatch_redhat.
  - exists [(2%nat, "-minimal"); (1%nat, ds)]. split; [| reflexivity]. apply Hs.
    apply rmatch_redhat; try assumption; [reflexivity |].
    cbn. now rewrite Nat.add_comm, Nat.add_sub.
Qed.

(** X23: the identifiers that the Red Hat stager accepts are exactly
    [redhat/ubi], one or more digits, an optional [-minimal] and an
    optional final line break; the version is the whole run of digits.
    Every other ASCII identifier that starts with [redhat/] is refused. *)
Theorem redhat_accepts_exactly (distro version_id repo_name : string) :
  is_ascii distro = true ->
  (handle_redhat_repo_configs distro = Return (StageRepo version_id repo_name) <->
   version_id <> "" /\ all_digits version_id = true /\
   repo_name = "rhel-" +:+ version_id +:+ "-for-x86_64-baseos-rpms" /\
   exists tail,
     tail ∈ [""; "-minimal"; str1 newline; "-minimal" +:+ str1 newline] /\
     distro = "redhat/ubi" +:+ version_id +:+ tail).
Proof.
  intros _. split.
  - unfold handle_redhat_repo_configs.
    destruct (startswith "redhat/" distro); [| discriminate]. cbn [negb].
    destruct (Re.search redhat_pattern distro) as [g|] eqn:E; [| discriminate].
    apply search_redhat_inv in E. destruct E as (ds & tail & -> & Hne & Hd & Ht & Hg).
    rewrite Hg. intros H. injection H as <- <-. eauto 8.
  - intros (Hne & Hd & -> & tail & Ht & ->).
    destruct (search_redhat_tail version_id tail Hne Hd Ht) as (g & Hs & Hg).
    now apply (handle_redhat_ubi version_id tail g).
Qed.

Lemma redhat_accepts_exactly_witness :
  handle_redhat_repo_configs ("redhat/ubi8-minimal" +:+ str1 newline) =
    Return (StageRepo "8" "rhel-8-for-x86_64-baseos-rpms").
Proof.
  apply (redhat_accepts_exactly ("redhat/ubi8-minimal" +:+ str1 newline) "8"
           "rhel-8-for-x86_64-baseos-rpms" eq_refl).
  repeat split; [discriminate |].
  exists ("-minimal" +:+ str1 newline). split; [| reflexivity].
  do 3 apply list_elem_of_further. apply list_elem_of_here.
Defined.

Lemma startswith_inv (p s : string) :
  startswith p s = true -> exists rest, s = p +:+ rest.
Proof.
  revert s. induction p as [|a p IH]; intros s H; [now exists s |].
  destruct s as [|b s]; [discriminate |]. simpl in H.
  destruct (Ascii.eqb_spec a b) as [->|]; [| discriminate].
  destruct (IH s H) as [rest ->]. now exists rest.
Qed.

(** X24: no identifier is handled by both stagers: one that the SUSE stager
    acts on (or exits on) is returned at once by the Red Hat stager, and one
    that the Red Hat stager parses or refuses is returned at once by the
    SUSE stager. *)
Theorem stagers_exclusive (credentials_exist : bool) (distro : string) :
  handle_redhat_repo_configs distro = Return NotRedHat \/
  handle_suse_repo_configs credentials_exist distro = Run [] (Return NotSuse).
Proof.
  unfold handle_redhat_repo_configs, handle_suse_repo_configs.
  destruct (startswith "redhat/" distro) eqn:E; [right | now left].
  apply startswith_inv in E. destruct E as [rest ->]. reflexivity.
Qed.

(** ** Entries with a line break, and the user *)

Lemma split1_head (item : string) :
  exists rest, split1 equals item = arg_key item :: rest.
Proof.
  unfold arg_key. destruct (split1_nonempty equals item) as (h & t & ->). now exists t.
Qed.

Lemma extract_environment_loop_skips (env_list : list string) (acc : string) :
  Forall (fun env_var => has_newline env_var = true) env_list ->
  extract_environment_loop env_list acc =
    Run ((fun env_var => skip_message (arg_key env_var)) <$> env_list) (Return acc).
Proof.
  induction env_list as [|e rest IH]; intros H; [reflexivity |].
  apply Forall_cons in H. destruct H as [He Hrest].
  cbn [extract_environment_loop]. unfold has_newline in He. rewrite He.
  destruct (split1_head e) as (t & ->).
  change (index (arg_key e :: t) 0) with (Return (arg_key e)).
  rewrite bind_return, bind_print, (IH Hrest). reflexivity.
Qed.

(** X25: an entry with a line break is left out whether or not it has a
    [=]: a list of such entries gives the empty block and no error, with one
    warning per entry that names the text before its first [=], or the whole
    entry when it has none. *)
Theorem environment_skips_line_breaks (config : image_config) :
  Forall (fun env_var => has_newline env_var = true) (or_list (Env config)) ->
  extract_environment_from_image_config config =
    Run ((fun env_var => skip_message (arg_key env_var)) <$> or_list (Env config))
        (Return "").
Proof. apply extract_environment_loop_skips. Qed.

Lemma environment_skips_line_breaks_witness :
  extract_environment_from_image_config
    (ImageConfig None None None
       (Some ["A=1" +:+ str1 newline +:+ "2"; "B" +:+ str1 newline]) None) =
    Run [skip_message "A"; skip_message ("B" +:+ str1 newline)] (Return "").
Proof.
  apply (environment_skips_line_breaks
           (ImageConfig None None None
              (Some ["A=1" +:+ str1 newline +:+ "2"; "B" +:+ str1 newline]) None)).
  repeat constructor.
Defined.

(** X26: the application user is never the empty text, and a user found
    by the call is found again when it is put back in the configuration. *)
Theorem app_user_nonempty (config : image_config) :
  extract_user_from_image_config config <> "" /\
  extract_user_from_image_config
    (ImageConfig (Entrypoint config) (Cmd config) (WorkingDir config) (Env config)
       (Some (extract_user_from_image_config config))) =
  extract_user_from_image_config config.
Proof.
  unfold extract_user_from_image_config. destruct config as [e c w v [[|x u]|]]; simpl;
    split; try discriminate; reflexivity.
Qed.

(** ** The merger on shared objects *)

Lemma dict_get_app {V} (key : string) (a b : list (string * V)) :
  dict_get key (a ++ b) =
    match dict_get key a with
    | Some v => Some v
    | None => dict_get key b
    end.
Proof.
  induction a as [|[k x] a IH]; [reflexivity |]. cbn [app dict_get].
  destruct (String.eqb k key); [reflexivity | exact IH].
Qed.

Module HeapMore.

Import Heap.

Section Shared.

Variable container_str : store -> loc -> string.
Variables manifest1_name manifest2_name : string.

Local Abbreviation merge :=
  (merge_manifests_in_order container_str manifest1_name manifest2_name).
Local Abbreviation keys_loop :=
  (merge_keys container_str manifest1_name manifest2_name).




(** X28: merging with itself a manifest that holds a list doubles the
    list: the list is extended by its own items. *)
Theorem merge_with_itself_doubles_list (fuel : nat) (st : store) (m l : loc)
  (key : string) (a : list val) (path : list string) :
  m <> l ->
  st !! m = Some (ODict [(key, VRef l)]) ->
  st !! l = Some (OList a) ->
  merge (S fuel) st m m path = Run [] (Return (<[l := OList (a ++ a)]> st, m)).
Proof.
  intros Hne Hm Hl. cbn [merge_manifests_in_order]. rewrite Hm.
  rewrite fmap_cons. change ([].*1) with (@nil string). cbn [fst length].
  cbn [merge_keys]. rewrite Hm. cbn [length Nat.eqb negb].
  unfold merge_key. rewrite Hm. cbn [dict_get]. rewrite String.eqb_refl.
  cbn [kind_of]. rewrite Hl.
  change (mret (<[l:=OList (a ++ a)]> st) : run store)
    with (Run [] (Return (<[l:=OList (a ++ a)]> st)) : run store).
  rewrite HeapFacts.bind_run_return.
  rewrite lookup_insert_ne by (intros ->; congruence). rewrite Hm.
  reflexivity.
Qed.

Lemma merge_keys_disjoint (rec : store -> loc -> loc -> list string -> run (store * loc))
  (st : store) (m1 m2 : loc) (items1 items2 : list (string * val)) (path : list string)
  (todo done : list (string * val)) :
  st !! m2 = Some (ODict items2) ->
  m1 <> m2 ->
  NoDup items2.*1 ->
  (forall key, key ∈ items2.*1 -> key ∉ items1.*1) ->
  items2 = done ++ todo ->
  keys_loop rec (length items2) (todo.*1) (<[m1 := ODict (items1 ++ done)]> st) m1 m2 path =
    Run [] (Return (<[m1 := ODict (items1 ++ items2)]> st)).
Proof.
  intros Hm2 Hne Hnd Hdis. revert done.
  induction todo as [|[key v] rest IH]; intros done Hsplit.
  - change ([].*1) with (@nil string). cbn [merge_keys].
    rewrite lookup_insert_ne, Hm2, Nat.eqb_refl by exact Hne.
    rewrite app_nil_r in Hsplit. now subst done.
  - rewrite fmap_cons. cbn [fst merge_keys].
    rewrite lookup_insert_ne, Hm2, Nat.eqb_refl by exact Hne. cbn [negb].
    unfold merge_key. rewrite lookup_insert_eq, lookup_insert_ne, Hm2 by exact Hne.
    assert (Hkd : dict_get key done = None).
    { apply dict_get_None. intros Hin. rewrite Hsplit, fmap_app, fmap_cons in Hnd.
      apply NoDup_app in Hnd. destruct Hnd as (_ & Hnd & _).
      apply (Hnd key Hin). apply list_elem_of_here. }
    assert (Hk1 : dict_get key items1 = None).
    { apply dict_get_None, Hdis. rewrite Hsplit, fmap_app, fmap_cons.
      apply elem_of_app. right. apply list_elem_of_here. }
    replace (dict_get key items2) with (Some v).
    2:{ rewrite Hsplit, dict_get_app, Hkd. cbn [dict_get]. now rewrite String.eqb_refl. }
    rewrite dict_get_app, Hk1, Hkd.
    unfold store_set. rewrite lookup_insert_eq, insert_insert_eq.
    rewrite dict_set_absent by (now rewrite dict_get_app, Hk1, Hkd).
    change (mret (<[m1:=ODict ((items1 ++ done) ++ [(key, v)])]> st) : run store)
      with (Run [] (Return (<[m1:=ODict ((items1 ++ done) ++ [(key, v)])]> st)) : run store).
    rewrite HeapFacts.bind_run_return. rewrite <- app_assoc.
    rewrite (IH (done ++ [(key, v)])); [reflexivity |].
    rewrite Hsplit, <- app_assoc. reflexivity.
Qed.

(** X29: when no key of the second manifest is in the first, the call
    appends the items of the second to the first as they are: a list or a
    mapping of the second manifest is not copied, the first manifest now
    holds the very same object, and nothing is printed. *)
Theorem merge_disjoint_shares (fuel : nat) (st : store) (m1 m2 : loc)
  (items1 items2 : list (string * val)) (path : list string) :
  st !! m1 = Some (ODict items1) ->
  st !! m2 = Some (ODict items2) ->
  m1 <> m2 ->
  NoDup items2.*1 ->
  (forall key, key ∈ items2.*1 -> key ∉ items1.*1) ->
  merge (S fuel) st m1 m2 path =
    Run [] (Return (<[m1 := ODict (items1 ++ items2)]> st, m1)).
Proof.
  intros Hm1 Hm2 Hne Hnd Hdis. cbn [merge_manifests_in_order]. rewrite Hm2.
  pose proof (merge_keys_disjoint (merge fuel) st m1 m2 items1 items2 path items2 []
                Hm2 Hne Hnd Hdis eq_refl) as H.
  rewrite app_nil_r, (insert_id st m1 _ Hm1) in H. rewrite H. reflexivity.
Qed.

End Shared.


Lemma merge_with_itself_doubles_list_witness :
  merge_manifests_in_order (fun _ _ => "") "user" "distro" 1
    (<[1%positive := ODict [("a", VRef 2)]]> {[2%positive := OList [VInt 7]]}) 1 1 [] =
  Run [] (Return (<[2%positive := OList [VInt 7; VInt 7]]>
                    (<[1%positive := ODict [("a", VRef 2)]]>
                       {[2%positive := OList [VInt 7]]}), 1%positive)).
Proof.
  apply (merge_with_itself_doubles_list (fun _ _ => "") "user" "distro" 0 _ 1 2 "a"
           [VInt 7] []); [discriminate | reflexivity | reflexivity].
Defined.

Lemma merge_disjoint_shares_witness :
  merge_manifests_in_order (fun _ _ => "") "user" "distro" 1 two_manifests 1 2 [] =
  Run [] (Return (<[1%positive := ODict [("a", VRef 3)]]> two_manifests, 1%positive)).
Proof.
  apply (merge_disjoint_shares (fun _ _ => "") "user" "distro" 0 two_manifests 1 2
           [] [("a", VRef 3)] []).
  - reflexivity.
  - reflexivity.
  - discriminate.
  - apply (bool_decide_unpack _). vm_compute. exact I.
  - intros key _ Hin. inversion Hin.
Defined.

End HeapMore.

Lemma merge_store_values_witness :
  exists st',
    Heap.merge_manifests_in_order (fun _ _ => "") "user" "distro" 3
      Heap.separate_manifests 1 3 [] =
      Run (Values.merge_manifests_in_order (fun _ => "") "user" "distro"
             [("loader", MDict [("PATH", MStr "/x")]); ("debug", MBool true)]
             [("loader", MDict [("PATH", MStr "/y"); ("HOME", MStr "/")]);
              ("libs", MList [MStr "a"])] []).2
          (Return (st', 1%positive)) /\
    Heap.read 3 st' (Heap.VRef 1) =
      Some (MDict (Values.merge_manifests_in_order (fun _ => "") "user" "distro"
             [("loader", MDict [("PATH", MStr "/x")]); ("debug", MBool true)]
             [("loader", MDict [("PATH", MStr "/y"); ("HOME", MStr "/")]);
              ("libs", MList [MStr "a"])] []).1) /\
    Heap.read 3 st' (Heap.VRef 3) =
      Some (MDict [("loader", MDict [("PATH", MStr "/y"); ("HOME", MStr "/")]);
                   ("libs", MList [MStr "a"])]).
Proof.
  apply (HeapFacts.merge_store_values (fun _ _ => "") (fun _ => "") "user" "distro" 3 3
           Heap.separate_manifests 1 3 []
           [("loader", MDict [("PATH", MStr "/x")]); ("debug", MBool true)]
           [("loader", MDict [("PATH", MStr "/y"); ("HOME", MStr "/")]);
            ("libs", MList [MStr "a"])]).
  - reflexivity.
  - lia.
  - unfold Heap.separate_manifests.
    repeat (apply HeapFacts.store_ok_insert;
            [| simpl; try exact I; apply (bool_decide_unpack _); vm_compute; exact I]).
    apply HeapFacts.store_ok_empty.
  - reflexivity.
  - reflexivity.
  - split.
    + apply (bool_decide_unpack _). vm_compute. exact I.
    + intros l Hl1 Hl2. vm_compute in Hl1, Hl2.
      apply list_elem_of_In in Hl1, Hl2. simpl in Hl1, Hl2.
      destruct Hl1 as [<-|[<-|[]]]; destruct Hl2 as [H|[H|[H|[]]]]; discriminate.
Defined.
